(** * Mini-Exchange order matching engine: shallow embedding of
    [src/lib/orderMatcher.ts] and verification of its specification.

    Beside the engine the development embeds the application store
    ([src/store/exchangeStore.ts]) with the check of the order form, the
    simulated feed ([src/lib/fakeSocket.ts]) and the arithmetic of the
    order book and depth chart components.

    Modelling conventions.
    - The engine is embedded twice.  In the first embedding a JavaScript
      [number] that carries a price, a quantity or a timestamp is an exact
      rational ([Q]); comparisons go through [Qle_bool], [Qeq_bool] and
      [Qcompare], so two representations of one rational behave as one
      number.  It carries what does not hang on rounding: which orders
      are walked and in which order, prices of trades, identifiers, the
      shape of the snapshot.  In the second embedding (module [Dbl]) a
      [number] is a binary64 value ([PrimFloat.float]) with the
      arithmetic, the comparisons and the NaN of IEEE 754; it carries
      what is said of quantities: what a match subtracts, and which
      quantities can rest.
    - The engine's counter [sequenceId] only ever counts, it is an [N].
    - Order objects live in a store ([heap]) and the arrays of the engine
      hold references to them: [opposingOrder.quantity -= tradeQuantity]
      writes through the reference and is seen by [this.orders].
    - [Date.now()] is an oracle handed to [addOrder]: [now k] is the value
      of the k-th reading during the call.
    - [Math.random()] is an oracle handed to the simulated feed: [rand k]
      is the k-th value drawn; the timers of the host are a table of the
      timeouts that are set and have not yet fired. *)

From Stdlib Require Import String Ascii DecimalString DecimalN.
From Stdlib Require Import List Bool Arith PeanoNat NArith ZArith QArith Qminmax Qround.
From Stdlib Require Import Sorted Permutation FinFun Lia Lqa.
From Stdlib Require Floats.
Import ListNotations.
Local Open Scope list_scope.

Set Implicit Arguments.

(** ** Data model ([src/types/index.ts]) *)

Inductive Side : Set := buy | sell.
Inductive OrderType : Set := market | limit.

Definition Side_eqb (a b : Side) : bool :=
  match a, b with
  | buy, buy | sell, sell => true
  | _, _ => false
  end.

Module Order.
Record t : Set := make
    { id : string;
      price : Q;
      quantity : Q;
      side : Side;
      type : OrderType;
      timestamp : Q }.

  (** [{ ...order, quantity: q }] *)
Definition with_quantity (o : t) (q : Q) : t :=
    {| id := id o; price := price o; quantity := q;
       side := side o; type := type o; timestamp := timestamp o |}.
End Order.

Module Trade.
Record t : Set := make
    { id : string;
      price : Q;
      quantity : Q;
      side : Side;
      timestamp : Q;
      buyer : option string;
      seller : option string }.
End Trade.

Module OrderBookLevel.
Record t : Set := make
    { price : Q;
      quantity : Q;
      total : Q;
      count : nat }.
End OrderBookLevel.

Module OrderBook.
Record t : Set := make
    { bids : list OrderBookLevel.t;
      asks : list OrderBookLevel.t;
      midPrice : Q;
      spread : Q }.
End OrderBook.

(** ** The object store *)

Definition ref := nat.

Definition Heap := ref -> Order.t.

Definition store (h : Heap) (r : ref) (o : Order.t) : Heap :=
  fun r' => if Nat.eqb r' r then o else h r'.

(** ** Engine state: the private fields of [class OrderMatcher] *)

Record OrderMatcher : Type := mkOrderMatcher
  { heap : Heap;            (* the order objects *)
    fresh : ref;            (* next reference [{...}] allocates *)
    orders : list ref;      (* private orders: Order[] *)
    trades : list Trade.t;  (* private trades: Trade[] *)
    sequenceId : N }.       (* private sequenceId = 0 *)

Definition set_heap (st : OrderMatcher) (h : Heap) : OrderMatcher :=
  {| heap := h; fresh := fresh st; orders := orders st;
     trades := trades st; sequenceId := sequenceId st |}.

Definition set_orders (st : OrderMatcher) (l : list ref) : OrderMatcher :=
  {| heap := heap st; fresh := fresh st; orders := l;
     trades := trades st; sequenceId := sequenceId st |}.

Definition set_trades (st : OrderMatcher) (l : list Trade.t) : OrderMatcher :=
  {| heap := heap st; fresh := fresh st; orders := orders st;
     trades := l; sequenceId := sequenceId st |}.

Definition set_sequenceId (st : OrderMatcher) (n : N) : OrderMatcher :=
  {| heap := heap st; fresh := fresh st; orders := orders st;
     trades := trades st; sequenceId := n |}.

(** [{ ...order, quantity }]: a new object at the next free reference. *)
Definition alloc (st : OrderMatcher) (o : Order.t) : ref * OrderMatcher :=
  (fresh st,
   {| heap := store (heap st) (fresh st) o; fresh := S (fresh st);
      orders := orders st; trades := trades st;
      sequenceId := sequenceId st |}).

(** [new OrderMatcher()] *)
Definition dummyOrder : Order.t :=
  Order.make EmptyString 0 0 buy limit 0.

Definition newOrderMatcher : OrderMatcher :=
  {| heap := fun _ => dummyOrder; fresh := 0%nat; orders := [];
     trades := []; sequenceId := 0%N |}.

(** ** JavaScript primitives used by the engine *)

(** [x <= 0] and [x > 0] on numbers. *)
Definition lez (x : Q) : bool := Qle_bool x 0.
Definition gtz (x : Q) : bool := negb (Qle_bool x 0).

(** Truthiness of a number: everything but zero. *)
Definition truthy (x : Q) : bool := negb (Qeq_bool x 0).

(** [Array.prototype.sort(compareFn)]: a stable sort; [a] stays before [b]
    unless [compareFn(a, b) > 0]. *)
Section Sort.
Variable A : Type.
Variable compareFn : A -> A -> Q.

Fixpoint sort_insert (x : A) (l : list A) : list A :=
    match l with
    | [] => [x]
    | y :: l' =>
        if Qle_bool (compareFn x y) 0 then x :: y :: l'
        else y :: sort_insert x l'
    end.

Fixpoint sort (l : list A) : list A :=
    match l with
    | [] => []
    | x :: l' => sort_insert x (sort l')
    end.
End Sort.

(** [`trade_${n}`] *)
Definition tradeId (n : N) : string :=
  ("trade_" ++ NilZero.string_of_uint (N.to_uint n))%string.

(** ** Matching *)

Definition opposingSideOf (s : Side) : Side :=
  match s with buy => sell | sell => buy end.

(** The comparator both matchers hand to [sort]. *)
Definition priceCompare (h : Heap) (s : Side) (a b : ref) : Q :=
  match s with
  | buy => Order.price (h a) - Order.price (h b)
  | sell => Order.price (h b) - Order.price (h a)
  end.

(** [this.orders.filter(o => o.side === opposingSide).sort(...)] *)
Definition marketOpposingOrders (order : Order.t) (st : OrderMatcher)
  : list ref :=
  sort (priceCompare (heap st) (Order.side order))
    (filter (fun o => Side_eqb (Order.side (heap st o))
                        (opposingSideOf (Order.side order)))
       (orders st)).

(** The filter callback of [matchLimitOrder]. *)
Definition limitEligible (h : Heap) (order : Order.t) (o : ref) : bool :=
  if negb (Side_eqb (Order.side (h o)) (opposingSideOf (Order.side order)))
  then false
  else match Order.side order with
       | buy => Qle_bool (Order.price (h o)) (Order.price order)
       | sell => Qle_bool (Order.price order) (Order.price (h o))
       end.

Definition limitOpposingOrders (order : Order.t) (st : OrderMatcher)
  : list ref :=
  sort (priceCompare (heap st) (Order.side order))
    (filter (limitEligible (heap st) order) (orders st)).

(** The trade record built in the loop body. *)
Definition mkTrade (order opposingOrder : Order.t) (seq : N)
    (tradeQuantity : Q) (time : Q) : Trade.t :=
  {| Trade.id := tradeId seq;
     Trade.price := Order.price opposingOrder;
     Trade.quantity := tradeQuantity;
     Trade.side := Order.side order;
     Trade.timestamp := time;
     Trade.buyer :=
       Some (match Order.side order with
             | buy => Order.id order
             | sell => Order.id opposingOrder
             end);
     Trade.seller :=
       Some (match Order.side order with
             | sell => Order.id order
             | buy => Order.id opposingOrder
             end) |}.

(** [this.orders = this.orders.filter(o => o.id !== opposingOrder.id)] *)
Definition removeById (h : Heap) (orderId : string) (l : list ref)
  : list ref :=
  filter (fun o => negb (String.eqb (Order.id (h o)) orderId)) l.

(** One pass through the body of [for (const opposingOrder of
    opposingOrders)], after the [break] test: the trade is pushed, the
    counter advanced, both quantities decremented, a filled order removed. *)
Definition matchStep (now : nat -> Q) (order : Order.t) (r : ref)
    (remainingQuantity : Q) (newTrades : list Trade.t) (st : OrderMatcher)
  : Q * list Trade.t * OrderMatcher :=
  let opposingOrder := heap st r in
  let tradeQuantity := Qmin remainingQuantity (Order.quantity opposingOrder) in
  let trade :=
    mkTrade order opposingOrder (sequenceId st) tradeQuantity
      (now (length newTrades)) in
  let st := set_sequenceId st (sequenceId st + 1) in
  let newTrades := newTrades ++ [trade] in
  let remainingQuantity := remainingQuantity - tradeQuantity in
  let st :=
    set_heap st
      (store (heap st) r
         (Order.with_quantity opposingOrder
            (Order.quantity opposingOrder - tradeQuantity))) in
  let st :=
    if lez (Order.quantity (heap st r))
    then set_orders st
           (removeById (heap st) (Order.id (heap st r)) (orders st))
    else st in
  (remainingQuantity, newTrades, st).

(** The [for ... of] loop, the same text in both matchers. *)
Fixpoint matchLoop (now : nat -> Q) (order : Order.t)
    (opposingOrders : list ref) (remainingQuantity : Q)
    (newTrades : list Trade.t) (st : OrderMatcher)
  : Q * list Trade.t * OrderMatcher :=
  match opposingOrders with
  | [] => (remainingQuantity, newTrades, st)
  | r :: rest =>
      if lez remainingQuantity then (remainingQuantity, newTrades, st)
      else
        let '(remainingQuantity, newTrades, st) :=
          matchStep now order r remainingQuantity newTrades st in
        matchLoop now order rest remainingQuantity newTrades st
  end.

Definition matchMarketOrder (now : nat -> Q) (order : Order.t)
    (newTrades : list Trade.t) (st : OrderMatcher)
  : option ref * list Trade.t * OrderMatcher :=
  let opposingOrders := marketOpposingOrders order st in
  let '(remainingQuantity, newTrades, st) :=
    matchLoop now order opposingOrders (Order.quantity order) newTrades st in
  ((if gtz remainingQuantity then None else None), newTrades, st).

Definition matchLimitOrder (now : nat -> Q) (order : Order.t)
    (newTrades : list Trade.t) (st : OrderMatcher)
  : option ref * list Trade.t * OrderMatcher :=
  let opposingOrders := limitOpposingOrders order st in
  let '(remainingQuantity, newTrades, st) :=
    matchLoop now order opposingOrders (Order.quantity order) newTrades st in
  if gtz remainingQuantity then
    let '(r, st) := alloc st (Order.with_quantity order remainingQuantity) in
    (Some r, newTrades, st)
  else (None, newTrades, st).

(** [addOrder(order)]: the result pairs the trades of this call with the
    reference of the remainder, if any.  The copy [{ ...order }] the source
    first binds to [remainingOrder] is overwritten before it is read and
    is left out. *)
Definition addOrder (now : nat -> Q) (order : Order.t) (st : OrderMatcher)
  : (list Trade.t * option ref) * OrderMatcher :=
  let '(remainingOrder, newTrades, st) :=
    match Order.type order with
    | market => matchMarketOrder now order [] st
    | limit => matchLimitOrder now order [] st
    end in
  let st :=
    match remainingOrder with
    | Some r =>
        if gtz (Order.quantity (heap st r))
        then set_orders st (orders st ++ [r])
        else st
    | None => st
    end in
  let st := set_trades st (trades st ++ newTrades) in
  ((newTrades, remainingOrder), st).

(** [getOrders()], by value. *)
Definition getOrders (st : OrderMatcher) : list Order.t :=
  map (heap st) (orders st).

(** [getTrades()] *)
Definition getTrades (st : OrderMatcher) : list Trade.t :=
  rev (trades st).

(** [removeOrder(orderId)] *)
Definition removeOrder (orderId : string) (st : OrderMatcher)
  : bool * OrderMatcher :=
  let initialLength := length (orders st) in
  let st := set_orders st (removeById (heap st) orderId (orders st)) in
  (Nat.ltb (length (orders st)) initialLength, st).

(** [clear()] *)
Definition clear (st : OrderMatcher) : OrderMatcher :=
  set_trades (set_orders st []) [].

(** ** Book snapshot *)

(** [Map<number, { quantity; count }>]: keys in insertion order, a key
    that is set again keeps its place. *)
Definition PriceMap := list (Q * (Q * nat)).

Fixpoint mapGet (m : PriceMap) (k : Q) : option (Q * nat) :=
  match m with
  | [] => None
  | (k', v) :: m' => if Qeq_bool k' k then Some v else mapGet m' k
  end.

Fixpoint mapSet (m : PriceMap) (k : Q) (v : Q * nat) : PriceMap :=
  match m with
  | [] => [(k, v)]
  | (k', v') :: m' =>
      if Qeq_bool k' k then (k', v) :: m' else (k', v') :: mapSet m' k v
  end.

(** The callback of [sideOrders.forEach]. *)
Definition addToLevel (priceMap : PriceMap) (order : Order.t) : PriceMap :=
  let existing :=
    match mapGet priceMap (Order.price order) with
    | Some e => e
    | None => (0, 0%nat)
    end in
  mapSet priceMap (Order.price order)
    (fst existing + Order.quantity order, (snd existing + 1)%nat).

Definition levelOfEntry (e : Q * (Q * nat)) : OrderBookLevel.t :=
  {| OrderBookLevel.price := fst e;
     OrderBookLevel.quantity := fst (snd e);
     OrderBookLevel.count := snd (snd e);
     OrderBookLevel.total := 0 |}.

Definition levelCompare (s : Side) (a b : OrderBookLevel.t) : Q :=
  match s with
  | buy => OrderBookLevel.price b - OrderBookLevel.price a
  | sell => OrderBookLevel.price a - OrderBookLevel.price b
  end.

(** [levels.forEach(level => { runningTotal += level.quantity;
    level.total = runningTotal })] *)
Fixpoint runningTotals (runningTotal : Q) (levels : list OrderBookLevel.t)
  : list OrderBookLevel.t :=
  match levels with
  | [] => []
  | level :: rest =>
      let runningTotal := runningTotal + OrderBookLevel.quantity level in
      {| OrderBookLevel.price := OrderBookLevel.price level;
         OrderBookLevel.quantity := OrderBookLevel.quantity level;
         OrderBookLevel.count := OrderBookLevel.count level;
         OrderBookLevel.total := runningTotal |}
      :: runningTotals runningTotal rest
  end.

Definition sideOrdersOf (s : Side) (st : OrderMatcher) : list Order.t :=
  filter (fun o => Side_eqb (Order.side o) s) (getOrders st).

Definition aggregateOrdersByPrice (s : Side) (st : OrderMatcher)
  : list OrderBookLevel.t :=
  let sideOrders := sideOrdersOf s st in
  let priceMap := fold_left addToLevel sideOrders [] in
  let levels := map levelOfEntry priceMap in
  let levels := sort (levelCompare s) levels in
  runningTotals 0 levels.

(** [levels[0]?.price || 0] *)
Definition firstPriceOr0 (levels : list OrderBookLevel.t) : Q :=
  match levels with
  | [] => 0
  | level :: _ =>
      if truthy (OrderBookLevel.price level)
      then OrderBookLevel.price level else 0
  end.

Definition bestBid (st : OrderMatcher) : Q :=
  firstPriceOr0 (aggregateOrdersByPrice buy st).

Definition bestAsk (st : OrderMatcher) : Q :=
  firstPriceOr0 (aggregateOrdersByPrice sell st).

(** [getOrderBook()], a method like the others: it hands back the engine
    state it ran on. *)
Definition getOrderBook (st : OrderMatcher) : OrderBook.t * OrderMatcher :=
  let bids := aggregateOrdersByPrice buy st in
  let asks := aggregateOrdersByPrice sell st in
  let bestBid := firstPriceOr0 bids in
  let bestAsk := firstPriceOr0 asks in
  let midPrice :=
    if truthy bestBid && truthy bestAsk
    then (bestBid + bestAsk) / 2 else 0 in
  let spread :=
    if truthy bestAsk && truthy bestBid
    then bestAsk - bestBid else 0 in
  ({| OrderBook.bids := firstn 20 bids;
      OrderBook.asks := firstn 20 asks;
      OrderBook.midPrice := midPrice;
      OrderBook.spread := spread |}, st).

(** ** Vocabulary of the specification *)

(** The orders a call may match against, and the list the loop walks. *)
Definition eligible (h : Heap) (order : Order.t) (o : ref) : bool :=
  match Order.type order with
  | market => Side_eqb (Order.side (h o)) (opposingSideOf (Order.side order))
  | limit => limitEligible h order o
  end.

Definition opposingOrders (order : Order.t) (st : OrderMatcher) : list ref :=
  match Order.type order with
  | market => marketOpposingOrders order st
  | limit => limitOpposingOrders order st
  end.

(** Price priority seen from the incoming side: [p] is at least as good
    as [q], and strictly better. *)
Definition priority (s : Side) (p q : Q) : Prop :=
  match s with
  | buy => p <= q
  | sell => q <= p
  end.



(** The resting order's identifier as a trade records it. *)
Definition makerId (t : Trade.t) : option string :=
  match Trade.side t with
  | buy => Trade.seller t
  | sell => Trade.buyer t
  end.



Definition sumQ (l : list Q) : Q := fold_right Qplus 0 l.

(** A trade with its clock reading blanked. *)
Definition eraseTimestamp (t : Trade.t) : Trade.t :=
  {| Trade.id := Trade.id t; Trade.price := Trade.price t;
     Trade.quantity := Trade.quantity t; Trade.side := Trade.side t;
     Trade.timestamp := 0;
     Trade.buyer := Trade.buyer t; Trade.seller := Trade.seller t |}.




(** ** Invariants, and the life of an engine *)

Definition resting_positive (st : OrderMatcher) : Prop :=
  Forall (fun r => 0 < Order.quantity (heap st r)) (orders st).

Definition allocated (st : OrderMatcher) : Prop :=
  Forall (fun r => (r < fresh st)%nat) (orders st).

Definition engine_inv (st : OrderMatcher) : Prop :=
  NoDup (orders st) /\ allocated st /\ resting_positive st.

(** Calls on the engine, and an engine's life as a list of calls. *)
Inductive Call : Type :=
| CallAddOrder (now : nat -> Q) (order : Order.t)
| CallRemoveOrder (orderId : string)
| CallClear
| CallGetOrderBook.

Definition call (c : Call) (st : OrderMatcher) : OrderMatcher :=
  match c with
  | CallAddOrder now order => snd (addOrder now order st)
  | CallRemoveOrder orderId => snd (removeOrder orderId st)
  | CallClear => clear st
  | CallGetOrderBook => snd (getOrderBook st)
  end.

(** The trades a call creates, each paired with the reference of the
    resting order the loop was visiting when it created it. *)
Definition callFills (c : Call) (st : OrderMatcher) : list (ref * Trade.t) :=
  match c with
  | CallAddOrder now order =>
      combine (opposingOrders order st) (fst (fst (addOrder now order st)))
  | _ => []
  end.

Definition callTrades (c : Call) (st : OrderMatcher) : list Trade.t :=
  match c with
  | CallAddOrder now order => fst (fst (addOrder now order st))
  | _ => []
  end.

Fixpoint run (calls : list Call) (st : OrderMatcher) : OrderMatcher :=
  match calls with
  | [] => st
  | c :: rest => run rest (call c st)
  end.

Fixpoint runTrades (calls : list Call) (st : OrderMatcher) : list Trade.t :=
  match calls with
  | [] => []
  | c :: rest => callTrades c st ++ runTrades rest (call c st)
  end.

Fixpoint runFills (calls : list Call) (st : OrderMatcher)
  : list (ref * Trade.t) :=
  match calls with
  | [] => []
  | c :: rest => callFills c st ++ runFills rest (call c st)
  end.

Inductive reachable : OrderMatcher -> Prop :=
| reachable_new : reachable newOrderMatcher
| reachable_call : forall c st, reachable st -> reachable (call c st).

(** Total quantity of the trades made against the object [r]. *)
Definition tradedAgainst (r : ref) (fills : list (ref * Trade.t)) : Q :=
  sumQ (map (fun p => Trade.quantity (snd p))
          (filter (fun p => Nat.eqb (fst p) r) fills)).

(** Sequence numbers [s, s+1, ..., s+n-1]. *)
Definition seqN (s : N) (n : nat) : list N :=
  map (fun i => (s + N.of_nat i)%N) (seq 0 n).

(** ** Descriptions used in the proofs *)

(** Everything of an order object but its quantity: the part matching
    never writes. *)
Definition static (o : Order.t) : Order.t := Order.with_quantity o 0.

(** What a created trade is: [mkTrade] on the incoming order and an
    object that agrees with [o] outside the quantity. *)
Definition tradeOn (order o : Order.t) (t : Trade.t) : Prop :=
  exists o' seq tq time,
    static o' = static o /\ t = mkTrade order o' seq tq time.

(** Whether [addOrder] leaves a remainder resting, given what the loop
    left unmatched. *)
Definition rests (order : Order.t) (remainingQuantity : Q) : bool :=
  match Order.type order with
  | market => false
  | limit => gtz remainingQuantity
  end.

(** The comparator and the filters of the matchers, on order values. *)
Definition priceCompareV (s : Side) (a b : Order.t) : Q :=
  match s with
  | buy => Order.price a - Order.price b
  | sell => Order.price b - Order.price a
  end.

Definition eligibleV (order o : Order.t) : bool :=
  match Order.type order with
  | market => Side_eqb (Order.side o) (opposingSideOf (Order.side order))
  | limit =>
      if negb (Side_eqb (Order.side o) (opposingSideOf (Order.side order)))
      then false
      else match Order.side order with
           | buy => Qle_bool (Order.price o) (Order.price order)
           | sell => Qle_bool (Order.price order) (Order.price o)
           end
  end.

(** The trades of the loop when it walks distinct objects, as a function
    of their values, the incoming order, the counter and the clock. *)
Fixpoint tradesOfValues (now : nat -> Q) (order : Order.t)
    (opp : list Order.t) (rem : Q) (k : nat) (seq : N) : list Trade.t :=
  match opp with
  | [] => []
  | o :: rest =>
      if lez rem then []
      else
        let tq := Qmin rem (Order.quantity o) in
        mkTrade order o seq tq (now k)
        :: tradesOfValues now order rest (rem - tq) (S k) (seq + 1)
  end.





(** ** Concrete engines *)

(** A clock that stands still, and one that ticks at every reading. *)
Definition epoch : nat -> Q := fun _ => 0.

Definition ticking : nat -> Q := fun k => inject_Z (Z.of_nat k).

Definition limitOrder (i : string) (s : Side) (p q : Q) : Order.t :=
  Order.make i p q s limit 0.

Definition marketOrder (i : string) (s : Side) (q : Q) : Order.t :=
  Order.make i 0 q s market 0.

Definition submitAll (l : list Order.t) (st : OrderMatcher) : OrderMatcher :=
  fold_left (fun st o => snd (addOrder epoch o st)) l st.

(** The book of the engine's unit tests: asks 100x5 and 101x3, bids 99x4
    and 98x2. *)
Definition testBook : OrderMatcher :=
  submitAll
    [limitOrder "1" sell 100 5; limitOrder "2" sell 101 3;
     limitOrder "3" buy 99 4; limitOrder "4" buy 98 2]
    newOrderMatcher.

(** The test book rebuilt in an engine that has already seen an order
    come and go: same resting values, other references. *)
Definition testBookLater : OrderMatcher :=
  submitAll
    [limitOrder "1" sell 100 5; limitOrder "2" sell 101 3;
     limitOrder "3" buy 99 4; limitOrder "4" buy 98 2]
    (snd (removeOrder "0"
            (snd (addOrder epoch (limitOrder "0" buy 1 1)
                    newOrderMatcher)))).

(** One ask, 99x3. *)
Definition askBook : OrderMatcher :=
  submitAll [limitOrder "s" sell 99 3] newOrderMatcher.

(** A bid resting at price zero against an ask at 100. *)
Definition zeroBidBook : OrderMatcher :=
  submitAll [limitOrder "b" buy 0 1; limitOrder "a" sell 100 1]
    newOrderMatcher.

(** What the scenarios of the specification look at. *)
Definition tradeSummary (t : Trade.t) : Q * Q :=
  (Trade.price t, Trade.quantity t).

Definition orderSummary (o : Order.t) : string * Q * Q :=
  (Order.id o, Order.price o, Order.quantity o).

(** Closing a goal about a concrete engine by running the model. *)
Ltac by_evaluation :=
  vm_compute;
  repeat first
    [ reflexivity
    | discriminate
    | constructor
    | match goal with
      | |- ~ _ => let H := fresh in intro H; vm_compute in H
      | H : _ \/ _ |- _ => destruct H
      | H : False |- _ => destruct H
      | H : _ = _ |- _ => discriminate H
      end ].

(** ** Further vocabulary: the book as its users see it *)


(** Resting orders carry pairwise distinct identifiers. *)
Definition uniqueIds (st : OrderMatcher) : Prop :=
  NoDup (map (fun r => Order.id (heap st r)) (orders st)).

(** Strictly increasing sequence numbers. *)
Definition increasing (ns : list N) : Prop :=
  StronglySorted (fun m n => (m < n)%N) ns.

(** The snapshot of a book with nothing in it. *)
Definition emptyOrderBook : OrderBook.t :=
  {| OrderBook.bids := []; OrderBook.asks := [];
     OrderBook.midPrice := 0; OrderBook.spread := 0 |}.

(** * The application store ([src/store/exchangeStore.ts])

    The store keeps what the screen shows; [submitOrder] drives the
    engine singleton, so a state of the application is the store's state
    together with the engine's.  [console] output is left out. *)

Module OrderFormData.
Record t : Set := make
  { side : Side;
    type : OrderType;
    price : string;
    quantity : string }.
End OrderFormData.

Module AppState.
Record t : Type := make
  { orderBook : OrderBook.t;
    trades : list Trade.t;
    isConnected : bool;
    isPaused : bool;
    currentOrder : OrderFormData.t;
    isOrderModalOpen : bool }.
End AppState.

Definition initialOrderForm : OrderFormData.t :=
  {| OrderFormData.side := buy; OrderFormData.type := limit;
     OrderFormData.price := EmptyString;
     OrderFormData.quantity := EmptyString |}.

Definition initialOrderBook : OrderBook.t :=
  {| OrderBook.bids := []; OrderBook.asks := [];
     OrderBook.midPrice := 0; OrderBook.spread := 0 |}.

Definition initialAppState : AppState.t :=
  {| AppState.orderBook := initialOrderBook;
     AppState.trades := [];
     AppState.isConnected := false;
     AppState.isPaused := false;
     AppState.currentOrder := initialOrderForm;
     AppState.isOrderModalOpen := false |}.

(** [setOrderBook(orderBook)] *)
Definition setOrderBook (ob : OrderBook.t) (s : AppState.t) : AppState.t :=
  {| AppState.orderBook := ob;
     AppState.trades := AppState.trades s;
     AppState.isConnected := AppState.isConnected s;
     AppState.isPaused := AppState.isPaused s;
     AppState.currentOrder := AppState.currentOrder s;
     AppState.isOrderModalOpen := AppState.isOrderModalOpen s |}.

Definition setTrades (l : list Trade.t) (s : AppState.t) : AppState.t :=
  {| AppState.orderBook := AppState.orderBook s;
     AppState.trades := l;
     AppState.isConnected := AppState.isConnected s;
     AppState.isPaused := AppState.isPaused s;
     AppState.currentOrder := AppState.currentOrder s;
     AppState.isOrderModalOpen := AppState.isOrderModalOpen s |}.

(** [addTrade(trade)]: [[trade, ...state.trades].slice(0, 100)] *)
Definition addTrade (trade : Trade.t) (s : AppState.t) : AppState.t :=
  setTrades (firstn 100 (trade :: AppState.trades s)) s.

(** [clearTrades()] *)
Definition clearTrades (s : AppState.t) : AppState.t := setTrades [] s.

(** [setConnection(connected)] *)
Definition setConnection (connected : bool) (s : AppState.t) : AppState.t :=
  {| AppState.orderBook := AppState.orderBook s;
     AppState.trades := AppState.trades s;
     AppState.isConnected := connected;
     AppState.isPaused := AppState.isPaused s;
     AppState.currentOrder := AppState.currentOrder s;
     AppState.isOrderModalOpen := AppState.isOrderModalOpen s |}.

(** [setOrderModalOpen(open)] *)
Definition setOrderModalOpen (open : bool) (s : AppState.t) : AppState.t :=
  {| AppState.orderBook := AppState.orderBook s;
     AppState.trades := AppState.trades s;
     AppState.isConnected := AppState.isConnected s;
     AppState.isPaused := AppState.isPaused s;
     AppState.currentOrder := AppState.currentOrder s;
     AppState.isOrderModalOpen := open |}.

(** The [set] that ends [submitOrder]: the form is reset and the modal
    closed. *)
Definition resetForm (s : AppState.t) : AppState.t :=
  {| AppState.orderBook := AppState.orderBook s;
     AppState.trades := AppState.trades s;
     AppState.isConnected := AppState.isConnected s;
     AppState.isPaused := AppState.isPaused s;
     AppState.currentOrder := initialOrderForm;
     AppState.isOrderModalOpen := false |}.

(** The store with the engine singleton it imports. *)
Record World : Type := mkWorld
  { appState : AppState.t;
    matcher : OrderMatcher }.

Definition initialWorld : World :=
  {| appState := initialAppState; matcher := newOrderMatcher |}.

(** What a message of the simulated feed carries. *)
Inductive MessageData : Type :=
| OrderBookData (ob : OrderBook.t)
| TradeData (t : Trade.t)
| TickerData.

(** The callback [initializeSocket] subscribes: nothing while paused,
    else the book is replaced or the trade added. *)
Definition onMessage (data : MessageData) (s : AppState.t) : AppState.t :=
  if AppState.isPaused s then s
  else match data with
       | OrderBookData ob => setOrderBook ob s
       | TradeData t => addTrade t s
       | TickerData => s
       end.

Section StoreActions.

(** [parseFloat], with [None] for NaN. *)
Variable parseFloat : string -> option Q.

(** [parseFloat(s) || 0] *)
Definition parseFloatOr0 (s : string) : Q :=
  match parseFloat s with
  | Some q => if truthy q then q else 0
  | None => 0
  end.

(** The order [submitOrder] builds from the form; the identifier, made of
    the clock and a random number, and the timestamp are handed in. *)
Definition orderOfForm (orderId : string) (time : Q)
    (orderData : OrderFormData.t) : Order.t :=
  {| Order.id := orderId;
     Order.price :=
       match OrderFormData.type orderData with
       | market => 0
       | limit => parseFloatOr0 (OrderFormData.price orderData)
       end;
     Order.quantity := parseFloatOr0 (OrderFormData.quantity orderData);
     Order.side := OrderFormData.side orderData;
     Order.type := OrderFormData.type orderData;
     Order.timestamp := time |}.

Definition isLimit (t : OrderType) : bool :=
  match t with limit => true | market => false end.

(** [submitOrder(orderData)] *)
Definition submitOrder (orderId : string) (time : Q) (now : nat -> Q)
    (orderData : OrderFormData.t) (w : World) : World :=
  let order := orderOfForm orderId time orderData in
  if lez (Order.quantity order) then w
  else if isLimit (Order.type order) && lez (Order.price order) then w
  else
    let '((newTrades, remainingOrder), m) :=
      addOrder now order (matcher w) in
    let s := fold_left (fun s trade => addTrade trade s) newTrades (appState w) in
    let '(updatedOrderBook, m) := getOrderBook m in
    let s := setOrderBook updatedOrderBook s in
    let s := resetForm s in
    {| appState := s; matcher := m |}.

(** [validateForm] of the order entry form: the errors it sets, by
    field, and its verdict. *)
Definition quantityError (currentOrder : OrderFormData.t) : bool :=
  String.eqb (OrderFormData.quantity currentOrder) EmptyString
  || match parseFloat (OrderFormData.quantity currentOrder) with
     | Some q => lez q
     | None => false
     end.

Definition priceError (currentOrder : OrderFormData.t) : bool :=
  isLimit (OrderFormData.type currentOrder)
  && (String.eqb (OrderFormData.price currentOrder) EmptyString
      || match parseFloat (OrderFormData.price currentOrder) with
         | Some p => lez p
         | None => false
         end).

Definition validateForm (currentOrder : OrderFormData.t) : bool :=
  negb (quantityError currentOrder) && negb (priceError currentOrder).

End StoreActions.

(** What the application does to the store and the engine. *)
Inductive Action : Type :=
| DoSubmitOrder (orderId : string) (time : Q) (now : nat -> Q)
    (orderData : OrderFormData.t)
| DoMessage (data : MessageData)
| DoSetOrderBook (ob : OrderBook.t)
| DoAddTrade (t : Trade.t)
| DoClearTrades
| DoSetConnection (connected : bool)
| DoSetOrderModalOpen (open : bool).

Definition act (parseFloat : string -> option Q) (a : Action) (w : World)
  : World :=
  match a with
  | DoSubmitOrder orderId time now orderData =>
      submitOrder parseFloat orderId time now orderData w
  | DoMessage data => {| appState := onMessage data (appState w); matcher := matcher w |}
  | DoSetOrderBook ob =>
      {| appState := setOrderBook ob (appState w); matcher := matcher w |}
  | DoAddTrade t => {| appState := addTrade t (appState w); matcher := matcher w |}
  | DoClearTrades => {| appState := clearTrades (appState w); matcher := matcher w |}
  | DoSetConnection c =>
      {| appState := setConnection c (appState w); matcher := matcher w |}
  | DoSetOrderModalOpen o =>
      {| appState := setOrderModalOpen o (appState w); matcher := matcher w |}
  end.

Fixpoint actAll (parseFloat : string -> option Q) (l : list Action)
    (w : World) : World :=
  match l with
  | [] => w
  | a :: rest => actAll parseFloat rest (act parseFloat a w)
  end.


(** A [parseFloat] for the examples: three numerals. *)
Definition parseSample (s : string) : option Q :=
  if String.eqb s "2" then Some 2
  else if String.eqb s "100" then Some 100
  else if String.eqb s "0" then Some 0
  else None.

(** ** The simulated feed ([src/lib/fakeSocket.ts]) *)

(** [x < y] on numbers. *)
Definition Qltb (x y : Q) : bool := negb (Qle_bool y x).

(** [Math.round]: the nearest integer, a half going up. *)
Definition mathRound (x : Q) : Q := inject_Z (Qfloor (x + (1 # 2))).

(** [Math.round(x * scale) / scale] *)
Definition roundTo (scale x : Q) : Q := mathRound (x * scale) / scale.

Module FakeSocketConfig.
Record t : Type := make
    { updateInterval : Q * Q;
      priceVolatility : Q;
      volumeRange : Q * Q;
      spreadRange : Q * Q }.

(** [Partial<FakeSocketConfig>] *)
Record partial : Type := makePartial
    { updateInterval' : option (Q * Q);
      priceVolatility' : option Q;
      volumeRange' : option (Q * Q);
      spreadRange' : option (Q * Q) }.

Definition orElse (A : Type) (new : option A) (old : A) : A :=
  match new with Some x => x | None => old end.

(** [{ ...config, ...newConfig }] *)
Definition merge (c : t) (newConfig : partial) : t :=
  {| updateInterval := orElse (updateInterval' newConfig) (updateInterval c);
     priceVolatility :=
       orElse (priceVolatility' newConfig) (priceVolatility c);
     volumeRange := orElse (volumeRange' newConfig) (volumeRange c);
     spreadRange := orElse (spreadRange' newConfig) (spreadRange c) |}.
End FakeSocketConfig.

Definition defaultConfig : FakeSocketConfig.t :=
  {| FakeSocketConfig.updateInterval := (300, 800);
     FakeSocketConfig.priceVolatility := 1 # 1000;
     FakeSocketConfig.volumeRange := (1 # 10, 5);
     FakeSocketConfig.spreadRange := (1 # 100, 5 # 100) |}.

Module WebSocketMessage.
Record t : Type := make
    { data : MessageData;
      timestamp : Q }.
End WebSocketMessage.

(** The timeouts of the host that are set and have not fired, each with
    its identifier and delay; identifiers are handed out in turn. *)
Record Timers : Type := mkTimers
  { pending : list (nat * Q);
    nextTimer : nat }.

Definition setTimeout (delay : Q) (tm : Timers) : nat * Timers :=
  (nextTimer tm,
   {| pending := pending tm ++ [(nextTimer tm, delay)];
      nextTimer := S (nextTimer tm) |}).

Definition clearTimeout (id : nat) (tm : Timers) : Timers :=
  {| pending := filter (fun t => negb (Nat.eqb (fst t) id)) (pending tm);
     nextTimer := nextTimer tm |}.

(** A browser numbers its timeouts from 1. *)
Definition noTimers : Timers := {| pending := []; nextTimer := 1 |}.

Module FakeSocket.

(** The object: subscribers are callbacks, known by their identity and
    held in the order they were added (a [Set]). *)
Record t : Type := make
    { subscribers : list nat;
      intervalId : option nat;
      isRunning : bool;
      config : FakeSocketConfig.t;
      currentPrice : Q;
      sequenceId : N }.

Definition set_subscribers (v : list nat) (fs : t) : t :=
  {| subscribers := v; intervalId := intervalId fs;
     isRunning := isRunning fs; config := config fs;
     currentPrice := currentPrice fs; sequenceId := sequenceId fs |}.

Definition set_intervalId (v : option nat) (fs : t) : t :=
  {| subscribers := subscribers fs; intervalId := v;
     isRunning := isRunning fs; config := config fs;
     currentPrice := currentPrice fs; sequenceId := sequenceId fs |}.

Definition set_isRunning (v : bool) (fs : t) : t :=
  {| subscribers := subscribers fs; intervalId := intervalId fs;
     isRunning := v; config := config fs;
     currentPrice := currentPrice fs; sequenceId := sequenceId fs |}.

Definition set_config (v : FakeSocketConfig.t) (fs : t) : t :=
  {| subscribers := subscribers fs; intervalId := intervalId fs;
     isRunning := isRunning fs; config := v;
     currentPrice := currentPrice fs; sequenceId := sequenceId fs |}.

Definition set_currentPrice (v : Q) (fs : t) : t :=
  {| subscribers := subscribers fs; intervalId := intervalId fs;
     isRunning := isRunning fs; config := config fs;
     currentPrice := v; sequenceId := sequenceId fs |}.

Definition set_sequenceId (v : N) (fs : t) : t :=
  {| subscribers := subscribers fs; intervalId := intervalId fs;
     isRunning := isRunning fs; config := config fs;
     currentPrice := currentPrice fs; sequenceId := v |}.

(** [new FakeSocket(config)] *)
Definition new (c : FakeSocketConfig.partial) : t :=
  {| subscribers := []; intervalId := None; isRunning := false;
     config := FakeSocketConfig.merge defaultConfig c;
     currentPrice := 50000; sequenceId := 0 |}.

(** [scheduleNextUpdate]: the timeout set replaces the identifier kept. *)
Definition scheduleNextUpdate (rand : nat -> Q) (k : nat) (s : t * Timers)
  : t * Timers :=
  let '(fs, tm) := s in
  if negb (isRunning fs) then (fs, tm)
  else
    let '(min, max) := FakeSocketConfig.updateInterval (config fs) in
    let delay := rand k * (max - min) + min in
    let '(id, tm) := setTimeout delay tm in
    (set_intervalId (Some id) fs, tm).

Definition start (rand : nat -> Q) (k : nat) (s : t * Timers)
  : t * Timers :=
  let '(fs, tm) := s in
  if isRunning fs then (fs, tm)
  else scheduleNextUpdate rand k (set_isRunning true fs, tm).

(** [stop]: [if (this.intervalId)] holds for an identifier other than 0. *)
Definition stop (s : t * Timers) : t * Timers :=
  let '(fs, tm) := s in
  let '(fs, tm) :=
    match intervalId fs with
    | Some id =>
        if Nat.eqb id 0 then (fs, tm)
        else (set_intervalId None fs, clearTimeout id tm)
    | None => (fs, tm)
    end in
  (set_isRunning false fs, tm).

(** [Set.add] and [Set.delete] *)
Definition setAdd (x : nat) (l : list nat) : list nat :=
  if existsb (Nat.eqb x) l then l else l ++ [x].

Definition setDelete (x : nat) (l : list nat) : list nat :=
  filter (fun y => negb (Nat.eqb y x)) l.

Definition subscribe (rand : nat -> Q) (k : nat) (callback : nat)
    (s : t * Timers) : t * Timers :=
  let '(fs, tm) := s in
  let fs := set_subscribers (setAdd callback (subscribers fs)) fs in
  if negb (isRunning fs) then start rand k (fs, tm) else (fs, tm).

(** The function [subscribe] returns. *)
Definition unsubscribe (callback : nat) (s : t * Timers) : t * Timers :=
  let '(fs, tm) := s in
  let fs := set_subscribers (setDelete callback (subscribers fs)) fs in
  if Nat.eqb (length (subscribers fs)) 0 && isRunning fs
  then stop (fs, tm) else (fs, tm).

Definition updateConfig (newConfig : FakeSocketConfig.partial) (fs : t)
  : t :=
  set_config (FakeSocketConfig.merge (config fs) newConfig) fs.

Definition getCurrentPrice (fs : t) : Q := currentPrice fs.

Definition setCurrentPrice (price : Q) (fs : t) : t :=
  set_currentPrice (Qmax 0 price) fs.

Definition getSubscriberCount (fs : t) : nat := length (subscribers fs).

Definition isActive (fs : t) : bool := isRunning fs.

(** The loop of [generateOrderBookSide]: [levels] rounds from the draw
    [k] on, three draws a round. *)
Fixpoint generateLevels (rand : nat -> Q) (side : Side)
    (thisCurrentPrice minVol maxVol : Q) (levels : nat) (k : nat)
    (currentPrice runningTotal : Q) : list OrderBookLevel.t :=
  match levels with
  | O => []
  | S levels =>
      let quantity := rand k * (maxVol - minVol) + minVol in
      let priceStep :=
        thisCurrentPrice
        * ((1 # 10000) + rand (k + 1)%nat * (5 # 10000)) in
      let currentPrice :=
        match side with
        | buy => currentPrice - priceStep
        | sell => currentPrice + priceStep
        end in
      let runningTotal := runningTotal + quantity in
      {| OrderBookLevel.price := roundTo 100 currentPrice;
         OrderBookLevel.quantity := roundTo 10000 quantity;
         OrderBookLevel.total := roundTo 10000 runningTotal;
         OrderBookLevel.count :=
           (Z.to_nat (Qfloor (rand (k + 2)%nat * 5)) + 1)%nat |}
      :: generateLevels rand side thisCurrentPrice minVol maxVol levels
           (k + 3) currentPrice runningTotal
  end.

Definition generateOrderBookSide (rand : nat -> Q) (k : nat) (side : Side)
    (startPrice : Q) (levels : nat) (fs : t) : list OrderBookLevel.t :=
  let '(minVol, maxVol) := FakeSocketConfig.volumeRange (config fs) in
  generateLevels rand side (currentPrice fs) minVol maxVol levels k
    startPrice 0.

(** [generateOrderBookUpdate], with the book it broadcasts: two draws,
    then sixty for each side. *)
Definition generateOrderBookUpdate (rand : nat -> Q) (k : nat) (fs : t)
  : OrderBook.t * t :=
  let priceChange :=
    (rand k - (1 # 2)) * currentPrice fs
    * FakeSocketConfig.priceVolatility (config fs) in
  let fs := set_currentPrice (Qmax 1000 (currentPrice fs + priceChange)) fs in
  let '(minSpread, maxSpread) := FakeSocketConfig.spreadRange (config fs) in
  let spreadPercent :=
    rand (k + 1)%nat * (maxSpread - minSpread) + minSpread in
  let spread := currentPrice fs * spreadPercent in
  let midPrice := currentPrice fs in
  let bids :=
    generateOrderBookSide rand (k + 2) buy (midPrice - spread / 2) 20 fs in
  let asks :=
    generateOrderBookSide rand (k + 62) sell (midPrice + spread / 2) 20 fs in
  ({| OrderBook.bids := bids; OrderBook.asks := asks;
      OrderBook.midPrice := midPrice; OrderBook.spread := spread |}, fs).

(** [generateTradeUpdate], with the trade it broadcasts: three draws. *)
Definition generateTradeUpdate (rand : nat -> Q) (now : nat -> Q) (k : nat)
    (fs : t) : Trade.t * t :=
  let side := if Qltb (1 # 2) (rand k) then buy else sell in
  let '(minVol, maxVol) := FakeSocketConfig.volumeRange (config fs) in
  let quantity := rand (k + 1)%nat * (maxVol - minVol) + minVol in
  let priceVariation := currentPrice fs * (5 # 10000) in
  let tradePrice :=
    currentPrice fs + (rand (k + 2)%nat - (1 # 2)) * priceVariation in
  ({| Trade.id := tradeId (sequenceId fs);
      Trade.price := roundTo 100 tradePrice;
      Trade.quantity := roundTo 10000 quantity;
      Trade.side := side;
      Trade.timestamp := now 0%nat;
      Trade.buyer := None; Trade.seller := None |},
   set_sequenceId (sequenceId fs + 1) fs).

(** [generateUpdate]: the message broadcast, the socket after it and the
    number of the next draw. *)
Definition generateUpdate (rand : nat -> Q) (now : nat -> Q) (k : nat)
    (fs : t) : WebSocketMessage.t * t * nat :=
  let updateType := rand k in
  if Qltb updateType (8 # 10) then
    let '(orderBook, fs) := generateOrderBookUpdate rand (k + 1) fs in
    ({| WebSocketMessage.data := OrderBookData orderBook;
        WebSocketMessage.timestamp := now 0%nat |}, fs, (k + 123)%nat)
  else
    let '(trade, fs) := generateTradeUpdate rand now (k + 1) fs in
    ({| WebSocketMessage.data := TradeData trade;
        WebSocketMessage.timestamp := now 1%nat |}, fs, (k + 4)%nat).

(** The timeout [id] fires: the host drops it from its table and runs the
    function [scheduleNextUpdate] gave it.  Nothing happens for an
    identifier that is not pending. *)
Definition timerFires (rand : nat -> Q) (now : nat -> Q) (id : nat)
    (s : t * Timers) : option (WebSocketMessage.t * (t * Timers)) :=
  let '(fs, tm) := s in
  if existsb (fun t => Nat.eqb (fst t) id) (pending tm) then
    let tm := clearTimeout id tm in
    let '(message, fs, k) := generateUpdate rand now 0 fs in
    Some (message, scheduleNextUpdate rand k (fs, tm))
  else None.

End FakeSocket.

(** The singleton [fakeSocket] before anything has run. *)
Definition fakeSocket : FakeSocket.t * Timers :=
  (FakeSocket.new
     {| FakeSocketConfig.updateInterval' := None;
        FakeSocketConfig.priceVolatility' := None;
        FakeSocketConfig.volumeRange' := None;
        FakeSocketConfig.spreadRange' := None |},
   noTimers).

(** What can happen to the socket, and its life as a list of events. *)
Inductive SocketEvent : Type :=
| EvSubscribe (rand : nat -> Q) (callback : nat)
| EvUnsubscribe (callback : nat)
| EvStart (rand : nat -> Q)
| EvStop
| EvUpdateConfig (newConfig : FakeSocketConfig.partial)
| EvSetCurrentPrice (price : Q)
| EvTimer (rand : nat -> Q) (now : nat -> Q) (id : nat).

Definition socketEvent (e : SocketEvent) (s : FakeSocket.t * Timers)
  : FakeSocket.t * Timers :=
  match e with
  | EvSubscribe rand callback => FakeSocket.subscribe rand 0 callback s
  | EvUnsubscribe callback => FakeSocket.unsubscribe callback s
  | EvStart rand => FakeSocket.start rand 0 s
  | EvStop => FakeSocket.stop s
  | EvUpdateConfig newConfig =>
      (FakeSocket.updateConfig newConfig (fst s), snd s)
  | EvSetCurrentPrice price =>
      (FakeSocket.setCurrentPrice price (fst s), snd s)
  | EvTimer rand now id =>
      match FakeSocket.timerFires rand now id s with
      | Some (_, s') => s'
      | None => s
      end
  end.

Definition socketLife (events : list SocketEvent)
    (s : FakeSocket.t * Timers) : FakeSocket.t * Timers :=
  fold_left (fun s e => socketEvent e s) events s.

(** The messages a life of the socket broadcasts, in order. *)
Fixpoint socketMessages (events : list SocketEvent)
    (s : FakeSocket.t * Timers) : list WebSocketMessage.t :=
  match events with
  | [] => []
  | e :: rest =>
      match e with
      | EvTimer rand now id =>
          match FakeSocket.timerFires rand now id s with
          | Some (m, _) => [m]
          | None => []
          end
      | _ => []
      end ++ socketMessages rest (socketEvent e s)
  end.



(** Whether one timeout is pending and it is the one the socket keeps. *)
Definition oneTimer (s : FakeSocket.t * Timers) : Prop :=
  exists id delay,
    FakeSocket.intervalId (fst s) = Some id
    /\ pending (snd s) = [(id, delay)]
    /\ (0 < id < nextTimer (snd s))%nat.

(** ** What the components draw ([components/OrderBook.tsx],
    [components/DepthChart.tsx]) *)

(** [Math.max(...xs, 0)] *)
Definition maxOr0 (xs : list Q) : Q := fold_right Qmax 0 xs.





(** The trades among the messages of the feed. *)
Definition messageTrades (ms : list WebSocketMessage.t) : list Trade.t :=
  flat_map (fun m => match WebSocketMessage.data m with
                     | TradeData t => [t]
                     | _ => []
                     end) ms.

(** The socket keeps to one timeout: none while it is stopped, and while
    it runs the one whose identifier it holds. *)
Definition timerDiscipline (s : FakeSocket.t * Timers) : Prop :=
  (0 < nextTimer (snd s))%nat
  /\ NoDup (FakeSocket.subscribers (fst s))
  /\ if FakeSocket.isRunning (fst s) then oneTimer s
     else pending (snd s) = [].

(** ** Pause and resume ([togglePause] of the store) *)

(** The store and the engine with the feed singleton. *)
Record App : Type := mkApp
  { world : World;
    feed : FakeSocket.t * Timers }.

Definition setPaused (paused : bool) (s : AppState.t) : AppState.t :=
  {| AppState.orderBook := AppState.orderBook s;
     AppState.trades := AppState.trades s;
     AppState.isConnected := AppState.isConnected s;
     AppState.isPaused := paused;
     AppState.currentOrder := AppState.currentOrder s;
     AppState.isOrderModalOpen := AppState.isOrderModalOpen s |}.

Definition togglePause (rand : nat -> Q) (a : App) : App :=
  let isPaused := AppState.isPaused (appState (world a)) in
  let w := {| appState := setPaused (negb isPaused) (appState (world a));
              matcher := matcher (world a) |} in
  if isPaused
  then {| world := w; feed := FakeSocket.start rand 0 (feed a) |}
  else {| world := w; feed := FakeSocket.stop (feed a) |}.

(** ** Concrete draws, forms and lives for the examples *)

Definition halfDraws : nat -> Q := fun _ => 1 # 2.

Definition highDraws : nat -> Q := fun _ => 9 # 10.

(** A limit buy of 2 at 100, and a limit sell of 2 at 100, as typed. *)
Definition buyForm : OrderFormData.t :=
  {| OrderFormData.side := buy; OrderFormData.type := limit;
     OrderFormData.price := "100"; OrderFormData.quantity := "2" |}.


(** A subscription, then the timeout it set fires with a trade. *)
Definition tradeLife : list SocketEvent :=
  [EvSubscribe halfDraws 7; EvTimer highDraws epoch 1].

(** A sell rests, a buy trades against it. *)
Definition tradeCalls : list Call :=
  [CallAddOrder epoch (limitOrder "s" sell 100 2);
   CallAddOrder epoch (limitOrder "b" buy 100 2)].

(** ** Further vocabulary: eligibility and a book with a tie *)



(** A life with a [clear] in it: a sell rests, a buy trades against it,
    the engine is cleared, a second sell rests, a second buy trades
    against it. *)
Definition clearCalls : list Call :=
  [CallAddOrder epoch (limitOrder "s1" sell 100 2);
   CallAddOrder epoch (limitOrder "b1" buy 100 1);
   CallClear;
   CallAddOrder epoch (limitOrder "s2" sell 100 1);
   CallAddOrder epoch (limitOrder "b2" buy 100 1)].

(** ** Further vocabulary: the levels of the book *)




(** The resting orders of side [s]. *)
Definition onSide (st : OrderMatcher) (s : Side) (r : ref) : bool :=
  Side_eqb (Order.side (heap st r)) s.

(** ** Further concrete stores *)

(** A trade of 1 at 100 with the sequence number [n]. *)
Definition numberedTrade (n : N) : Trade.t :=
  Trade.make (tradeId n) 100 1 buy 0 None None.

(** A store that was handed the trades 0 to 99, one after the other: its
    list is full, with trade 99 in front. *)
Definition fullWorld : World :=
  actAll parseSample
    (map (fun n => DoAddTrade (numberedTrade n)) (seqN 0 100))
    initialWorld.

(** Trade 100 is added, and trade 101 comes in as a message of the
    feed. *)
Definition moreTrades : list Action :=
  [DoAddTrade (numberedTrade 100);
   DoMessage (TradeData (numberedTrade 101))].

(** * The engine on IEEE doubles

    The same engine with every JavaScript [number] a binary64 value
    ([PrimFloat.float]): subtraction rounds to the nearest double,
    [Infinity - Infinity] is NaN and a comparison with NaN is false.
    What the specification says about the quantities the engine
    computes is settled here. *)

Module Dbl.
Import PrimFloat.

Module Order.
Record t : Set := make
    { id : string;
      price : float;
      quantity : float;
      side : Side;
      type : OrderType;
      timestamp : float }.

(** [{ ...order, quantity: q }] *)
Definition with_quantity (o : t) (q : float) : t :=
  {| id := id o; price := price o; quantity := q;
     side := side o; type := type o; timestamp := timestamp o |}.
End Order.

Module Trade.
Record t : Set := make
    { id : string;
      price : float;
      quantity : float;
      side : Side;
      timestamp : float;
      buyer : option string;
      seller : option string }.
End Trade.

Definition Heap := ref -> Order.t.

Definition store (h : Heap) (r : ref) (o : Order.t) : Heap :=
  fun r' => if Nat.eqb r' r then o else h r'.

Record OrderMatcher : Type := mkOrderMatcher
  { heap : Heap;
    fresh : ref;
    orders : list ref;
    trades : list Trade.t;
    sequenceId : N }.

Definition set_heap (st : OrderMatcher) (h : Heap) : OrderMatcher :=
  {| heap := h; fresh := fresh st; orders := orders st;
     trades := trades st; sequenceId := sequenceId st |}.

Definition set_orders (st : OrderMatcher) (l : list ref) : OrderMatcher :=
  {| heap := heap st; fresh := fresh st; orders := l;
     trades := trades st; sequenceId := sequenceId st |}.

Definition set_trades (st : OrderMatcher) (l : list Trade.t) : OrderMatcher :=
  {| heap := heap st; fresh := fresh st; orders := orders st;
     trades := l; sequenceId := sequenceId st |}.

Definition set_sequenceId (st : OrderMatcher) (n : N) : OrderMatcher :=
  {| heap := heap st; fresh := fresh st; orders := orders st;
     trades := trades st; sequenceId := n |}.

Definition alloc (st : OrderMatcher) (o : Order.t) : ref * OrderMatcher :=
  (fresh st,
   {| heap := store (heap st) (fresh st) o; fresh := S (fresh st);
      orders := orders st; trades := trades st;
      sequenceId := sequenceId st |}).

Definition dummyOrder : Order.t :=
  Order.make EmptyString zero zero buy limit zero.

(** [new OrderMatcher()] *)
Definition newOrderMatcher : OrderMatcher :=
  {| heap := fun _ => dummyOrder; fresh := 0%nat; orders := [];
     trades := []; sequenceId := 0%N |}.

(** [x <= 0] and [x > 0]: both false of NaN. *)
Definition lez (x : float) : bool := leb x zero.
Definition gtz (x : float) : bool := ltb zero x.

(** [Math.min(a, b)]: NaN when either is NaN, and -0 below +0. *)
Definition mathMin (a b : float) : float :=
  if is_nan a || is_nan b then nan
  else if ltb a b then a
  else if ltb b a then b
  else if get_sign a then a else b.

(** [Array.prototype.sort(compareFn)]: a stable sort; [a] stays before
    [b] unless [compareFn(a, b) > 0], a NaN result counting as 0.  Where
    the comparator is not consistent (a NaN price) the language leaves the
    order to the implementation; this is one such order.  What is proved
    of quantities below holds of the loop on any list of resting orders,
    whatever their order. *)
Section Sort.
Variable A : Type.
Variable compareFn : A -> A -> float.

Fixpoint sort_insert (x : A) (l : list A) : list A :=
  match l with
  | [] => [x]
  | y :: l' =>
      if gtz (compareFn x y) then y :: sort_insert x l'
      else x :: y :: l'
  end.

Fixpoint sort (l : list A) : list A :=
  match l with
  | [] => []
  | x :: l' => sort_insert x (sort l')
  end.
End Sort.

(** The comparator both matchers hand to [sort]. *)
Definition priceCompare (h : Heap) (s : Side) (a b : ref) : float :=
  match s with
  | buy => sub (Order.price (h a)) (Order.price (h b))
  | sell => sub (Order.price (h b)) (Order.price (h a))
  end.

(** [this.orders.filter(o => o.side === opposingSide).sort(...)] *)
Definition marketOpposingOrders (order : Order.t) (st : OrderMatcher)
  : list ref :=
  sort (priceCompare (heap st) (Order.side order))
    (filter (fun o => Side_eqb (Order.side (heap st o))
                        (opposingSideOf (Order.side order)))
       (orders st)).

(** The filter callback of [matchLimitOrder]. *)
Definition limitEligible (h : Heap) (order : Order.t) (o : ref) : bool :=
  if negb (Side_eqb (Order.side (h o)) (opposingSideOf (Order.side order)))
  then false
  else match Order.side order with
       | buy => leb (Order.price (h o)) (Order.price order)
       | sell => leb (Order.price order) (Order.price (h o))
       end.

Definition limitOpposingOrders (order : Order.t) (st : OrderMatcher)
  : list ref :=
  sort (priceCompare (heap st) (Order.side order))
    (filter (limitEligible (heap st) order) (orders st)).

(** The trade record built in the loop body. *)
Definition mkTrade (order opposingOrder : Order.t) (seq : N)
    (tradeQuantity : float) (time : float) : Trade.t :=
  {| Trade.id := tradeId seq;
     Trade.price := Order.price opposingOrder;
     Trade.quantity := tradeQuantity;
     Trade.side := Order.side order;
     Trade.timestamp := time;
     Trade.buyer :=
       Some (match Order.side order with
             | buy => Order.id order
             | sell => Order.id opposingOrder
             end);
     Trade.seller :=
       Some (match Order.side order with
             | sell => Order.id order
             | buy => Order.id opposingOrder
             end) |}.

(** [this.orders = this.orders.filter(o => o.id !== opposingOrder.id)] *)
Definition removeById (h : Heap) (orderId : string) (l : list ref)
  : list ref :=
  filter (fun o => negb (String.eqb (Order.id (h o)) orderId)) l.

(** One pass through the body of [for (const opposingOrder of
    opposingOrders)], after the [break] test. *)
Definition matchStep (now : nat -> float) (order : Order.t) (r : ref)
    (remainingQuantity : float) (newTrades : list Trade.t)
    (st : OrderMatcher) : float * list Trade.t * OrderMatcher :=
  let opposingOrder := heap st r in
  let tradeQuantity :=
    mathMin remainingQuantity (Order.quantity opposingOrder) in
  let trade :=
    mkTrade order opposingOrder (sequenceId st) tradeQuantity
      (now (length newTrades)) in
  let st := set_sequenceId st (sequenceId st + 1) in
  let newTrades := newTrades ++ [trade] in
  let remainingQuantity := sub remainingQuantity tradeQuantity in
  let st :=
    set_heap st
      (store (heap st) r
         (Order.with_quantity opposingOrder
            (sub (Order.quantity opposingOrder) tradeQuantity))) in
  let st :=
    if lez (Order.quantity (heap st r))
    then set_orders st
           (removeById (heap st) (Order.id (heap st r)) (orders st))
    else st in
  (remainingQuantity, newTrades, st).

(** The [for ... of] loop, the same text in both matchers. *)
Fixpoint matchLoop (now : nat -> float) (order : Order.t)
    (opposingOrders : list ref) (remainingQuantity : float)
    (newTrades : list Trade.t) (st : OrderMatcher)
  : float * list Trade.t * OrderMatcher :=
  match opposingOrders with
  | [] => (remainingQuantity, newTrades, st)
  | r :: rest =>
      if lez remainingQuantity then (remainingQuantity, newTrades, st)
      else
        let '(remainingQuantity, newTrades, st) :=
          matchStep now order r remainingQuantity newTrades st in
        matchLoop now order rest remainingQuantity newTrades st
  end.

Definition matchMarketOrder (now : nat -> float) (order : Order.t)
    (newTrades : list Trade.t) (st : OrderMatcher)
  : option ref * list Trade.t * OrderMatcher :=
  let opposingOrders := marketOpposingOrders order st in
  let '(remainingQuantity, newTrades, st) :=
    matchLoop now order opposingOrders (Order.quantity order) newTrades st in
  ((if gtz remainingQuantity then None else None), newTrades, st).

Definition matchLimitOrder (now : nat -> float) (order : Order.t)
    (newTrades : list Trade.t) (st : OrderMatcher)
  : option ref * list Trade.t * OrderMatcher :=
  let opposingOrders := limitOpposingOrders order st in
  let '(remainingQuantity, newTrades, st) :=
    matchLoop now order opposingOrders (Order.quantity order) newTrades st in
  if gtz remainingQuantity then
    let '(r, st) := alloc st (Order.with_quantity order remainingQuantity) in
    (Some r, newTrades, st)
  else (None, newTrades, st).

(** [addOrder(order)] *)
Definition addOrder (now : nat -> float) (order : Order.t)
    (st : OrderMatcher) : (list Trade.t * option ref) * OrderMatcher :=
  let '(remainingOrder, newTrades, st) :=
    match Order.type order with
    | market => matchMarketOrder now order [] st
    | limit => matchLimitOrder now order [] st
    end in
  let st :=
    match remainingOrder with
    | Some r =>
        if gtz (Order.quantity (heap st r))
        then set_orders st (orders st ++ [r])
        else st
    | None => st
    end in
  let st := set_trades st (trades st ++ newTrades) in
  ((newTrades, remainingOrder), st).

(** [getOrders()], by value. *)
Definition getOrders (st : OrderMatcher) : list Order.t :=
  map (heap st) (orders st).

(** [removeOrder(orderId)] *)
Definition removeOrder (orderId : string) (st : OrderMatcher)
  : bool * OrderMatcher :=
  let initialLength := length (orders st) in
  let st := set_orders st (removeById (heap st) orderId (orders st)) in
  (Nat.ltb (length (orders st)) initialLength, st).

(** [clear()] *)
Definition clear (st : OrderMatcher) : OrderMatcher :=
  set_trades (set_orders st []) [].

(** The list the loop of a call walks. *)
Definition opposingOrders (order : Order.t) (st : OrderMatcher) : list ref :=
  match Order.type order with
  | market => marketOpposingOrders order st
  | limit => limitOpposingOrders order st
  end.

(** The calls that write the engine ([getOrderBook], [getTrades] and
    [getOrders] only read it), and an engine's life as a list of them. *)
Inductive Call : Type :=
| CallAddOrder (now : nat -> float) (order : Order.t)
| CallRemoveOrder (orderId : string)
| CallClear.

Definition call (c : Call) (st : OrderMatcher) : OrderMatcher :=
  match c with
  | CallAddOrder now order => snd (addOrder now order st)
  | CallRemoveOrder orderId => snd (removeOrder orderId st)
  | CallClear => clear st
  end.

(** The trades a call creates, each paired with the reference of the
    resting order the loop was visiting when it created it. *)
Definition callFills (c : Call) (st : OrderMatcher) : list (ref * Trade.t) :=
  match c with
  | CallAddOrder now order =>
      combine (opposingOrders order st) (fst (fst (addOrder now order st)))
  | _ => []
  end.

Fixpoint run (calls : list Call) (st : OrderMatcher) : OrderMatcher :=
  match calls with
  | [] => st
  | c :: rest => run rest (call c st)
  end.

Fixpoint runFills (calls : list Call) (st : OrderMatcher)
  : list (ref * Trade.t) :=
  match calls with
  | [] => []
  | c :: rest => callFills c st ++ runFills rest (call c st)
  end.

Inductive reachable : OrderMatcher -> Prop :=
| reachable_new : reachable newOrderMatcher
| reachable_call : forall c st, reachable st -> reachable (call c st).

(** The value of a finite double as a whole number of units of 2^-1074,
    the spacing of the smallest doubles; 0 for NaN and the infinities. *)
Definition units (x : float) : Z :=
  match FloatOps.Prim2SF x with
  | SpecFloat.S754_finite s m e =>
      SpecFloat.cond_Zopp s (Z.pos m * 2 ^ (e + 1074))
  | _ => 0%Z
  end.

(** Total of the trades made against the object [r], in those units. *)
Definition tradedAgainst (r : ref) (fills : list (ref * Trade.t)) : Z :=
  fold_right Z.add 0%Z
    (map (fun p => units (Trade.quantity (snd p)))
       (filter (fun p => Nat.eqb (fst p) r) fills)).

(** Neither NaN nor an infinity. *)
Definition finite (x : float) : bool :=
  match FloatOps.Prim2SF x with
  | SpecFloat.S754_zero _ | SpecFloat.S754_finite _ _ _ => true
  | _ => false
  end.

(** The subtraction [q - t] does not round: both operands and the result
    are finite and the result is the exact difference. *)
Definition exactSub (q t : float) : Prop :=
  finite q = true /\ finite t = true /\ finite (sub q t) = true
  /\ units (sub q t) = (units q - units t)%Z.

(** Every subtraction a loop, a call, a life makes from the quantity of
    the object [r] is exact. *)
Fixpoint loopExact (r : ref) (now : nat -> float) (order : Order.t)
    (opposingOrders : list ref) (remainingQuantity : float)
    (newTrades : list Trade.t) (st : OrderMatcher) : Prop :=
  match opposingOrders with
  | [] => True
  | x :: rest =>
      if lez remainingQuantity then True
      else
        (x = r ->
         exactSub (Order.quantity (heap st r))
           (mathMin remainingQuantity (Order.quantity (heap st r))))
        /\ let '(remainingQuantity, newTrades, st) :=
             matchStep now order x remainingQuantity newTrades st in
           loopExact r now order rest remainingQuantity newTrades st
  end.

Definition callExact (r : ref) (c : Call) (st : OrderMatcher) : Prop :=
  match c with
  | CallAddOrder now order =>
      loopExact r now order (opposingOrders order st)
        (Order.quantity order) [] st
  | _ => True
  end.

Fixpoint runExact (r : ref) (calls : list Call) (st : OrderMatcher)
  : Prop :=
  match calls with
  | [] => True
  | c :: rest => callExact r c st /\ runExact r rest (call c st)
  end.

Definition allocated (st : OrderMatcher) : Prop :=
  Forall (fun r => (r < fresh st)%nat) (orders st).

(** No resting order has a quantity that is [<= 0]. *)
Definition resting_not_nonpositive (st : OrderMatcher) : Prop :=
  Forall (fun r => lez (Order.quantity (heap st r)) = false) (orders st).

(** Whether [addOrder] leaves a remainder resting, given what the loop
    left unmatched. *)
Definition rests (order : Order.t) (remainingQuantity : float) : bool :=
  match Order.type order with
  | market => false
  | limit => gtz remainingQuantity
  end.

(** Every order object made so far has a quantity that is [P]. *)
Definition heapOf (P : float -> Prop) (st : OrderMatcher) : Prop :=
  forall r, (r < fresh st)%nat -> P (Order.quantity (heap st r)).

(** A finite quantity at or above zero. *)
Definition amount (x : float) : Prop :=
  finite x = true /\ (0 <= units x)%Z.

(** A quantity on the grid of step [2^g] units: a whole multiple of the
    step, at or above zero and below [2^53] steps.  With [g = 1074] these
    are the whole numbers below [2^53]. *)
Definition onGrid (g : Z) (x : float) : Prop :=
  finite x = true
  /\ (0 <= units x < 2 ^ (53 + g))%Z
  /\ (2 ^ g | units x)%Z.

(** A call that hands the engine a finite quantity, a quantity on the
    grid. *)
Definition finiteCall (c : Call) : Prop :=
  match c with
  | CallAddOrder _ order => finite (Order.quantity order) = true
  | _ => True
  end.

Definition gridCall (g : Z) (c : Call) : Prop :=
  match c with
  | CallAddOrder _ order => onGrid g (Order.quantity order)
  | _ => True
  end.

(** A clock that stands still. *)
Definition epoch : nat -> float := fun _ => zero.

Definition limitOrder (i : string) (s : Side) (p q : float) : Order.t :=
  Order.make i p q s limit zero.

Definition marketOrder (i : string) (s : Side) (q : float) : Order.t :=
  Order.make i zero q s market zero.

(** 2^-60: less than half the spacing of the doubles just below 1. *)
Definition tiny : float := 0x1p-60%float.

(** The book after a sell of 1 at 100 has come to rest, as object 0. *)
Definition restingOne : OrderMatcher :=
  call (CallAddOrder epoch (limitOrder "s" sell 100 1)) newOrderMatcher.

(** A buy of 2^-60 and then a buy of 1, both at 100. *)
Definition absorbedCalls : list Call :=
  [CallAddOrder epoch (limitOrder "b1" buy 100 tiny);
   CallAddOrder epoch (limitOrder "b2" buy 100 1)].

(** A sell of 4 at 100, which comes to rest as object 0 of a new
    engine. *)
Definition wholeOpening : list Call :=
  [CallAddOrder epoch (limitOrder "s" sell 100 4)].

Definition restingFour : OrderMatcher := run wholeOpening newOrderMatcher.

(** A buy of 1 at 100, a market buy of 2, a cancellation of an order that
    is not there, and a buy of 3 at 101. *)
Definition wholeCalls : list Call :=
  [CallAddOrder epoch (limitOrder "b1" buy 100 1);
   CallAddOrder epoch (marketOrder "b2" buy 2);
   CallRemoveOrder "nobody";
   CallAddOrder epoch (limitOrder "b3" buy 101 3)].

(** The book after a sell of Infinity at 100 has come to rest, as
    object 0; and a buy of Infinity at 100. *)
Definition restingInfinity : OrderMatcher :=
  call (CallAddOrder epoch (limitOrder "s" sell 100 infinity))
    newOrderMatcher.

Definition infiniteBuy : Order.t := limitOrder "b" buy 100 infinity.

End Dbl.

(** The test of the exponent against the largest one, decided. *)
Ltac leb_true :=
  try change (IntDef.Z.sub FloatOps.emax FloatOps.prec) with 971%Z;
  try change (IntDef.Z.leb ?a ?b) with (a <=? b)%Z;
  match goal with
  | |- context [(?x <=? 971)%Z] =>
      replace (x <=? 971)%Z with true by (symmetry; apply Z.leb_le; lia)
  end.


(** * Verification *)

(** ** Booleans of the model against the order on [Q] *)

Lemma lez_true (x : Q) : lez x = true <-> x <= 0.
Proof. unfold lez. apply Qle_bool_iff. Qed.

Lemma lez_false (x : Q) : lez x = false <-> 0 < x.
Proof.
  unfold lez. split; intro H.
  - apply Qnot_le_lt. intro Hle. apply Qle_bool_iff in Hle. congruence.
  - destruct (Qle_bool x 0) eqn:E; [|reflexivity].
    apply Qle_bool_iff in E. lra.
Qed.

Lemma gtz_true (x : Q) : gtz x = true <-> 0 < x.
Proof.
  unfold gtz. rewrite negb_true_iff. apply lez_false.
Qed.

Lemma gtz_false (x : Q) : gtz x = false <-> x <= 0.
Proof.
  unfold gtz. rewrite negb_false_iff. apply lez_true.
Qed.



Lemma Qmin_cases (x y : Q) :
  (x <= y /\ Qmin x y = x) \/ (y < x /\ Qmin x y = y).
Proof.
  unfold Qmin, GenericMinMax.gmin.
  destruct (x ?= y) eqn:E.
  - left. split; [apply Qeq_alt in E; lra | reflexivity].
  - left. split; [apply Qlt_alt in E; lra | reflexivity].
  - right. split; [apply Qgt_alt in E; lra | reflexivity].
Qed.

(** ** The stable sort *)

Section SortFacts.
Variable A : Type.
Variable compareFn : A -> A -> Q.

Lemma sort_insert_perm (x : A) (l : list A) :
    Permutation (sort_insert compareFn x l) (x :: l).
Proof.
    induction l as [|y l IH]; simpl.
    - apply Permutation_refl.
    - destruct (Qle_bool (compareFn x y) 0).
      + apply Permutation_refl.
      + eapply perm_trans; [apply perm_skip, IH | apply perm_swap].
Qed.

Lemma sort_perm (l : list A) : Permutation (sort compareFn l) l.
Proof.
    induction l as [|x l IH]; simpl.
    - constructor.
    - eapply perm_trans; [apply sort_insert_perm | apply perm_skip, IH].
Qed.

  (** Stability: a class of elements the comparator does not tell apart
      keeps its order. *)
Section Stable.
Variable f : A -> bool.
Hypothesis f_class :
      forall a b, f a = true -> f b = true -> compareFn a b <= 0.


End Stable.

  (** Sortedness, for a comparator that is a difference of keys. *)
Section Keyed.
Variable key : A -> Q.
Hypothesis compare_key : forall a b, compareFn a b == key a - key b.


End Keyed.
End SortFacts.

(** Sorting references and sorting the values they point to agree. *)
Lemma map_sort_insert (A B : Type) (g : A -> B) (cA : A -> A -> Q)
    (cB : B -> B -> Q) (x : A) (l : list A) :
  (forall a b, cA a b = cB (g a) (g b)) ->
  map g (sort_insert cA x l) = sort_insert cB (g x) (map g l).
Proof.
  intros Hc. induction l as [|y l IH]; [reflexivity|].
  simpl. rewrite <- Hc. destruct (Qle_bool (cA x y) 0); simpl.
  - reflexivity.
  - now rewrite IH.
Qed.

Lemma map_sort (A B : Type) (g : A -> B) (cA : A -> A -> Q)
    (cB : B -> B -> Q) (l : list A) :
  (forall a b, cA a b = cB (g a) (g b)) ->
  map g (sort cA l) = sort cB (map g l).
Proof.
  intros Hc. induction l as [|x l IH]; [reflexivity|].
  simpl. rewrite <- IH. now apply map_sort_insert.
Qed.

Lemma map_filter_comm (A B : Type) (g : A -> B) (p : B -> bool)
    (l : list A) :
  map g (filter (fun a => p (g a)) l) = filter p (map g l).
Proof.
  induction l as [|x l IH]; [reflexivity|].
  simpl. destruct (p (g x)); simpl; now rewrite IH.
Qed.

(** ** The store *)

Lemma store_same (h : Heap) (r : ref) (o : Order.t) : store h r o r = o.
Proof. unfold store. now rewrite Nat.eqb_refl. Qed.

Lemma store_other (h : Heap) (r r' : ref) (o : Order.t) :
  r' <> r -> store h r o r' = h r'.
Proof.
  intros Hne. unfold store.
  destruct (Nat.eqb r' r) eqn:E; [apply Nat.eqb_eq in E; contradiction|].
  reflexivity.
Qed.

Lemma static_store_quantity (h : Heap) (r : ref) (q : Q) (r' : ref) :
  static (store h r (Order.with_quantity (h r) q) r') = static (h r').
Proof.
  unfold store. destruct (Nat.eqb r' r) eqn:E; [|reflexivity].
  apply Nat.eqb_eq in E. now subst.
Qed.

Lemma static_fields (o o' : Order.t) :
  static o = static o' ->
  Order.id o = Order.id o' /\ Order.price o = Order.price o' /\
  Order.side o = Order.side o' /\ Order.type o = Order.type o' /\
  Order.timestamp o = Order.timestamp o'.
Proof.
  unfold static, Order.with_quantity. intros H. now inversion H.
Qed.

Lemma removeById_static (h h' : Heap) (orderId : string) (l : list ref) :
  (forall r, static (h' r) = static (h r)) ->
  removeById h' orderId l = removeById h orderId l.
Proof.
  intros Hs. unfold removeById. apply filter_ext. intros r.
  destruct (static_fields (Hs r)) as [-> _]. reflexivity.
Qed.

(** ** One step of the loop *)

Lemma matchStep_spec (now : nat -> Q) (order : Order.t) (r : ref) (rem : Q)
    (acc : list Trade.t) (st : OrderMatcher) :
  let q := Order.quantity (heap st r) in
  let tq := Qmin rem q in
  exists st1,
    matchStep now order r rem acc st
    = (rem - tq,
       acc ++ [mkTrade order (heap st r) (sequenceId st) tq
                 (now (length acc))],
       st1)
    /\ heap st1 = store (heap st) r (Order.with_quantity (heap st r) (q - tq))
    /\ fresh st1 = fresh st
    /\ trades st1 = trades st
    /\ sequenceId st1 = (sequenceId st + 1)%N
    /\ orders st1
       = if lez (q - tq)
         then removeById (heap st) (Order.id (heap st r)) (orders st)
         else orders st.
Proof.
  intros q tq. unfold matchStep. cbn [heap set_heap set_sequenceId orders].
  rewrite store_same. cbn [Order.quantity Order.with_quantity Order.id].
  fold q. fold tq.
  destruct (lez (q - tq)) eqn:E; eexists; repeat split.
  cbn [orders set_orders heap].
  apply removeById_static. intros r'. apply static_store_quantity.
Qed.

(** ** The loop: shape of its result *)

Lemma filter_twice (A : Type) (f g : A -> bool) (l : list A) :
  filter g (filter f l) = filter (fun x => f x && g x) l.
Proof.
  induction l as [|x l IH]; [reflexivity|].
  simpl. destruct (f x); simpl; [destruct (g x)|]; now rewrite IH.
Qed.

Lemma filter_all (A : Type) (l : list A) : l = filter (fun _ => true) l.
Proof.
  induction l as [|x l IH]; [reflexivity|]. simpl. now rewrite <- IH.
Qed.

Lemma matchLoop_break (now : nat -> Q) (order : Order.t) (opp : list ref)
    (rem : Q) (acc : list Trade.t) (st : OrderMatcher) :
  rem <= 0 -> matchLoop now order opp rem acc st = (rem, acc, st).
Proof.
  intros H. apply lez_true in H.
  destruct opp; simpl; [reflexivity | now rewrite H].
Qed.

Lemma matchLoop_cons (now : nat -> Q) (order : Order.t) (r : ref)
    (rest : list ref) (rem : Q) (acc : list Trade.t) (st : OrderMatcher) :
  matchLoop now order (r :: rest) rem acc st
  = if lez rem then (rem, acc, st)
    else let '(rem1, acc1, st1) := matchStep now order r rem acc st in
         matchLoop now order rest rem1 acc1 st1.
Proof. reflexivity. Qed.

Lemma seqN_S (s : N) (n : nat) : seqN s (S n) = s :: seqN (s + 1) n.
Proof.
  unfold seqN. simpl. rewrite N.add_0_r. f_equal.
  rewrite <- seq_shift, map_map. apply map_ext. intros i. lia.
Qed.

Lemma seqN_length (s : N) (n : nat) : length (seqN s n) = n.
Proof. unfold seqN. now rewrite length_map, length_seq. Qed.

Lemma matchLoop_shape (now : nat -> Q) (order : Order.t) (opp : list ref) :
  forall (rem : Q) (acc : list Trade.t) (st : OrderMatcher),
  exists rem' created st',
    matchLoop now order opp rem acc st = (rem', acc ++ created, st')
    /\ (length created <= length opp)%nat
    /\ ((length created < length opp)%nat -> rem' <= 0)
    /\ fresh st' = fresh st
    /\ trades st' = trades st
    /\ sequenceId st' = (sequenceId st + N.of_nat (length created))%N
    /\ map Trade.id created
       = map tradeId (seqN (sequenceId st) (length created))
    /\ (forall r, static (heap st' r) = static (heap st r))
    /\ (exists keep, orders st' = filter keep (orders st))
    /\ Forall2 (fun r t => tradeOn order (heap st r) t)
         (firstn (length created) opp) created.
Proof.
  induction opp as [|r rest IH]; intros rem acc st.
  - exists rem, [], st. simpl. rewrite app_nil_r, N.add_0_r.
    split; [reflexivity|]. split; [lia|]. split; [lia|].
    do 5 (split; [reflexivity|]).
    split; [|constructor].
    exists (fun _ => true). apply filter_all.
  - rewrite matchLoop_cons. destruct (lez rem) eqn:Hrem.
    + exists rem, [], st. simpl. rewrite app_nil_r, N.add_0_r.
      split; [reflexivity|]. split; [lia|].
      split; [intros _; now apply lez_true|].
      do 5 (split; [reflexivity|]).
      split; [|constructor].
      exists (fun _ => true). apply filter_all.
    + destruct (matchStep_spec now order r rem acc st)
        as (st1 & Hstep & Hheap & Hfresh & Htrades & Hseq & Horders).
      rewrite Hstep.
      set (tq := Qmin rem (Order.quantity (heap st r))) in *.
      set (t := mkTrade order (heap st r) (sequenceId st) tq
                  (now (length acc))) in *.
      destruct (IH (rem - tq) (acc ++ [t]) st1)
        as (rem' & created & st' & Hloop & Hlen & Hstop & Hf & Ht & Hs & Hid
            & Hstatic & [keep Hkeep] & Hall).
      assert (Hst1 : forall r', static (heap st1 r') = static (heap st r')).
      { intros r'. rewrite Hheap. apply static_store_quantity. }
      exists rem', (t :: created), st'.
      rewrite Hloop, <- app_assoc. cbn [app length firstn].
      split; [reflexivity|]. split; [lia|].
      split; [intros Hlt; apply Hstop; lia|].
      split; [congruence|]. split; [congruence|].
      split; [rewrite Hs, Hseq; lia|].
      split.
      { rewrite seqN_S. simpl. f_equal. now rewrite Hid, Hseq. }
      split; [intros r'; now rewrite Hstatic|].
      split.
      { rewrite Hkeep, Horders.
        destruct (lez (Order.quantity (heap st r) - tq)).
        - unfold removeById. eexists. apply filter_twice.
        - eexists. reflexivity. }
      constructor.
      * exists (heap st r), (sequenceId st), tq, (now (length acc)).
        split; reflexivity.
      * eapply Forall2_impl; [|exact Hall].
        intros r' t' (o' & seq' & tq' & time' & Ho' & ->).
        exists o', seq', tq', time'. split; [|reflexivity].
        now rewrite Ho', Hst1.
Qed.

(** ** [addOrder] in terms of the loop *)

Lemma addOrder_eq (now : nat -> Q) (order : Order.t) (st : OrderMatcher)
    (rem' : Q) (created : list Trade.t) (st1 : OrderMatcher) :
  matchLoop now order (opposingOrders order st) (Order.quantity order) [] st
  = (rem', created, st1) ->
  addOrder now order st
  = if rests order rem'
    then ((created, Some (fresh st1)),
          {| heap := store (heap st1) (fresh st1)
                       (Order.with_quantity order rem');
             fresh := S (fresh st1);
             orders := orders st1 ++ [fresh st1];
             trades := trades st1 ++ created;
             sequenceId := sequenceId st1 |})
    else ((created, None), set_trades st1 (trades st1 ++ created)).
Proof.
  unfold addOrder, opposingOrders, rests, matchMarketOrder, matchLimitOrder.
  destruct (Order.type order); intros ->.
  - destruct (gtz rem'); reflexivity.
  - destruct (gtz rem') eqn:E; [|reflexivity].
    cbn [alloc heap set_orders orders]. rewrite store_same.
    cbn [Order.quantity Order.with_quantity]. rewrite E. reflexivity.
Qed.

(** The trades of a call, as [matchLoop_shape] describes them. *)
Lemma addOrder_shape (now : nat -> Q) (order : Order.t) (st : OrderMatcher) :
  exists rem' created st1,
    matchLoop now order (opposingOrders order st) (Order.quantity order) [] st
    = (rem', created, st1)
    /\ fst (fst (addOrder now order st)) = created
    /\ snd (fst (addOrder now order st))
       = (if rests order rem' then Some (fresh st1) else None)
    /\ (length created <= length (opposingOrders order st))%nat
    /\ fresh st1 = fresh st
    /\ trades st1 = trades st
    /\ sequenceId (snd (addOrder now order st))
       = (sequenceId st + N.of_nat (length created))%N
    /\ trades (snd (addOrder now order st)) = trades st ++ created
    /\ map Trade.id created
       = map tradeId (seqN (sequenceId st) (length created))
    /\ (forall r, static (heap st1 r) = static (heap st r))
    /\ (exists keep, orders st1 = filter keep (orders st))
    /\ Forall2 (fun r t => tradeOn order (heap st r) t)
         (firstn (length created) (opposingOrders order st)) created.
Proof.
  destruct (matchLoop_shape now order (opposingOrders order st)
              (Order.quantity order) [] st)
    as (rem' & created & st1 & Hloop & Hlen & _ & Hf & Ht & Hs & Hid
        & Hstatic & Hkeep & Hall).
  simpl in Hloop.
  exists rem', created, st1.
  rewrite (addOrder_eq _ _ _ Hloop).
  split; [assumption|].
  destruct (rests order rem'); cbn [fst snd sequenceId trades set_trades];
    rewrite ?Ht; repeat (split; [first [reflexivity | assumption]|]);
    assumption.
Qed.

(** The resting array after a call: what the loop left of it, then the
    remainder if one rests. *)
Lemma addOrder_orders (now : nat -> Q) (order : Order.t)
    (st : OrderMatcher) :
  exists rem' st1 keep,
    snd (matchLoop now order (opposingOrders order st)
           (Order.quantity order) [] st) = st1
    /\ orders st1 = filter keep (orders st)
    /\ (rests order rem' = true ->
        0 < rem' /\ Order.type order = limit
        /\ snd (fst (addOrder now order st)) = Some (fresh st1)
        /\ orders (snd (addOrder now order st)) = orders st1 ++ [fresh st1]
        /\ heap (snd (addOrder now order st))
           = store (heap st1) (fresh st1) (Order.with_quantity order rem')
        /\ fresh (snd (addOrder now order st)) = S (fresh st1))
    /\ (rests order rem' = false ->
        snd (fst (addOrder now order st)) = None
        /\ orders (snd (addOrder now order st)) = orders st1
        /\ heap (snd (addOrder now order st)) = heap st1
        /\ fresh (snd (addOrder now order st)) = fresh st1).
Proof.
  destruct (matchLoop_shape now order (opposingOrders order st)
              (Order.quantity order) [] st)
    as (rem' & created & st1 & Hloop & _ & _ & _ & _ & _ & _ & _
        & [keep Hkeep] & _).
  simpl in Hloop. exists rem', st1, keep.
  rewrite (addOrder_eq _ _ _ Hloop), Hloop.
  split; [reflexivity|]. split; [assumption|].
  split; intros Hr; rewrite Hr; cbn.
  - unfold rests in Hr. destruct (Order.type order); [discriminate|].
    apply gtz_true in Hr. auto 10.
  - auto.
Qed.

(** ** Price-time priority *)




Lemma opposingOrders_eq (order : Order.t) (st : OrderMatcher) :
  opposingOrders order st
  = sort (priceCompare (heap st) (Order.side order))
      (filter (eligible (heap st) order) (orders st)).
Proof.
  unfold opposingOrders, eligible, marketOpposingOrders, limitOpposingOrders.
  destruct (Order.type order); reflexivity.
Qed.

Lemma tradeOn_fields (order o : Order.t) (t : Trade.t) :
  tradeOn order o t ->
  Trade.price t = Order.price o /\ makerId t = Some (Order.id o)
  /\ Trade.side t = Order.side order.
Proof.
  intros (o' & seq & tq & time & Hs & ->).
  destruct (static_fields Hs) as (Hid & Hp & _).
  unfold makerId, mkTrade. cbn. rewrite Hid, Hp.
  destruct (Order.side order); auto.
Qed.







Lemma In_firstn (A : Type) (n : nat) (l : list A) (x : A) :
  In x (firstn n l) -> In x l.
Proof.
  intros H. rewrite <- (firstn_skipn n l). apply in_or_app. now left.
Qed.





(** The loop reads the incoming order's side and identifier, nothing
    else of it. *)
Lemma matchLoop_taker (now : nat -> Q) (order order' : Order.t)
    (opp : list ref) :
  Order.side order' = Order.side order ->
  Order.id order' = Order.id order ->
  forall (rem : Q) (acc : list Trade.t) (st : OrderMatcher),
    matchLoop now order' opp rem acc st = matchLoop now order opp rem acc st.
Proof.
  intros Hside Hid. induction opp as [|r rest IH]; intros rem acc st;
    [reflexivity|].
  rewrite !matchLoop_cons.
  assert (Hstep : matchStep now order' r rem acc st
                  = matchStep now order r rem acc st).
  { unfold matchStep, mkTrade. now rewrite Hside, Hid. }
  rewrite Hstep. destruct (lez rem); [reflexivity|].
  destruct (matchStep now order r rem acc st) as [[rem1 acc1] st1].
  apply IH.
Qed.

Lemma eligible_limit_priority (h : Heap) (order : Order.t) (r : ref) :
  Order.type order = limit ->
  eligible h order r = true ->
  priority (Order.side order) (Order.price (h r)) (Order.price order).
Proof.
  unfold eligible, limitEligible, priority. intros ->.
  destruct (negb _); [discriminate|].
  destruct (Order.side order); intros H; now apply Qle_bool_iff in H.
Qed.

(** C2. Maker-price trading.  For every call, market or limit, buy or
    sell, the prices of the trades it emits are, one by one, the prices of
    the resting orders it matched against: each trade is priced by a resting,
    eligible order whose identifier it records as the maker.  The incoming
    order's own price only decides eligibility: for a limit order every
    trade price is at least as good as the limit, and an incoming order that
    differs in price alone and is offered the same opposing orders makes the
    same trades. *)
Theorem C2_maker_price :
  forall (now : nat -> Q) (order : Order.t) (st : OrderMatcher),
    let newTrades := fst (fst (addOrder now order st)) in
    map Trade.price newTrades
    = map (fun r => Order.price (heap st r))
        (firstn (length newTrades) (opposingOrders order st))
    /\ Forall
         (fun t =>
            exists r, In r (orders st)
                      /\ eligible (heap st) order r = true
                      /\ makerId t = Some (Order.id (heap st r))
                      /\ Trade.price t = Order.price (heap st r))
         newTrades
    /\ (Order.type order = limit ->
        Forall
          (fun t => priority (Order.side order) (Trade.price t)
                      (Order.price order))
          newTrades)
    /\ (forall p : Q,
          let order' :=
            Order.make (Order.id order) p (Order.quantity order)
              (Order.side order) (Order.type order)
              (Order.timestamp order) in
          opposingOrders order' st = opposingOrders order st ->
          fst (fst (addOrder now order' st)) = newTrades).
Proof.
  intros now order st newTrades.
  destruct (addOrder_shape now order st)
    as (rem' & created & st1 & Hloop & Hcr & _ & _ & _ & _ & _ & _ & _ & _
        & _ & Hall).
  assert (Hin : forall r,
             In r (firstn (length created) (opposingOrders order st)) ->
             In r (orders st) /\ eligible (heap st) order r = true).
  { intros r Hr. apply In_firstn in Hr.
    rewrite opposingOrders_eq in Hr.
    eapply Permutation_in in Hr; [|apply sort_perm].
    now apply filter_In in Hr. }
  assert (Hmakers :
            map Trade.price created
            = map (fun r => Order.price (heap st r))
                (firstn (length created) (opposingOrders order st))
            /\ Forall
                 (fun t =>
                    exists r, In r (orders st)
                              /\ eligible (heap st) order r = true
                              /\ makerId t = Some (Order.id (heap st r))
                              /\ Trade.price t = Order.price (heap st r))
                 created).
  { revert Hin Hall.
    generalize (firstn (length created) (opposingOrders order st)) as l.
    intros l Hin Hall. clear Hloop Hcr.
    induction Hall as [|r t l ts Hrt Hall IH].
    - split; constructor.
    - specialize (IH (fun r' Hr' => Hin r' (or_intror Hr'))).
      destruct IH as [IH1 IH2].
      apply tradeOn_fields in Hrt. destruct Hrt as (Hp & Hm & _).
      split.
      + simpl. now rewrite Hp, IH1.
      + constructor; [|assumption].
        exists r. destruct (Hin r (or_introl eq_refl)). auto. }
  subst newTrades. rewrite Hcr. destruct Hmakers as [Hprices Hmk].
  split; [assumption|]. split; [assumption|]. split.
  - intros Hty. eapply Forall_impl; [|exact Hmk].
    cbn beta. intros t (r & _ & Hel & _ & ->).
    now apply eligible_limit_priority.
  - intros p order' Hopp.
    destruct (addOrder_shape now order' st)
      as (rem2 & created2 & st2 & Hloop2 & <- & _).
    rewrite Hopp in Hloop2. cbn [Order.quantity order'] in Hloop2.
    rewrite (@matchLoop_taker now order order' _ eq_refl eq_refl)
      in Hloop2.
    rewrite Hloop in Hloop2. now injection Hloop2 as _ <- _.
Qed.

(** ** Degenerate orders, market orders *)

Lemma set_trades_same (st : OrderMatcher) :
  set_trades st (trades st ++ []) = st.
Proof. destruct st. unfold set_trades. simpl. now rewrite app_nil_r. Qed.

(** C9. An order of quantity zero or less, market or limit, is a complete
    no-op: no trade, no remainder, and the engine state after the call is
    the state before it (no resting order written or removed, nothing
    inserted). *)
Theorem C9_nonpositive_quantity_noop :
  forall (now : nat -> Q) (order : Order.t) (st : OrderMatcher),
    Order.quantity order <= 0 ->
    addOrder now order st = (([], None), st).
Proof.
  intros now order st Hq.
  rewrite (addOrder_eq now order st
             (matchLoop_break now order _ [] st Hq)).
  assert (Hr : rests order (Order.quantity order) = false).
  { unfold rests. destruct (Order.type order); [reflexivity|].
    now apply gtz_false. }
  rewrite Hr. now rewrite set_trades_same.
Qed.

(** C5. Market orders never rest.  For every market order the remainder
    returned is none, no order object is created, and the resting set after
    the call is the resting set before it with some orders filtered out:
    nothing is inserted, filled or not. *)
Theorem C5_market_never_rests :
  forall (now : nat -> Q) (order : Order.t) (st : OrderMatcher),
    Order.type order = market ->
    let st' := snd (addOrder now order st) in
    snd (fst (addOrder now order st)) = None
    /\ fresh st' = fresh st
    /\ exists keep, orders st' = filter keep (orders st).
Proof.
  intros now order st Hty st'. subst st'.
  destruct (matchLoop_shape now order (opposingOrders order st)
              (Order.quantity order) [] st)
    as (rem' & created & st1 & Hloop & _ & _ & Hf & _ & _ & _ & _ & Hkeep
        & _).
  simpl in Hloop. rewrite (addOrder_eq _ _ _ Hloop).
  unfold rests. rewrite Hty. cbn. auto.
Qed.

(** ** The trade counter *)

Lemma tradeId_inj (m n : N) : tradeId m = tradeId n -> m = n.
Proof.
  unfold tradeId. intros H. simpl in H. injection H as H.
  assert (Hnil : forall k, N.to_uint k <> Decimal.Nil).
  { intros [|p]; simpl; [discriminate|].
    apply DecimalPos.Unsigned.to_uint_nonnil. }
  apply DecimalN.Unsigned.to_uint_inj.
  pose proof (NilZero.usu _ (Hnil m)) as Hm.
  pose proof (NilZero.usu _ (Hnil n)) as Hn.
  rewrite H in Hm. congruence.
Qed.

Lemma seqN_app (s : N) (a b : nat) :
  seqN s (a + b) = seqN s a ++ seqN (s + N.of_nat a) b.
Proof.
  revert s. induction a as [|a IH]; intros s.
  - simpl. now rewrite N.add_0_r.
  - change (S a + b)%nat with (S (a + b)). rewrite !seqN_S, IH. simpl.
    do 3 f_equal. lia.
Qed.

Lemma seqN_bounds (s : N) (n : nat) (x : N) :
  In x (seqN s n) -> (s <= x < s + N.of_nat n)%N.
Proof.
  unfold seqN. rewrite in_map_iff. intros (i & <- & Hi).
  apply in_seq in Hi. lia.
Qed.

Lemma seqN_NoDup (s : N) (n : nat) : NoDup (seqN s n).
Proof.
  revert s. induction n as [|n IH]; intros s.
  - constructor.
  - rewrite seqN_S. constructor; [|apply IH].
    intros Hin. apply seqN_bounds in Hin. lia.
Qed.

Lemma call_counter (c : Call) (st : OrderMatcher) :
  sequenceId (call c st)
  = (sequenceId st + N.of_nat (length (callTrades c st)))%N
  /\ map Trade.id (callTrades c st)
     = map tradeId (seqN (sequenceId st) (length (callTrades c st))).
Proof.
  destruct c as [now order| | |]; cbn [call callTrades];
    try (simpl; rewrite N.add_0_r; split; reflexivity).
  destruct (addOrder_shape now order st)
    as (rem' & created & st1 & _ & Hcr & _ & _ & _ & _ & Hs & _ & Hid & _).
  rewrite Hcr. auto.
Qed.

Lemma run_counter (calls : list Call) :
  forall st : OrderMatcher,
    sequenceId (run calls st)
    = (sequenceId st + N.of_nat (length (runTrades calls st)))%N
    /\ map Trade.id (runTrades calls st)
       = map tradeId (seqN (sequenceId st) (length (runTrades calls st))).
Proof.
  induction calls as [|c calls IH]; intros st.
  - simpl. rewrite N.add_0_r. auto.
  - cbn [run runTrades]. destruct (call_counter c st) as [Hc Hi].
    destruct (IH (call c st)) as [Hr Hj].
    rewrite length_app, seqN_app, !map_app, Hr, Hc, Hi, Hj, Hc.
    split; [lia | reflexivity].
Qed.

(** C10. The trade counter.  A call advances the counter by exactly the
    number of trades it creates and numbers them in creation order from the
    counter's value; [removeOrder] and [clear] leave the counter alone,
    [clear] emptying the resting set and the trade log; so over any life of
    the engine, [clear] calls included, the trades created carry the
    consecutive sequence numbers from the initial counter on, identifiers
    of different numbers differ, and no identifier is used twice. *)
Theorem C10_trade_counter :
  (forall now order st,
      let newTrades := fst (fst (addOrder now order st)) in
      sequenceId (snd (addOrder now order st))
      = (sequenceId st + N.of_nat (length newTrades))%N
      /\ map Trade.id newTrades
         = map tradeId (seqN (sequenceId st) (length newTrades)))
  /\ (forall st,
         sequenceId (clear st) = sequenceId st
         /\ orders (clear st) = [] /\ trades (clear st) = [])
  /\ (forall orderId st,
         sequenceId (snd (removeOrder orderId st)) = sequenceId st)
  /\ (forall calls st,
         let created := runTrades calls st in
         sequenceId (run calls st)
         = (sequenceId st + N.of_nat (length created))%N
         /\ map Trade.id created
            = map tradeId (seqN (sequenceId st) (length created))
         /\ NoDup (map Trade.id created))
  /\ (forall m n, tradeId m = tradeId n -> m = n).
Proof.
  split; [|split; [|split; [|split]]].
  - intros now order st. apply (call_counter (CallAddOrder now order) st).
  - intros st. repeat split.
  - reflexivity.
  - intros calls st created. subst created.
    destruct (run_counter calls st) as [Hs Hid]. repeat split; trivial.
    rewrite Hid. apply Injective_map_NoDup.
    + intros m n. apply tradeId_inj.
    + apply seqN_NoDup.
  - apply tradeId_inj.
Qed.

(** ** The resting set holds positive quantities only *)

Lemma removeById_In (h : Heap) (orderId : string) (l : list ref) (x : ref) :
  In x (removeById h orderId l) -> In x l /\ Order.id (h x) <> orderId.
Proof.
  unfold removeById. intros H. apply filter_In in H. destruct H as [Hx Hb].
  split; [assumption|]. intros E. apply String.eqb_eq in E.
  rewrite E in Hb. discriminate.
Qed.

Lemma matchStep_positive (now : nat -> Q) (order : Order.t) (r : ref)
    (rem : Q) (acc : list Trade.t) (st : OrderMatcher) :
  resting_positive st ->
  resting_positive (snd (matchStep now order r rem acc st)).
Proof.
  intros Hpos.
  destruct (matchStep_spec now order r rem acc st)
    as (st1 & Hstep & Hheap & _ & _ & _ & Horders).
  rewrite Hstep. cbn [snd]. unfold resting_positive in *.
  rewrite Forall_forall in *. intros x Hx. rewrite Hheap.
  rewrite Horders in Hx.
  destruct (lez (Order.quantity (heap st r)
                 - Qmin rem (Order.quantity (heap st r)))) eqn:E.
  - apply removeById_In in Hx. destruct Hx as [Hx Hne].
    rewrite store_other; [now apply Hpos|]. intros ->. now apply Hne.
  - apply lez_false in E. destruct (Nat.eq_dec x r) as [->|Hne].
    + rewrite store_same. exact E.
    + rewrite store_other; [now apply Hpos | assumption].
Qed.

Lemma matchLoop_positive (now : nat -> Q) (order : Order.t)
    (opp : list ref) :
  forall (rem : Q) (acc : list Trade.t) (st : OrderMatcher),
    resting_positive st ->
    resting_positive (snd (matchLoop now order opp rem acc st)).
Proof.
  induction opp as [|r rest IH]; intros rem acc st Hpos; [exact Hpos|].
  rewrite matchLoop_cons. destruct (lez rem); [exact Hpos|].
  pose proof (matchStep_positive now order r rem acc Hpos) as H1.
  destruct (matchStep now order r rem acc st) as [[rem1 acc1] st1].
  now apply IH.
Qed.

Lemma addOrder_positive (now : nat -> Q) (order : Order.t)
    (st : OrderMatcher) :
  resting_positive st -> resting_positive (snd (addOrder now order st)).
Proof.
  intros Hpos.
  destruct (addOrder_orders now order st)
    as (rem' & st1 & keep & Hst1 & _ & Hyes & Hno).
  pose proof (matchLoop_positive now order (opposingOrders order st)
                (Order.quantity order) [] Hpos) as H1.
  rewrite Hst1 in H1. unfold resting_positive in *.
  destruct (rests order rem') eqn:Hr.
  - destruct (Hyes eq_refl) as (Hrem & _ & _ & -> & -> & _).
    rewrite Forall_forall in *. intros x Hx.
    destruct (Nat.eq_dec x (fresh st1)) as [->|Hne].
    + now rewrite store_same.
    + rewrite store_other by assumption. apply H1.
      apply in_app_or in Hx. destruct Hx as [Hx|[Hx|[]]]; [assumption|].
      congruence.
  - destruct (Hno eq_refl) as (_ & -> & -> & _). exact H1.
Qed.

Lemma removeOrder_positive (orderId : string) (st : OrderMatcher) :
  resting_positive st -> resting_positive (snd (removeOrder orderId st)).
Proof.
  unfold resting_positive, removeOrder, removeById. cbn.
  rewrite !Forall_forall. intros H x Hx. apply filter_In in Hx. now apply H.
Qed.

(** ** Quantity conservation *)


Lemma tradedAgainst_cons (r x : ref) (t : Trade.t)
    (f : list (ref * Trade.t)) :
  tradedAgainst r ((x, t) :: f)
  == (if Nat.eqb x r then Trade.quantity t else 0) + tradedAgainst r f.
Proof.
  unfold tradedAgainst. simpl. destruct (Nat.eqb x r); simpl; ring.
Qed.

Lemma tradedAgainst_absent (r : ref) (f : list (ref * Trade.t)) :
  ~ In r (map fst f) -> tradedAgainst r f = 0.
Proof.
  unfold tradedAgainst. induction f as [|[x t] f IH]; [reflexivity|].
  simpl. intros H. destruct (Nat.eqb x r) eqn:E.
  - apply Nat.eqb_eq in E. tauto.
  - apply IH. tauto.
Qed.

(** The loop writes a quantity only by trading against it. *)
Lemma matchLoop_quantities (now : nat -> Q) (order : Order.t)
    (opp : list ref) :
  forall (rem : Q) (acc : list Trade.t) (st : OrderMatcher)
         (rem' : Q) (created : list Trade.t) (st' : OrderMatcher),
    matchLoop now order opp rem acc st = (rem', acc ++ created, st') ->
    forall r,
      Order.quantity (heap st' r)
      == Order.quantity (heap st r) - tradedAgainst r (combine opp created)
      /\ (0 <= Order.quantity (heap st r) ->
          0 <= Order.quantity (heap st' r)).
Proof.
  induction opp as [|x rest IH]; intros rem acc st rem' created st' Hloop r.
  - simpl in Hloop. injection Hloop as _ _ <-.
    unfold tradedAgainst. simpl. split; [ring | trivial].
  - rewrite matchLoop_cons in Hloop. destruct (lez rem) eqn:Hrem.
    + injection Hloop as _ Hacc <-.
      rewrite <- (app_nil_r acc) in Hacc at 1.
      apply app_inv_head in Hacc. subst created.
      unfold tradedAgainst. simpl. split; [ring | trivial].
    + apply lez_false in Hrem.
      destruct (matchStep_spec now order x rem acc st)
        as (st1 & Hstep & Hheap & _).
      rewrite Hstep in Hloop.
      set (q := Order.quantity (heap st x)) in *.
      set (tq := Qmin rem q) in *.
      set (t := mkTrade order (heap st x) (sequenceId st) tq
                  (now (length acc))) in *.
      destruct (matchLoop_shape now order rest (rem - tq) (acc ++ [t]) st1)
        as (rem2 & created' & st2 & Hloop' & _).
      pose proof Hloop' as Heq. rewrite Hloop in Heq.
      injection Heq as _ Hacc _. rewrite <- app_assoc in Hacc.
      apply app_inv_head in Hacc. subst created.
      rewrite app_assoc in Hloop.
      destruct (IH _ _ _ _ _ _ Hloop r) as [Hq Hnn].
      assert (Hx : Order.quantity (heap st1 r)
                   = if Nat.eqb x r then q - tq
                     else Order.quantity (heap st r)).
      { rewrite Hheap. unfold store. rewrite (Nat.eqb_sym x r).
        destruct (Nat.eqb r x) eqn:E; [|reflexivity].
        apply Nat.eqb_eq in E. now subst. }
      cbn [combine app]. rewrite tradedAgainst_cons. split.
      * rewrite Hq, Hx. change (Trade.quantity t) with tq.
        destruct (Nat.eqb x r) eqn:E.
        -- apply Nat.eqb_eq in E. subst r. fold q. ring.
        -- ring.
      * intros H0. apply Hnn. rewrite Hx.
        destruct (Nat.eqb x r) eqn:E; [|assumption].
        apply Nat.eqb_eq in E. subst r. fold q in H0.
        subst tq. destruct (Qmin_cases rem q) as [[? ->]|[? ->]]; lra.
Qed.

Lemma call_quantities (c : Call) (st : OrderMatcher) (r : ref) :
  (r < fresh st)%nat ->
  (fresh st <= fresh (call c st))%nat
  /\ Order.quantity (heap (call c st) r)
     == Order.quantity (heap st r) - tradedAgainst r (callFills c st)
  /\ (0 <= Order.quantity (heap st r) ->
      0 <= Order.quantity (heap (call c st) r)).
Proof.
  intros Hr.
  destruct c as [now order| | |]; cbn [call callFills];
    try (unfold tradedAgainst; cbn; split; [lia|]; split; [ring|trivial]).
  destruct (matchLoop_shape now order (opposingOrders order st)
              (Order.quantity order) [] st)
    as (rem' & created & st1 & Hloop & _ & _ & Hf & _).
  destruct (@matchLoop_quantities now order _ _ [] st _ _ _ Hloop r)
    as [Hq Hnn].
  simpl in Hloop. rewrite (addOrder_eq _ _ _ Hloop).
  destruct (rests order rem'); cbn [fst snd heap fresh set_trades].
  - rewrite store_other by lia. split; [lia|]. split; assumption.
  - split; [lia|]. split; assumption.
Qed.

(** ** Reachable states *)

Lemma addOrder_fresh (now : nat -> Q) (order : Order.t)
    (st : OrderMatcher) :
  forall r, In r (orders (snd (addOrder now order st))) ->
            In r (orders st) \/ (r = fresh st /\
                                 fresh (snd (addOrder now order st))
                                 = S (fresh st)).
Proof.
  intros r Hin.
  destruct (matchLoop_shape now order (opposingOrders order st)
              (Order.quantity order) [] st)
    as (rem' & created & st1 & Hloop & _ & _ & Hf & _ & _ & _ & _
        & [keep Hkeep] & _).
  simpl in Hloop. rewrite (addOrder_eq _ _ _ Hloop) in *.
  destruct (rests order rem'); cbn [snd orders fresh set_trades] in *.
  - apply in_app_or in Hin. destruct Hin as [Hin|[<-|[]]].
    + left. rewrite Hkeep in Hin. now apply filter_In in Hin.
    + right. now rewrite Hf.
  - left. rewrite Hkeep in Hin. now apply filter_In in Hin.
Qed.

Lemma addOrder_engine_inv (now : nat -> Q) (order : Order.t)
    (st : OrderMatcher) :
  engine_inv st -> engine_inv (snd (addOrder now order st)).
Proof.
  intros (Hnd & Hal & Hpos).
  split; [|split; [|now apply addOrder_positive]].
  - destruct (addOrder_orders now order st)
      as (rem' & st1 & keep & Hst1 & Hkeep & Hyes & Hno).
    destruct (matchLoop_shape now order (opposingOrders order st)
                (Order.quantity order) [] st)
      as (rem2 & created & st2 & Hloop & _ & _ & Hf & _).
    rewrite Hloop in Hst1. cbn in Hst1. subst st2.
    assert (Hnd1 : NoDup (orders st1))
      by (rewrite Hkeep; now apply NoDup_filter).
    destruct (rests order rem') eqn:Hr.
    + destruct (Hyes eq_refl) as (_ & _ & _ & -> & _).
      apply NoDup_app; [assumption | repeat constructor; intros [] |].
      intros x Hx [<-|[]]. rewrite Hkeep in Hx. apply filter_In in Hx.
      unfold allocated in Hal. rewrite Forall_forall in Hal.
      destruct Hx as [Hx _]. apply Hal in Hx. lia.
    + destruct (Hno eq_refl) as (_ & -> & _). assumption.
  - unfold allocated in *. rewrite Forall_forall in *. intros x Hx.
    pose proof (call_quantities (CallAddOrder now order) st) as Hq.
    cbn [call] in Hq.
    destruct (addOrder_fresh now order st x Hx) as [Hin|[-> ->]]; [|lia].
    specialize (Hal x Hin). destruct (Hq x Hal) as [Hle _]. lia.
Qed.

Lemma call_engine_inv (c : Call) (st : OrderMatcher) :
  engine_inv st -> engine_inv (call c st).
Proof.
  destruct c as [now order|orderId| |]; cbn [call].
  - apply addOrder_engine_inv.
  - intros (Hnd & Hal & Hpos).
    split; [|split; [|now apply removeOrder_positive]].
    + cbn. now apply NoDup_filter.
    + unfold allocated in *. cbn. rewrite Forall_forall in *.
      intros x Hx. apply filter_In in Hx. now apply Hal.
  - intros _. repeat split; constructor.
  - trivial.
Qed.

(** Every state the engine can be in satisfies the invariants the
    theorems below assume. *)
Lemma reachable_engine_inv (st : OrderMatcher) :
  reachable st -> engine_inv st.
Proof.
  induction 1 as [|c st _ IH].
  - repeat split; constructor.
  - now apply call_engine_inv.
Qed.

(** ** Determinism *)

Lemma eligible_value (h : Heap) (order : Order.t) (r : ref) :
  eligible h order r = eligibleV order (h r).
Proof. reflexivity. Qed.

Lemma opposingOrders_values (order : Order.t) (st : OrderMatcher) :
  map (heap st) (opposingOrders order st)
  = sort (priceCompareV (Order.side order))
      (filter (eligibleV order) (getOrders st)).
Proof.
  rewrite opposingOrders_eq.
  rewrite map_sort with (cB := priceCompareV (Order.side order))
    by reflexivity.
  f_equal. unfold getOrders. rewrite <- map_filter_comm.
  f_equal.
Qed.

Lemma opposingOrders_NoDup (order : Order.t) (st : OrderMatcher) :
  NoDup (orders st) -> NoDup (opposingOrders order st).
Proof.
  intros H. rewrite opposingOrders_eq.
  eapply Permutation_NoDup; [apply Permutation_sym, sort_perm|].
  now apply NoDup_filter.
Qed.

Lemma matchLoop_values (now : nat -> Q) (order : Order.t)
    (opp : list ref) :
  NoDup opp ->
  forall (rem : Q) (acc : list Trade.t) (st : OrderMatcher)
         (rem' : Q) (created : list Trade.t) (st' : OrderMatcher),
    matchLoop now order opp rem acc st = (rem', acc ++ created, st') ->
    created
    = tradesOfValues now order (map (heap st) opp) rem (length acc)
        (sequenceId st).
Proof.
  induction 1 as [|x rest Hx Hnd IH];
    intros rem acc st rem' created st' Hloop.
  - simpl in Hloop. injection Hloop as _ Hacc _.
    rewrite <- (app_nil_r acc) in Hacc at 1.
    apply app_inv_head in Hacc. now subst.
  - rewrite matchLoop_cons in Hloop. cbn [map tradesOfValues].
    destruct (lez rem) eqn:Hrem.
    + injection Hloop as _ Hacc _.
      rewrite <- (app_nil_r acc) in Hacc at 1.
      apply app_inv_head in Hacc. now subst.
    + destruct (matchStep_spec now order x rem acc st)
        as (st1 & Hstep & Hheap & _ & _ & Hseq & _).
      rewrite Hstep in Hloop.
      set (tq := Qmin rem (Order.quantity (heap st x))) in *.
      set (t := mkTrade order (heap st x) (sequenceId st) tq
                  (now (length acc))) in *.
      destruct (matchLoop_shape now order rest (rem - tq) (acc ++ [t]) st1)
        as (rem2 & created' & st2 & Hloop' & _).
      pose proof Hloop' as Heq. rewrite Hloop in Heq.
      injection Heq as _ Hacc _. rewrite <- app_assoc in Hacc.
      apply app_inv_head in Hacc. subst created.
      rewrite (IH _ _ _ _ _ _ Hloop').
      rewrite length_app, Hseq. cbn [length]. rewrite Nat.add_1_r.
      cbn [app]. f_equal. f_equal.
      apply map_ext_in. intros r Hr. rewrite Hheap.
      apply store_other. intros ->. contradiction.
Qed.

Lemma tradesOfValues_clock (now now' : nat -> Q) (order : Order.t)
    (opp : list Order.t) :
  forall (rem : Q) (k k' : nat) (seq : N),
    map eraseTimestamp (tradesOfValues now order opp rem k seq)
    = map eraseTimestamp (tradesOfValues now' order opp rem k' seq).
Proof.
  induction opp as [|o rest IH]; intros rem k k' seq; [reflexivity|].
  cbn [tradesOfValues]. destruct (lez rem); [reflexivity|].
  cbn [map]. f_equal. apply IH.
Qed.

Lemma tradesOfValues_ext (now now' : nat -> Q) (order : Order.t)
    (opp : list Order.t) :
  (forall k, now k = now' k) ->
  forall (rem : Q) (k : nat) (seq : N),
    tradesOfValues now order opp rem k seq
    = tradesOfValues now' order opp rem k seq.
Proof.
  intros Hnow. induction opp as [|o rest IH]; intros rem k seq;
    [reflexivity|].
  cbn [tradesOfValues]. destruct (lez rem); [reflexivity|].
  now rewrite Hnow, IH.
Qed.

Lemma addOrder_values (now : nat -> Q) (order : Order.t)
    (st : OrderMatcher) :
  NoDup (orders st) ->
  fst (fst (addOrder now order st))
  = tradesOfValues now order
      (sort (priceCompareV (Order.side order))
         (filter (eligibleV order) (getOrders st)))
      (Order.quantity order) 0 (sequenceId st).
Proof.
  intros Hnd.
  destruct (addOrder_shape now order st)
    as (rem' & created & st1 & Hloop & -> & _).
  rewrite <- opposingOrders_values.
  apply (@matchLoop_values now order _ (@opposingOrders_NoDup order st Hnd)
           _ [] st _ _ _ Hloop).
Qed.

(** C8, as stated, fails: the same engine given the same order emits
    trades that differ, in their timestamps, when the clock reads
    differently. *)
Lemma C8_counterexample :
  fst (fst (addOrder epoch (marketOrder "m" buy 7) testBook))
  <> fst (fst (addOrder ticking (marketOrder "m" buy 7) testBook)).
Proof. intros H. vm_compute in H. discriminate H. Qed.

(** C8, amended.  The trades of a call are, up to their timestamp
    field, a function of the values in the resting set, in resting order,
    of the incoming order and of the trade counter: two engines (of distinct
    resting objects each) that agree on these emit the same trades up to
    the timestamp field, whatever their clocks, stores and trade logs, and
    the same trades outright when the clock readings agree. *)
Theorem C8_determinism :
  forall (now1 now2 : nat -> Q) (order : Order.t) (st1 st2 : OrderMatcher),
    NoDup (orders st1) -> NoDup (orders st2) ->
    getOrders st1 = getOrders st2 ->
    sequenceId st1 = sequenceId st2 ->
    map eraseTimestamp (fst (fst (addOrder now1 order st1)))
    = map eraseTimestamp (fst (fst (addOrder now2 order st2)))
    /\ ((forall k, now1 k = now2 k) ->
        fst (fst (addOrder now1 order st1))
        = fst (fst (addOrder now2 order st2))).
Proof.
  intros now1 now2 order st1 st2 Hnd1 Hnd2 Hval Hseq.
  rewrite !addOrder_values by assumption. rewrite Hval, Hseq.
  split.
  - apply tradesOfValues_clock.
  - intros Hnow. now apply tradesOfValues_ext.
Qed.

(** ** The book snapshot: grouping by price *)

Lemma StronglySorted_app (A : Type) (R : A -> A -> Prop) (l1 l2 : list A) :
  StronglySorted R l1 -> StronglySorted R l2 ->
  (forall a b, In a l1 -> In b l2 -> R a b) ->
  StronglySorted R (l1 ++ l2).
Proof.
  intros H1 H2 H. induction H1 as [|x l1 H1 IH Hx]; [assumption|].
  simpl. constructor.
  - apply IH. intros a b Ha. apply H. now right.
  - apply Forall_app. split; [assumption|].
    apply Forall_forall. intros b Hb. apply H; [now left | assumption].
Qed.


Lemma filter_none (A : Type) (f : A -> bool) (l : list A) :
  Forall (fun x => f x = false) l -> filter f l = [].
Proof.
  induction 1 as [|x l Hx _ IH]; [reflexivity|].
  simpl. now rewrite Hx.
Qed.

Lemma addToLevel_skip (k' : Q) (v' : Q * nat) (m : PriceMap)
    (o : Order.t) :
  Qeq_bool k' (Order.price o) = false ->
  addToLevel ((k', v') :: m) o = (k', v') :: addToLevel m o.
Proof.
  intros E. unfold addToLevel. simpl. now rewrite E.
Qed.









(** ** The book snapshot: sorted levels and running totals *)

Section SortStrict.
Variable A : Type.
Variable compareFn : A -> A -> Q.
Variable key : A -> Q.
Hypothesis compare_key : forall a b, compareFn a b == key a - key b.


End SortStrict.














Lemma Side_eqb_eq (a b : Side) : Side_eqb a b = true <-> a = b.
Proof. destruct a, b; cbn; split; intros H; congruence. Qed.





Lemma sideOrdersOf_refs (st : OrderMatcher) (s : Side) :
  sideOrdersOf s st = map (heap st) (filter (onSide st s) (orders st)).
Proof.
  unfold sideOrdersOf, getOrders, onSide.
  now rewrite <- map_filter_comm.
Qed.


(** ** Best prices, mid-price and spread *)


Lemma truthy_false (x : Q) : truthy x = false <-> x == 0.
Proof.
  unfold truthy. rewrite negb_false_iff. apply Qeq_bool_iff.
Qed.





(** ** The scenarios of the specification, run on the model *)

(** Scenario A: asks 100x5 and 101x3, market buy of 7. *)
Example scenario_A :
  let res := addOrder epoch (marketOrder "m" buy 7) testBook in
  map tradeSummary (fst (fst res)) = [(100, 5); (101, 2)]
  /\ snd (fst res) = None
  /\ map orderSummary (sideOrdersOf sell (snd res))
     = [("2"%string, 101, 1)].
Proof. vm_compute. repeat split. Qed.

(** Scenario B: ask 99x3, limit buy at 100 for 2 trades at 99. *)
Example scenario_B :
  let res := addOrder epoch (limitOrder "b" buy 100 2) askBook in
  map tradeSummary (fst (fst res)) = [(99, 2)]
  /\ snd (fst res) = None
  /\ map orderSummary (getOrders (snd res)) = [("s"%string, 99, 1)].
Proof. vm_compute. repeat split. Qed.

(** Scenario C: sell 100x10, limit buy 100x6. *)
Example scenario_C :
  let st := submitAll [limitOrder "s" sell 100 10] newOrderMatcher in
  let res := addOrder epoch (limitOrder "b" buy 100 6) st in
  map tradeSummary (fst (fst res)) = [(100, 6)]
  /\ snd (fst res) = None
  /\ map orderSummary (getOrders (snd res)) = [("s"%string, 100, 4)].
Proof. vm_compute. repeat split. Qed.

(** Scenario D: best bid 99, best ask 100, mid-price 99.5, spread 1. *)
Example scenario_D :
  let ob := fst (getOrderBook testBook) in
  bestBid testBook = 99 /\ bestAsk testBook = 100
  /\ OrderBook.midPrice ob == 199 # 2 /\ OrderBook.spread ob == 1.
Proof. vm_compute. repeat split; discriminate. Qed.

(** A limit order that finds nothing to match rests whole. *)
Example limit_rests :
  let o := limitOrder "limit1" buy 100 5 in
  let res := addOrder epoch o newOrderMatcher in
  fst (fst res) = [] /\ getOrders (snd res) = [o].
Proof. vm_compute. repeat split. Qed.

(** ** The theorems at concrete engines *)

Lemma submitAll_reachable (l : list Order.t) :
  forall st, reachable st -> reachable (submitAll l st).
Proof.
  induction l as [|o l IH]; intros st H; [exact H|].
  apply IH. apply (reachable_call (CallAddOrder epoch o) H).
Qed.

Lemma testBook_reachable : reachable testBook.
Proof. apply submitAll_reachable. constructor. Qed.

Lemma zeroBidBook_reachable : reachable zeroBidBook.
Proof. apply submitAll_reachable. constructor. Qed.


(** C2 at scenario B: the limit buy at 100 trades at the ask's 99, as it
    would with a limit of 150. *)
Lemma C2_witness :
  let order := limitOrder "b" buy 100 2 in
  let order' := limitOrder "b" buy 150 2 in
  Order.type order = limit
  /\ opposingOrders order' askBook = opposingOrders order askBook
  /\ Forall
       (fun t => priority (Order.side order) (Trade.price t)
                   (Order.price order))
       (fst (fst (addOrder epoch order askBook)))
  /\ fst (fst (addOrder epoch order' askBook))
     = fst (fst (addOrder epoch order askBook)).
Proof.
  intros order order'.
  assert (Hopp : opposingOrders order' askBook
                 = opposingOrders order askBook) by reflexivity.
  split; [reflexivity|]. split; [assumption|].
  pose proof (C2_maker_price epoch order askBook) as (_ & _ & Hl & Hp).
  split; [exact (Hl eq_refl) | exact (Hp 150 Hopp)].
Defined.

(** C5 at the test book: a market buy of 100 finds 8 and leaves nothing
    resting. *)
Lemma C5_witness :
  Order.type (marketOrder "m" buy 100) = market
  /\ snd (fst (addOrder epoch (marketOrder "m" buy 100) testBook)) = None.
Proof.
  split; [reflexivity|].
  exact (proj1 (C5_market_never_rests epoch (marketOrder "m" buy 100)
                  testBook eq_refl)).
Defined.



(** C8 at the test book and its later rebuild, a market buy of 7, one
    clock standing still and one ticking. *)
Lemma C8_witness :
  NoDup (orders testBook) /\ NoDup (orders testBookLater)
  /\ getOrders testBook = getOrders testBookLater
  /\ sequenceId testBook = sequenceId testBookLater
  /\ map eraseTimestamp
       (fst (fst (addOrder epoch (marketOrder "m" buy 7) testBook)))
     = map eraseTimestamp
         (fst (fst (addOrder ticking (marketOrder "m" buy 7)
                      testBookLater))).
Proof.
  assert (H1 : NoDup (orders testBook)) by by_evaluation.
  assert (H2 : NoDup (orders testBookLater)) by by_evaluation.
  assert (H3 : getOrders testBook = getOrders testBookLater)
    by (vm_compute; reflexivity).
  assert (H4 : sequenceId testBook = sequenceId testBookLater)
    by reflexivity.
  repeat (split; [assumption|]).
  exact (proj1 (C8_determinism epoch ticking (marketOrder "m" buy 7)
                  testBook testBookLater H1 H2 H3 H4)).
Defined.

(** C9 at the test book: a limit buy at 100 for 0, which would match. *)
Lemma C9_witness :
  Order.quantity (limitOrder "z" buy 100 0) <= 0
  /\ addOrder epoch (limitOrder "z" buy 100 0) testBook
     = (([], None), testBook).
Proof.
  assert (H : Order.quantity (limitOrder "z" buy 100 0) <= 0)
    by by_evaluation.
  split; [assumption|].
  exact (C9_nonpositive_quantity_noop epoch (limitOrder "z" buy 100 0)
           testBook H).
Defined.

(** C10 over a life with a [clear] in it: the trade made before the
    [clear] is number 0, the one made after it number 1, the counter ends
    at 2; the [clear] itself empties the log and leaves the counter at
    1. *)
Lemma C10_witness :
  sequenceId (run clearCalls newOrderMatcher) = 2%N
  /\ map Trade.id (runTrades clearCalls newOrderMatcher)
     = [tradeId 0; tradeId 1]
  /\ NoDup (map Trade.id (runTrades clearCalls newOrderMatcher))
  /\ sequenceId (clear (run (firstn 2 clearCalls) newOrderMatcher)) = 1%N
  /\ trades (clear (run (firstn 2 clearCalls) newOrderMatcher)) = []
  /\ map Trade.id (trades (run (firstn 2 clearCalls) newOrderMatcher))
     = [tradeId 0].
Proof.
  pose proof (proj1 (proj2 (proj2 (proj2 C10_trade_counter)))
                clearCalls newOrderMatcher) as H.
  cbv zeta in H. destruct H as (Hseq & Hids & Hnd).
  pose proof (proj1 (proj2 C10_trade_counter)
                (run (firstn 2 clearCalls) newOrderMatcher))
    as (Hc & _ & Ht).
  split; [rewrite Hseq; vm_compute; reflexivity|].
  split; [rewrite Hids; vm_compute; reflexivity|].
  split; [exact Hnd|].
  split; [rewrite Hc; vm_compute; reflexivity|].
  split; [exact Ht|].
  vm_compute. reflexivity.
Defined.

(** * Further properties of the engine *)

(** ** Inverting the loop *)

Lemma matchLoop_nil_inv (now : nat -> Q) (order : Order.t) (rem : Q)
    (acc : list Trade.t) (st : OrderMatcher) (rem' : Q)
    (created : list Trade.t) (st' : OrderMatcher) :
  matchLoop now order [] rem acc st = (rem', acc ++ created, st') ->
  rem' = rem /\ created = [] /\ st' = st.
Proof.
  simpl. intros H. injection H as <- Hacc <-.
  rewrite <- (app_nil_r acc) in Hacc at 1.
  apply app_inv_head in Hacc. auto.
Qed.

Lemma matchLoop_break_inv (now : nat -> Q) (order : Order.t)
    (opp : list ref) (rem : Q) (acc : list Trade.t) (st : OrderMatcher)
    (rem' : Q) (created : list Trade.t) (st' : OrderMatcher) :
  rem <= 0 ->
  matchLoop now order opp rem acc st = (rem', acc ++ created, st') ->
  rem' = rem /\ created = [] /\ st' = st.
Proof.
  intros Hrem. rewrite matchLoop_break by assumption.
  intros H. injection H as <- Hacc <-.
  rewrite <- (app_nil_r acc) in Hacc at 1.
  apply app_inv_head in Hacc. auto.
Qed.

Lemma matchLoop_step_inv (now : nat -> Q) (order : Order.t) (r : ref)
    (rest : list ref) (rem : Q) (acc : list Trade.t) (st : OrderMatcher)
    (rem' : Q) (created : list Trade.t) (st' : OrderMatcher) :
  0 < rem ->
  matchLoop now order (r :: rest) rem acc st = (rem', acc ++ created, st') ->
  let q := Order.quantity (heap st r) in
  let tq := Qmin rem q in
  let t := mkTrade order (heap st r) (sequenceId st) tq (now (length acc)) in
  exists st1 created',
    created = t :: created'
    /\ matchLoop now order rest (rem - tq) (acc ++ [t]) st1
       = (rem', (acc ++ [t]) ++ created', st')
    /\ heap st1 = store (heap st) r (Order.with_quantity (heap st r) (q - tq))
    /\ orders st1
       = (if lez (q - tq)
          then removeById (heap st) (Order.id (heap st r)) (orders st)
          else orders st)
    /\ fresh st1 = fresh st
    /\ sequenceId st1 = (sequenceId st + 1)%N.
Proof.
  intros Hrem Hloop q tq t.
  rewrite matchLoop_cons in Hloop. apply lez_false in Hrem.
  rewrite Hrem in Hloop.
  destruct (matchStep_spec now order r rem acc st)
    as (st1 & Hstep & Hheap & Hfresh & _ & Hseq & Horders).
  rewrite Hstep in Hloop. fold q tq t in Hloop, Hheap, Horders.
  destruct (matchLoop_shape now order rest (rem - tq) (acc ++ [t]) st1)
    as (rem2 & created' & st2 & Hloop' & _).
  pose proof Hloop' as Heq. rewrite Hloop in Heq.
  injection Heq as _ Hacc _. rewrite <- app_assoc in Hacc.
  apply app_inv_head in Hacc. subst created.
  exists st1, created'. rewrite app_assoc in Hloop. auto 10.
Qed.

(** ** Which matched orders leave the book *)





(** ** What the loop does not touch *)

Lemma matchLoop_untouched (now : nat -> Q) (order : Order.t)
    (opp : list ref) :
  forall (rem : Q) (acc : list Trade.t) (st : OrderMatcher)
         (rem' : Q) (created : list Trade.t) (st' : OrderMatcher),
    matchLoop now order opp rem acc st = (rem', acc ++ created, st') ->
    forall x, ~ In x (firstn (length created) opp) ->
              heap st' x = heap st x.
Proof.
  induction opp as [|r rest IH];
    intros rem acc st rem' created st' Hloop x Hx.
  - apply matchLoop_nil_inv in Hloop. now destruct Hloop as (_ & _ & ->).
  - destruct (Qlt_le_dec 0 rem) as [Hpos|Hle].
    + destruct (matchLoop_step_inv _ _ _ _ _ _ _ Hpos Hloop)
        as (st1 & created' & -> & Hrest & Hheap & _).
      cbn [length firstn] in Hx.
      rewrite (IH _ _ _ _ _ _ Hrest x) by (intros H; apply Hx; now right).
      rewrite Hheap. apply store_other. intros ->. apply Hx. now left.
    + apply matchLoop_break_inv in Hloop; [|assumption].
      now destruct Hloop as (_ & _ & ->).
Qed.

(** ** The incoming order: what is matched and what is left *)

Lemma addOrder_loop (now : nat -> Q) (order : Order.t) (st : OrderMatcher) :
  exists rem' st1,
    matchLoop now order (opposingOrders order st) (Order.quantity order)
      [] st
    = (rem', [] ++ fst (fst (addOrder now order st)), st1)
    /\ addOrder now order st
       = (if rests order rem'
          then ((fst (fst (addOrder now order st)), Some (fresh st1)),
                {| heap := store (heap st1) (fresh st1)
                             (Order.with_quantity order rem');
                   fresh := S (fresh st1);
                   orders := orders st1 ++ [fresh st1];
                   trades := trades st1
                             ++ fst (fst (addOrder now order st));
                   sequenceId := sequenceId st1 |})
          else ((fst (fst (addOrder now order st)), None),
                set_trades st1
                  (trades st1 ++ fst (fst (addOrder now order st)))))
    /\ fresh st1 = fresh st.
Proof.
  destruct (matchLoop_shape now order (opposingOrders order st)
              (Order.quantity order) [] st)
    as (rem' & created & st1 & Hloop & _ & _ & Hf & _).
  exists rem', st1. simpl in Hloop.
  pose proof (addOrder_eq _ _ _ Hloop) as Heq.
  assert (Hcr : fst (fst (addOrder now order st)) = created).
  { rewrite Heq. now destruct (rests order rem'). }
  rewrite Hcr. simpl. auto.
Qed.

(** ** Where the walk stops, and what it leaves in the book *)

Lemma opposingOrders_resting (order : Order.t) (st : OrderMatcher)
    (r : ref) :
  In r (opposingOrders order st) <->
  In r (orders st) /\ eligible (heap st) order r = true.
Proof.
  rewrite opposingOrders_eq. rewrite <- filter_In. split; intros H.
  - eapply Permutation_in; [apply sort_perm | exact H].
  - eapply Permutation_in; [apply Permutation_sym, sort_perm | exact H].
Qed.

Lemma NoDup_map_inj (A B : Type) (f : A -> B) (l : list A) (a b : A) :
  NoDup (map f l) -> In a l -> In b l -> f a = f b -> a = b.
Proof.
  induction l as [|x l IH]; simpl; intros Hnd Ha Hb Hf; [contradiction|].
  apply NoDup_cons_iff in Hnd. destruct Hnd as [Hx Hnd].
  destruct Ha as [->|Ha], Hb as [->|Hb]; auto.
  - exfalso. apply Hx. rewrite Hf. now apply in_map.
  - exfalso. apply Hx. rewrite <- Hf. now apply in_map.
Qed.

Lemma matchLoop_keeps (now : nat -> Q) (order : Order.t)
    (opp : list ref) :
  forall (rem : Q) (acc : list Trade.t) (st : OrderMatcher)
         (rem' : Q) (created : list Trade.t) (st' : OrderMatcher),
    matchLoop now order opp rem acc st = (rem', acc ++ created, st') ->
    (forall a b, In a (orders st) -> In b opp ->
                 Order.id (heap st a) = Order.id (heap st b) -> a = b) ->
    forall x, In x (orders st) ->
              ~ In x (firstn (length created) opp) ->
              In x (orders st').
Proof.
  induction opp as [|r rest IH];
    intros rem acc st rem' created st' Hloop Hid x Hx Hnot.
  - apply matchLoop_nil_inv in Hloop. now destruct Hloop as (_ & _ & ->).
  - destruct (Qlt_le_dec 0 rem) as [Hpos|Hle].
    + destruct (@matchLoop_step_inv _ _ _ _ _ _ _ _ _ _ Hpos Hloop)
        as (st1 & created' & -> & Hrest & Hheap & Horders & _).
      cbn [length firstn] in Hnot.
      assert (Hids : forall y, Order.id (heap st1 y) = Order.id (heap st y)).
      { intros y. rewrite Hheap.
        now destruct (static_fields
                        (static_store_quantity (heap st) r
                           (Order.quantity (heap st r)
                            - Qmin rem (Order.quantity (heap st r))) y))
          as [-> _]. }
      assert (Hsub : forall y, In y (orders st1) -> In y (orders st)).
      { intros y. rewrite Horders. destruct (lez _); [|trivial].
        intros H. now apply removeById_In in H. }
      apply (IH _ _ _ _ _ _ Hrest).
      * intros a b Ha Hb. rewrite !Hids. intros E.
        apply Hid; [now apply Hsub | now right | assumption].
      * rewrite Horders. destruct (lez _); [|assumption].
        unfold removeById. apply filter_In. split; [assumption|].
        apply negb_true_iff. apply String.eqb_neq. intros E.
        apply Hnot. left. symmetry.
        apply Hid; [assumption | now left | assumption].
      * intros H. apply Hnot. now right.
    + apply matchLoop_break_inv in Hloop; [|assumption].
      now destruct Hloop as (_ & _ & ->).
Qed.

(** X4. A call writes only the orders it trades against: any other existing
    order object keeps its value, and, identifiers being distinct, any
    other resting order stays in the book. *)
Theorem addOrder_leaves_others :
  forall (now : nat -> Q) (order : Order.t) (st : OrderMatcher),
    allocated st ->
    let newTrades := fst (fst (addOrder now order st)) in
    let matched := firstn (length newTrades) (opposingOrders order st) in
    let st' := snd (addOrder now order st) in
    forall x,
      In x (orders st) -> ~ In x matched ->
      heap st' x = heap st x
      /\ (uniqueIds st -> In x (orders st')).
Proof.
  intros now order st Hal newTrades matched st' x Hx Hnot.
  subst newTrades matched st'.
  destruct (addOrder_loop now order st) as (rem' & st1 & Hloop & Heq & Hf).
  set (created := fst (fst (addOrder now order st))) in *.
  assert (Hlt : (x < fresh st1)%nat).
  { unfold allocated in Hal. rewrite Forall_forall in Hal.
    rewrite Hf. now apply Hal. }
  split.
  - rewrite Heq. destruct (rests order rem'); cbn [snd heap set_trades].
    + rewrite store_other by lia.
      apply (@matchLoop_untouched _ _ _ _ _ _ _ _ _ Hloop x Hnot).
    + apply (@matchLoop_untouched _ _ _ _ _ _ _ _ _ Hloop x Hnot).
  - intros Huniq.
    assert (H1 : In x (orders st1)).
    { apply (@matchLoop_keeps _ _ _ _ _ _ _ _ _ Hloop); try assumption.
      intros a b Ha Hb E. apply opposingOrders_resting in Hb.
      destruct Hb as [Hb _].
      apply (@NoDup_map_inj _ _ (fun r => Order.id (heap st r))
               (orders st) a b Huniq Ha Hb E). }
    rewrite Heq. destruct (rests order rem'); cbn [snd orders set_trades].
    + apply in_or_app. now left.
    + assumption.
Qed.

Lemma with_quantity_same (o : Order.t) :
  Order.with_quantity o (Order.quantity o) = o.
Proof. now destruct o. Qed.

(** X5. A limit order of positive quantity that no resting order is eligible
    for makes no trade and rests as it came, after the orders already
    there. *)
Theorem limit_without_match_rests :
  forall (now : nat -> Q) (order : Order.t) (st : OrderMatcher),
    allocated st ->
    Order.type order = limit ->
    0 < Order.quantity order ->
    Forall (fun o => eligibleV order o = false) (getOrders st) ->
    let res := addOrder now order st in
    fst (fst res) = []
    /\ snd (fst res) = Some (fresh st)
    /\ getOrders (snd res) = getOrders st ++ [order]
    /\ trades (snd res) = trades st
    /\ sequenceId (snd res) = sequenceId st.
Proof.
  intros now order st Hal Hty Hq Hnone res. subst res.
  assert (Hopp : opposingOrders order st = []).
  { rewrite opposingOrders_eq.
    replace (filter (eligible (heap st) order) (orders st)) with (@nil ref);
      [reflexivity|].
    symmetry. apply filter_none. unfold getOrders in Hnone.
    rewrite Forall_map in Hnone. exact Hnone. }
  assert (Hloop : matchLoop now order (opposingOrders order st)
                    (Order.quantity order) [] st
                  = (Order.quantity order, [], st))
    by (now rewrite Hopp).
  rewrite (addOrder_eq _ _ _ Hloop).
  unfold rests. rewrite Hty. apply gtz_true in Hq. rewrite Hq.
  cbn [fst snd trades sequenceId]. rewrite app_nil_r.
  repeat (split; [reflexivity|]). split; [|split; reflexivity].
  unfold getOrders. cbn [heap orders]. rewrite map_app. simpl.
  rewrite store_same, with_quantity_same. f_equal.
  apply map_ext_in. intros r Hr. apply store_other.
  unfold allocated in Hal. rewrite Forall_forall in Hal.
  apply Hal in Hr. lia.
Qed.

(** ** The book is never crossed *)









(** ** Cancelling an order *)

Lemma filter_length_lt (A : Type) (f : A -> bool) (l : list A) :
  (length (filter f l) < length l)%nat <->
  exists x, In x l /\ f x = false.
Proof.
  induction l as [|x l IH]; simpl.
  - split; [lia | intros (x & [] & _)].
  - pose proof (filter_length_le f l) as Hle.
    destruct (f x) eqn:E; simpl.
    + rewrite <- Nat.succ_lt_mono, IH. split.
      * intros (y & Hy & Hf). eauto.
      * intros (y & [<-|Hy] & Hf); [congruence | eauto].
    + split; [|lia]. intros _. eauto.
Qed.

Lemma filter_idem (A : Type) (f : A -> bool) (l : list A) :
  filter f (filter f l) = filter f l.
Proof.
  induction l as [|x l IH]; [reflexivity|].
  simpl. destruct (f x) eqn:E; simpl; [rewrite E|]; now rewrite ?IH.
Qed.

(** X7. [removeOrder] reports whether an order of that identifier was
    resting; afterwards none is, the other resting orders are there in the
    order they had, the trade log and the counter are as they were, and a
    second removal finds nothing and changes nothing. *)
Theorem removeOrder_cancels :
  forall (orderId : string) (st : OrderMatcher),
    let removed := fst (removeOrder orderId st) in
    let st' := snd (removeOrder orderId st) in
    (removed = true <->
     exists o, In o (getOrders st) /\ Order.id o = orderId)
    /\ getOrders st'
       = filter (fun o => negb (String.eqb (Order.id o) orderId))
           (getOrders st)
    /\ (forall o, In o (getOrders st') -> Order.id o <> orderId)
    /\ trades st' = trades st
    /\ sequenceId st' = sequenceId st
    /\ removeOrder orderId st' = (false, st').
Proof.
  intros orderId st removed st'. subst removed st'.
  unfold removeOrder. cbn [fst snd orders heap trades sequenceId set_orders].
  assert (Hvals :
            map (heap st) (removeById (heap st) orderId (orders st))
            = filter (fun o => negb (String.eqb (Order.id o) orderId))
                (map (heap st) (orders st))).
  { unfold removeById.
    apply (map_filter_comm (heap st)
             (fun o => negb (String.eqb (Order.id o) orderId))). }
  split; [|split; [|split; [|split; [|split]]]]; try reflexivity.
  - rewrite Nat.ltb_lt. unfold removeById. rewrite filter_length_lt.
    unfold getOrders. split.
    + intros (r & Hr & Hf). exists (heap st r).
      split; [now apply in_map|].
      apply negb_false_iff in Hf. now apply String.eqb_eq.
    + intros (o & Ho & Hid). apply in_map_iff in Ho.
      destruct Ho as (r & <- & Hr). exists r. split; [assumption|].
      apply negb_false_iff. now apply String.eqb_eq.
  - exact Hvals.
  - intros o Ho.
    change (In o (map (heap st)
                    (removeById (heap st) orderId (orders st)))) in Ho.
    rewrite Hvals in Ho. apply filter_In in Ho. destruct Ho as [_ Ho].
    apply negb_true_iff in Ho. now apply String.eqb_neq.
  - unfold removeById, set_orders. cbn [heap orders fresh trades sequenceId].
    rewrite filter_idem. rewrite Nat.ltb_irrefl. reflexivity.
Qed.

Lemma call_log (c : Call) (st : OrderMatcher) :
  c <> CallClear -> trades (call c st) = trades st ++ callTrades c st.
Proof.
  destruct c as [now order|orderId| |]; cbn [call callTrades]; intros Hc;
    try (now rewrite app_nil_r).
  destruct (addOrder_shape now order st)
    as (rem' & created & st1 & _ & -> & _ & _ & _ & _ & _ & -> & _).
  reflexivity.
Qed.

(** X8. [getTrades] lists the log most recent first: a call puts its trades,
    last made first, in front of what was listed before, and so does any
    sequence of calls without a [clear]. *)
Theorem getTrades_most_recent_first :
  (forall now order st,
      getTrades (snd (addOrder now order st))
      = rev (fst (fst (addOrder now order st))) ++ getTrades st)
  /\ (forall calls st,
         ~ In CallClear calls ->
         getTrades (run calls st)
         = rev (runTrades calls st) ++ getTrades st).
Proof.
  split.
  - intros now order st. unfold getTrades.
    destruct (addOrder_shape now order st)
      as (rem' & created & st1 & _ & -> & _ & _ & _ & _ & _ & -> & _).
    apply rev_app_distr.
  - unfold getTrades. intros calls.
    induction calls as [|c calls IH]; intros st Hno; [reflexivity|].
    cbn [run runTrades].
    rewrite IH by (intros H; apply Hno; now right).
    rewrite call_log by (intros ->; apply Hno; now left).
    now rewrite !rev_app_distr, app_assoc.
Qed.

Lemma increasing_app (ns ms : list N) (bound : N) :
  increasing ns -> increasing ms ->
  Forall (fun n => (n < bound)%N) ns ->
  Forall (fun m => (bound <= m)%N) ms ->
  increasing (ns ++ ms).
Proof.
  intros Hn Hm Hlt Hge. apply StronglySorted_app; try assumption.
  rewrite Forall_forall in *. intros a b Ha Hb.
  specialize (Hlt a Ha). specialize (Hge b Hb). lia.
Qed.

Lemma seqN_increasing (s : N) (n : nat) : increasing (seqN s n).
Proof.
  revert s. induction n as [|n IH]; intros s.
  - constructor.
  - rewrite seqN_S. constructor; [apply IH|].
    apply Forall_forall. intros x Hx. apply seqN_bounds in Hx. lia.
Qed.

Lemma increasing_NoDup (ns : list N) : increasing ns -> NoDup ns.
Proof.
  induction 1 as [|n ns _ IH Hn]; constructor; [|assumption].
  intros Hin. rewrite Forall_forall in Hn. specialize (Hn n Hin). lia.
Qed.

(** X9. In every state the engine reaches the trade log holds trades
    numbered in increasing order below the counter, so that no two
    entries share an identifier. *)
Theorem trade_log_sound :
  forall st : OrderMatcher,
    reachable st ->
    NoDup (map Trade.id (trades st))
    /\ exists ns,
         map Trade.id (trades st) = map tradeId ns
         /\ increasing ns
         /\ Forall (fun n => (n < sequenceId st)%N) ns.
Proof.
  intros st Hreach.
  assert (H : exists ns,
                map Trade.id (trades st) = map tradeId ns
                /\ increasing ns
                /\ Forall (fun n => (n < sequenceId st)%N) ns).
  { induction Hreach as [|c st Hreach IH].
    - exists []. repeat split; constructor.
    - destruct IH as (ns & Hids & Hinc & Hlt).
      destruct c as [now order|orderId| |]; cbn [call].
      + destruct (addOrder_shape now order st)
          as (rem' & created & st1 & _ & Hcr & _ & _ & _ & _ & Hseq & Htr
              & Hid & _).
        rewrite Htr, Hseq.
        exists (ns ++ seqN (sequenceId st) (length created)).
        rewrite !map_app, Hids, Hid. split; [reflexivity|]. split.
        * apply increasing_app with (bound := sequenceId st);
            [assumption | apply seqN_increasing | assumption|].
          apply Forall_forall. intros x Hx.
          apply seqN_bounds in Hx. lia.
        * apply Forall_app. split.
          -- eapply Forall_impl; [|exact Hlt]. cbn. intros; lia.
          -- apply Forall_forall. intros x Hx.
             apply seqN_bounds in Hx. lia.
      + now exists ns.
      + exists []. repeat split; constructor.
      + now exists ns. }
  destruct H as (ns & Hids & Hinc & Hlt).
  split; [|now exists ns].
  rewrite Hids. apply Injective_map_NoDup.
  - intros m n. apply tradeId_inj.
  - now apply increasing_NoDup.
Qed.

(** ** The snapshot accounts for every resting order *)

Lemma addToLevel_sums (m : PriceMap) (o : Order.t) :
  sumQ (map (fun e => fst (snd e)) (addToLevel m o))
  == sumQ (map (fun e => fst (snd e)) m) + Order.quantity o
  /\ list_sum (map (fun e => snd (snd e)) (addToLevel m o))
     = (list_sum (map (fun e => snd (snd e)) m) + 1)%nat.
Proof.
  induction m as [|[k' [q' c']] m IH].
  - unfold addToLevel. simpl. split; [ring | reflexivity].
  - destruct (Qeq_bool k' (Order.price o)) eqn:E.
    + unfold addToLevel. simpl. rewrite E. simpl. split; [ring | lia].
    + rewrite (@addToLevel_skip k' (q', c') m o E).
      destruct IH as [IHq IHc]. simpl. rewrite IHq, IHc.
      split; [ring | lia].
Qed.

Lemma priceMap_sums (l : list Order.t) :
  forall m : PriceMap,
    sumQ (map (fun e => fst (snd e)) (fold_left addToLevel l m))
    == sumQ (map (fun e => fst (snd e)) m) + sumQ (map Order.quantity l)
    /\ list_sum (map (fun e => snd (snd e)) (fold_left addToLevel l m))
       = (list_sum (map (fun e => snd (snd e)) m) + length l)%nat.
Proof.
  induction l as [|o l IH]; intros m; simpl.
  - split; [ring | lia].
  - destruct (IH (addToLevel m o)) as [IHq IHc].
    destruct (addToLevel_sums m o) as [Hq Hc].
    rewrite IHq, IHc, Hq, Hc. split; [ring | lia].
Qed.

Lemma list_sum_perm (l l' : list nat) :
  Permutation l l' -> list_sum l = list_sum l'.
Proof.
  induction 1 as [|x l l' _ IH|x y l|l l' l'' _ IH1 _ IH2]; simpl; lia.
Qed.

Lemma runningTotals_counts (ls : list OrderBookLevel.t) (a : Q) :
  map OrderBookLevel.count (runningTotals a ls)
  = map OrderBookLevel.count ls.
Proof.
  revert a. induction ls as [|l ls IH]; intros a; simpl; [reflexivity|].
  now rewrite IH.
Qed.


Lemma levels_empty_iff (st : OrderMatcher) (s : Side) :
  aggregateOrdersByPrice s st = [] <-> sideOrdersOf s st = [].
Proof.
  set (resting := sideOrdersOf s st).
  set (m := fold_left addToLevel resting []).
  set (sorted := sort (levelCompare s) (map levelOfEntry m)).
  assert (Hlevels : aggregateOrdersByPrice s st = runningTotals 0 sorted)
    by reflexivity.
  destruct (priceMap_sums resting []) as [_ Hc]. fold m in Hc.
  simpl in Hc.
  assert (Hperm : Permutation sorted (map levelOfEntry m))
    by apply sort_perm.
  assert (Hcount : list_sum (map OrderBookLevel.count
                               (aggregateOrdersByPrice s st))
                   = length resting).
  { rewrite Hlevels, runningTotals_counts.
    rewrite (list_sum_perm (Permutation_map OrderBookLevel.count Hperm)).
    rewrite map_map. cbn [levelOfEntry OrderBookLevel.count].
    exact Hc. }
  split; intros H.
  - rewrite H in Hcount. simpl in Hcount.
    destruct resting; [reflexivity | discriminate].
  - unfold aggregateOrdersByPrice. fold resting. now rewrite H.
Qed.

Lemma side_empty_iff (st : OrderMatcher) (s : Side) :
  sideOrdersOf s st = []
  <-> forall r, In r (orders st) -> Order.side (heap st r) <> s.
Proof.
  rewrite sideOrdersOf_refs. split.
  - intros H r Hr Hs.
    assert (Hin : In (heap st r)
                    (map (heap st) (filter (onSide st s) (orders st)))).
    { apply in_map, filter_In. split; [assumption|].
      unfold onSide. now apply Side_eqb_eq. }
    rewrite H in Hin. destruct Hin.
  - intros H.
    destruct (filter (onSide st s) (orders st)) as [|r l] eqn:E;
      [reflexivity|].
    assert (Hin : In r (filter (onSide st s) (orders st)))
      by (rewrite E; now left).
    apply filter_In in Hin. destruct Hin as [Hr Hs].
    unfold onSide in Hs. apply Side_eqb_eq in Hs.
    now elim (H r Hr).
Qed.


(** X11. A side of the snapshot is empty exactly when no order rests on
    that side; with nothing resting, in particular after [clear], the
    snapshot has no levels, mid-price 0 and spread 0. *)
Theorem empty_book_snapshot :
  forall st : OrderMatcher,
    let ob := fst (getOrderBook st) in
    (OrderBook.bids ob = []
     <-> forall r, In r (orders st) -> Order.side (heap st r) <> buy)
    /\ (OrderBook.asks ob = []
        <-> forall r, In r (orders st) -> Order.side (heap st r) <> sell)
    /\ (orders st = [] -> ob = emptyOrderBook)
    /\ fst (getOrderBook (clear st)) = emptyOrderBook
    /\ orders (clear st) = [] /\ trades (clear st) = [].
Proof.
  intros st ob.
  assert (Hside : forall s,
             firstn 20 (aggregateOrdersByPrice s st) = []
             <-> forall r, In r (orders st) ->
                           Order.side (heap st r) <> s).
  { intros s. rewrite <- side_empty_iff, <- (levels_empty_iff st s).
    destruct (aggregateOrdersByPrice s st); simpl; split; intros H;
      try reflexivity; discriminate. }
  split; [apply Hside|]. split; [apply Hside|].
  split; [|repeat split].
  intros Hnone. subst ob. unfold getOrderBook, aggregateOrdersByPrice,
    sideOrdersOf, getOrders. rewrite Hnone. reflexivity.
Qed.

(** * The store *)

(** ** The trade list of the store *)

Lemma firstn_app_firstn (A : Type) (l l' : list A) :
  forall n m : nat,
    (n <= m)%nat ->
    firstn n (l ++ firstn m l') = firstn n (l ++ l').
Proof.
  induction l as [|y l IH]; intros n m Hnm.
  - cbn [app]. rewrite firstn_firstn. f_equal. lia.
  - destruct n as [|n]; [reflexivity|].
    change (y :: firstn n (l ++ firstn m l') = y :: firstn n (l ++ l')).
    f_equal. apply IH. lia.
Qed.

Lemma fold_addTrade (ts : list Trade.t) :
  forall s : AppState.t,
    (length (AppState.trades s) <= 100)%nat ->
    fold_left (fun s trade => addTrade trade s) ts s
    = setTrades (firstn 100 (rev ts ++ AppState.trades s)) s.
Proof.
  induction ts as [|t ts IH]; intros s Hlen.
  - cbn [fold_left rev app]. rewrite firstn_all2 by assumption.
    now destruct s.
  - cbn [fold_left]. rewrite IH.
    + unfold addTrade, setTrades. cbn [AppState.trades AppState.orderBook
        AppState.isConnected AppState.isPaused AppState.currentOrder
        AppState.isOrderModalOpen].
      f_equal. cbn [rev]. rewrite <- app_assoc.
      change ([t] ++ AppState.trades s) with (t :: AppState.trades s).
      replace (rev ts ++ firstn 100 (t :: AppState.trades s))
        with (rev ts ++ firstn 100 ([t] ++ AppState.trades s))
        by reflexivity.
      apply firstn_app_firstn. apply Nat.le_refl.
    + unfold addTrade. cbn [AppState.trades setTrades].
      apply firstn_le_length.
Qed.

(** X12. The store's trade list never holds more than 100 trades: [addTrade]
    puts the new trade in front of the first 99 of the others, and no
    sequence of actions of the application, orders submitted and messages
    of the feed included, makes the list longer than 100. *)
Theorem store_trades_bounded :
  (forall t s,
      AppState.trades (addTrade t s) = t :: firstn 99 (AppState.trades s)
      /\ (length (AppState.trades (addTrade t s)) <= 100)%nat)
  /\ (forall parseFloat actions w,
         (length (AppState.trades (appState w)) <= 100)%nat ->
         (length (AppState.trades
                    (appState (actAll parseFloat actions w))) <= 100)%nat).
Proof.
  assert (Hadd : forall t s,
             (length (AppState.trades (addTrade t s)) <= 100)%nat).
  { intros t s. unfold addTrade. cbn [AppState.trades setTrades].
    apply firstn_le_length. }
  split.
  - intros t s. split; [reflexivity | apply Hadd].
  - intros parseFloat actions.
    induction actions as [|a actions IH]; intros w Hlen; [exact Hlen|].
    cbn [actAll]. apply IH.
    destruct a as [orderId time now orderData|data|ob|t| |c|o];
      cbn [act appState]; try assumption; try apply Hadd.
    + unfold submitOrder.
      destruct (lez _); [assumption|].
      destruct (isLimit _ && lez _); [assumption|].
      destruct (addOrder now _ (matcher w)) as [[newTrades rem] m].
      destruct (getOrderBook m) as [ob m'] eqn:Hob.
      cbn [appState resetForm setOrderBook AppState.trades].
      rewrite fold_addTrade by assumption.
      cbn [setTrades AppState.trades]. apply firstn_le_length.
    + unfold onMessage. destruct (AppState.isPaused (appState w));
        [assumption|].
      destruct data; cbn [setOrderBook AppState.trades];
        try assumption; apply Hadd.
    + cbn. lia.
Qed.

(** ** Submitting an order through the store *)

(** X13. [submitOrder] drops an order whose parsed quantity, or whose limit
    price, is not above zero, leaving store and engine as they were; any
    other order goes to the engine, after which the store holds the engine's
    snapshot, the new trades in front of the trade list, last made first,
    cut at 100, the form is reset and the modal closed. *)
Theorem submitOrder_effect :
  forall (parseFloat : string -> option Q) (orderId : string) (time : Q)
         (now : nat -> Q) (orderData : OrderFormData.t) (w : World),
    let order := orderOfForm parseFloat orderId time orderData in
    let w' := submitOrder parseFloat orderId time now orderData w in
    (Order.quantity order <= 0
     \/ (Order.type order = limit /\ Order.price order <= 0) ->
     w' = w)
    /\ (0 < Order.quantity order ->
        (Order.type order = limit -> 0 < Order.price order) ->
        let res := addOrder now order (matcher w) in
        matcher w' = snd res
        /\ AppState.orderBook (appState w') = fst (getOrderBook (snd res))
        /\ ((length (AppState.trades (appState w)) <= 100)%nat ->
            AppState.trades (appState w')
            = firstn 100 (rev (fst (fst res))
                            ++ AppState.trades (appState w)))
        /\ AppState.currentOrder (appState w') = initialOrderForm
        /\ AppState.isOrderModalOpen (appState w') = false
        /\ AppState.isPaused (appState w')
           = AppState.isPaused (appState w)
        /\ AppState.isConnected (appState w')
           = AppState.isConnected (appState w)).
Proof.
  intros parseFloat orderId time now orderData w order w'.
  subst w'. unfold submitOrder. fold order. split.
  - intros [Hq|[Hty Hp]].
    + apply lez_true in Hq. now rewrite Hq.
    + destruct (lez (Order.quantity order)); [reflexivity|].
      apply lez_true in Hp. now rewrite Hty, Hp.
  - intros Hq Hp. apply lez_false in Hq. rewrite Hq.
    assert (Hprice : isLimit (Order.type order)
                     && lez (Order.price order) = false).
    { destruct (Order.type order) eqn:Hty; [reflexivity|].
      cbn. apply lez_false. now apply Hp. }
    rewrite Hprice.
    destruct (addOrder now order (matcher w)) as [[newTrades rem] m].
    cbn [fst snd getOrderBook appState matcher resetForm setOrderBook
         AppState.orderBook AppState.trades AppState.currentOrder
         AppState.isOrderModalOpen AppState.isPaused AppState.isConnected].
    split; [reflexivity|]. split; [reflexivity|].
    split.
    { intros Hlen. rewrite fold_addTrade by assumption. reflexivity. }
    split; [reflexivity|]. split; [reflexivity|].
    assert (Hsame : forall ts s,
               AppState.isPaused
                 (fold_left (fun s trade => addTrade trade s) ts s)
               = AppState.isPaused s
               /\ AppState.isConnected
                    (fold_left (fun s trade => addTrade trade s) ts s)
                  = AppState.isConnected s).
    { induction ts as [|t ts IH]; intros s; [split; reflexivity|].
      cbn [fold_left]. destruct (IH (addTrade t s)) as [-> ->].
      split; reflexivity. }
    apply Hsame.
Qed.

(** ** The form's check and the store's *)

Lemma parseFloatOr0_positive (parseFloat : string -> option Q)
    (s : string) :
  0 < parseFloatOr0 parseFloat s <->
  exists q, parseFloat s = Some q /\ 0 < q.
Proof.
  unfold parseFloatOr0. destruct (parseFloat s) as [q|].
  - destruct (truthy q) eqn:E.
    + split; [eauto | now intros (q' & [= <-] & H)].
    + apply truthy_false in E. split; [lra|].
      intros (q' & [= <-] & H). lra.
  - split; [lra | intros (q & H & _); discriminate].
Qed.

(** X14. The form's [validateForm] and the store's check agree on numeric
    input: what the store accepts the form accepts, and what the form
    accepts the store accepts when the fields parse as numbers; an order
    whose quantity does not parse is dropped by the store, though the form
    raises no quantity error for it unless the field is empty. *)
Theorem form_and_store_validation :
  forall (parseFloat : string -> option Q) (orderId : string) (time : Q)
         (orderData : OrderFormData.t),
    parseFloat EmptyString = None ->
    let order := orderOfForm parseFloat orderId time orderData in
    let accepted :=
      0 < Order.quantity order
      /\ (Order.type order = limit -> 0 < Order.price order) in
    (accepted -> validateForm parseFloat orderData = true)
    /\ (validateForm parseFloat orderData = true ->
        parseFloat (OrderFormData.quantity orderData) <> None ->
        (OrderFormData.type orderData = limit ->
         parseFloat (OrderFormData.price orderData) <> None) ->
        accepted)
    /\ (parseFloat (OrderFormData.quantity orderData) = None ->
        (forall now w,
            submitOrder parseFloat orderId time now orderData w = w)
        /\ (OrderFormData.quantity orderData <> EmptyString ->
            quantityError parseFloat orderData = false)).
Proof.
  intros parseFloat orderId time orderData Hempty order accepted.
  subst order accepted. cbn [orderOfForm Order.quantity Order.price
                             Order.type].
  assert (Hnonempty : forall s q,
             parseFloat s = Some q -> String.eqb s EmptyString = false).
  { intros s q Hs. apply String.eqb_neq. intros ->. congruence. }
  split; [|split].
  - intros [Hq Hp]. unfold validateForm, quantityError, priceError.
    apply parseFloatOr0_positive in Hq. destruct Hq as (q & Hpq & Hq).
    rewrite Hpq, (Hnonempty _ _ Hpq). apply lez_false in Hq. rewrite Hq.
    cbn. destruct (OrderFormData.type orderData) eqn:Hty; [reflexivity|].
    specialize (Hp eq_refl). apply parseFloatOr0_positive in Hp.
    destruct Hp as (p & Hpp & Hp).
    rewrite Hpp, (Hnonempty _ _ Hpp). apply lez_false in Hp.
    now rewrite Hp.
  - unfold validateForm, quantityError, priceError. intros Hv Hpq Hpp.
    apply andb_true_iff in Hv. destruct Hv as [Hvq Hvp].
    apply negb_true_iff in Hvq, Hvp. apply orb_false_iff in Hvq.
    destruct Hvq as [_ Hvq]. split.
    + apply parseFloatOr0_positive.
      destruct (parseFloat (OrderFormData.quantity orderData)) as [q|];
        [|contradiction].
      exists q. split; [reflexivity | now apply lez_false].
    + intros Hty. rewrite Hty in Hvp. cbn in Hvp.
      apply orb_false_iff in Hvp. destruct Hvp as [_ Hvp].
      rewrite Hty. apply parseFloatOr0_positive.
      destruct (parseFloat (OrderFormData.price orderData)) as [p|];
        [|now elim (Hpp Hty)].
      exists p. split; [reflexivity | now apply lez_false].
  - intros Hnone. split.
    + intros now w. unfold submitOrder, orderOfForm, parseFloatOr0.
      cbn [Order.quantity]. rewrite Hnone. reflexivity.
    + intros Hne. unfold quantityError. rewrite Hnone.
      apply String.eqb_neq in Hne. now rewrite Hne.
Qed.

(** ** The engine as the store drives it *)









(** * The simulated feed: the books it broadcasts *)


















(** * The simulated feed: trades, timers and pausing *)

Lemma timerDiscipline_schedule (rand : nat -> Q) (k : nat)
    (fs : FakeSocket.t) (tm : Timers) :
  (0 < nextTimer tm)%nat -> NoDup (FakeSocket.subscribers fs) ->
  pending tm = [] -> FakeSocket.isRunning fs = true ->
  timerDiscipline (FakeSocket.scheduleNextUpdate rand k (fs, tm))
  /\ FakeSocket.isRunning
       (fst (FakeSocket.scheduleNextUpdate rand k (fs, tm))) = true
  /\ FakeSocket.subscribers
       (fst (FakeSocket.scheduleNextUpdate rand k (fs, tm)))
     = FakeSocket.subscribers fs
  /\ FakeSocket.sequenceId
       (fst (FakeSocket.scheduleNextUpdate rand k (fs, tm)))
     = FakeSocket.sequenceId fs.
Proof.
  intros Hn Hnd Hp Hrun. unfold FakeSocket.scheduleNextUpdate.
  rewrite Hrun. cbn [negb].
  destruct (FakeSocketConfig.updateInterval (FakeSocket.config fs))
    as [min max].
  unfold setTimeout. rewrite Hp. cbn [app].
  split; [|now cbn].
  unfold timerDiscipline. cbn. rewrite Hrun.
  split; [lia|]. split; [assumption|].
  unfold oneTimer. cbn. eexists _, _. repeat split; [lia|lia].
Qed.

Lemma timerDiscipline_start (rand : nat -> Q) (k : nat)
    (s : FakeSocket.t * Timers) :
  timerDiscipline s ->
  timerDiscipline (FakeSocket.start rand k s)
  /\ FakeSocket.isRunning (fst (FakeSocket.start rand k s)) = true
  /\ FakeSocket.subscribers (fst (FakeSocket.start rand k s))
     = FakeSocket.subscribers (fst s)
  /\ FakeSocket.sequenceId (fst (FakeSocket.start rand k s))
     = FakeSocket.sequenceId (fst s).
Proof.
  destruct s as [fs tm]. intros (Hn & Hnd & Hrun).
  unfold FakeSocket.start. cbn [fst snd] in *.
  destruct (FakeSocket.isRunning fs) eqn:E.
  - cbn [fst]. split; [|now rewrite E].
    unfold timerDiscipline. cbn [fst snd]. now rewrite E.
  - apply (@timerDiscipline_schedule rand k
             (FakeSocket.set_isRunning true fs) tm); auto.
Qed.

Lemma clearTimeout_one (id : nat) (delay : Q) (tm : Timers) :
  pending tm = [(id, delay)] -> pending (clearTimeout id tm) = [].
Proof.
  intros H. unfold clearTimeout. cbn. rewrite H. cbn.
  now rewrite Nat.eqb_refl.
Qed.

Lemma timerDiscipline_stop (s : FakeSocket.t * Timers) :
  timerDiscipline s ->
  timerDiscipline (FakeSocket.stop s)
  /\ FakeSocket.isRunning (fst (FakeSocket.stop s)) = false
  /\ pending (snd (FakeSocket.stop s)) = []
  /\ FakeSocket.subscribers (fst (FakeSocket.stop s))
     = FakeSocket.subscribers (fst s)
  /\ FakeSocket.sequenceId (fst (FakeSocket.stop s))
     = FakeSocket.sequenceId (fst s).
Proof.
  destruct s as [fs tm]. intros (Hn & Hnd & Hrun).
  cbn [fst snd] in *. unfold FakeSocket.stop.
  destruct (FakeSocket.isRunning fs) eqn:E.
  - destruct Hrun as (id & delay & Hid & Hp & Hlt). cbn [fst snd] in *.
    rewrite Hid.
    destruct (Nat.eqb_spec id 0) as [->|_]; [lia|].
    pose proof (@clearTimeout_one id delay tm Hp) as Hc.
    cbn [fst snd]. unfold timerDiscipline. cbn. rewrite Hp. cbn.
    rewrite Nat.eqb_refl. cbn. repeat split; auto.
  - assert (Hsame :
      pending
        (snd (match FakeSocket.intervalId fs with
              | Some id =>
                  if Nat.eqb id 0 then (fs, tm)
                  else (FakeSocket.set_intervalId None fs,
                        clearTimeout id tm)
              | None => (fs, tm)
              end)) = []
      /\ nextTimer
           (snd (match FakeSocket.intervalId fs with
                 | Some id =>
                     if Nat.eqb id 0 then (fs, tm)
                     else (FakeSocket.set_intervalId None fs,
                           clearTimeout id tm)
                 | None => (fs, tm)
                 end)) = nextTimer tm
      /\ FakeSocket.subscribers
           (fst (match FakeSocket.intervalId fs with
                 | Some id =>
                     if Nat.eqb id 0 then (fs, tm)
                     else (FakeSocket.set_intervalId None fs,
                           clearTimeout id tm)
                 | None => (fs, tm)
                 end)) = FakeSocket.subscribers fs
      /\ FakeSocket.sequenceId
           (fst (match FakeSocket.intervalId fs with
                 | Some id =>
                     if Nat.eqb id 0 then (fs, tm)
                     else (FakeSocket.set_intervalId None fs,
                           clearTimeout id tm)
                 | None => (fs, tm)
                 end)) = FakeSocket.sequenceId fs).
    { destruct (FakeSocket.intervalId fs) as [id|]; [|now cbn].
      destruct (Nat.eqb id 0); [now cbn|].
      cbn. rewrite Hrun. now cbn. }
    destruct (match FakeSocket.intervalId fs with
              | Some id => _ | None => _ end) as [fs1 tm1].
    cbn [fst snd] in *. destruct Hsame as (Hp & Hnx & Hsub & Hseq).
    unfold timerDiscipline. cbn. rewrite Hp, Hnx, Hsub.
    repeat split; auto.
Qed.

Lemma setAdd_NoDup (x : nat) (l : list nat) :
  NoDup l -> NoDup (FakeSocket.setAdd x l).
Proof.
  intros H. unfold FakeSocket.setAdd.
  destruct (existsb (Nat.eqb x) l) eqn:E; [assumption|].
  apply NoDup_app; [assumption|repeat constructor; intros []|].
  intros a Ha [<-|[]].
  assert (existsb (Nat.eqb x) l = true); [|congruence].
  apply existsb_exists. exists x. split; [assumption|apply Nat.eqb_refl].
Qed.

Lemma setDelete_NoDup (x : nat) (l : list nat) :
  NoDup l -> NoDup (FakeSocket.setDelete x l).
Proof. intros H. now apply NoDup_filter. Qed.

Lemma timerDiscipline_subscribers (l : list nat) (fs : FakeSocket.t)
    (tm : Timers) :
  NoDup l -> timerDiscipline (fs, tm) ->
  timerDiscipline (FakeSocket.set_subscribers l fs, tm).
Proof.
  intros Hl (Hn & _ & Hrun). unfold timerDiscipline in *.
  cbn [fst snd FakeSocket.set_subscribers FakeSocket.subscribers
         FakeSocket.isRunning] in *.
  split; [assumption|]. split; [assumption|].
  destruct (FakeSocket.isRunning fs); [|assumption].
  destruct Hrun as (id & delay & H1 & H2 & H3).
  exists id, delay. now cbn.
Qed.

Lemma timerDiscipline_subscribe (rand : nat -> Q) (k callback : nat)
    (s : FakeSocket.t * Timers) :
  timerDiscipline s ->
  timerDiscipline (FakeSocket.subscribe rand k callback s)
  /\ FakeSocket.isRunning (fst (FakeSocket.subscribe rand k callback s))
     = true
  /\ In callback
       (FakeSocket.subscribers
          (fst (FakeSocket.subscribe rand k callback s)))
  /\ FakeSocket.sequenceId (fst (FakeSocket.subscribe rand k callback s))
     = FakeSocket.sequenceId (fst s).
Proof.
  destruct s as [fs tm]. intros H.
  pose proof H as (_ & Hnd & _). cbn [fst] in Hnd.
  unfold FakeSocket.subscribe.
  pose proof (@timerDiscipline_subscribers
                (FakeSocket.setAdd callback (FakeSocket.subscribers fs))
                fs tm (setAdd_NoDup callback Hnd) H) as H'.
  assert (Hin : In callback
                  (FakeSocket.setAdd callback (FakeSocket.subscribers fs))).
  { unfold FakeSocket.setAdd.
    destruct (existsb (Nat.eqb callback) (FakeSocket.subscribers fs))
      eqn:E.
    - apply existsb_exists in E as (y & Hy & Ey).
      apply Nat.eqb_eq in Ey. now subst.
    - apply in_or_app. right. now left. }
  set (fs1 := FakeSocket.set_subscribers _ fs) in *.
  destruct (FakeSocket.isRunning fs1) eqn:E; cbn [negb].
  - cbn [fst]. split; [assumption|]. split; [assumption|].
    split; [exact Hin|reflexivity].
  - destruct (@timerDiscipline_start rand k (fs1, tm) H')
      as (Hd & Hr & Hs & Hq).
    cbn [fst] in Hs, Hq. rewrite Hs, Hq.
    split; [assumption|]. split; [assumption|].
    split; [exact Hin|reflexivity].
Qed.

Lemma timerDiscipline_unsubscribe (callback : nat)
    (s : FakeSocket.t * Timers) :
  timerDiscipline s ->
  timerDiscipline (FakeSocket.unsubscribe callback s)
  /\ FakeSocket.subscribers (fst (FakeSocket.unsubscribe callback s))
     = FakeSocket.setDelete callback (FakeSocket.subscribers (fst s))
  /\ (FakeSocket.subscribers (fst (FakeSocket.unsubscribe callback s)) = []
      -> FakeSocket.isRunning (fst (FakeSocket.unsubscribe callback s))
         = false)
  /\ FakeSocket.sequenceId (fst (FakeSocket.unsubscribe callback s))
     = FakeSocket.sequenceId (fst s).
Proof.
  destruct s as [fs tm]. intros H.
  pose proof H as (_ & Hnd & _). cbn [fst] in Hnd.
  unfold FakeSocket.unsubscribe.
  pose proof (@timerDiscipline_subscribers
                (FakeSocket.setDelete callback (FakeSocket.subscribers fs))
                fs tm (setDelete_NoDup callback Hnd) H) as H'.
  set (fs1 := FakeSocket.set_subscribers _ fs) in *.
  destruct (Nat.eqb (length (FakeSocket.subscribers fs1)) 0
            && FakeSocket.isRunning fs1) eqn:E.
  - destruct (@timerDiscipline_stop (fs1, tm) H')
      as (Hd & Hr & _ & Hs & Hq).
    cbn [fst] in Hs, Hq. rewrite Hs, Hq.
    split; [assumption|]. split; [reflexivity|].
    split; [intros _; assumption|reflexivity].
  - cbn [fst]. split; [assumption|]. split; [reflexivity|].
    split; [|reflexivity].
    intros Hnil. rewrite Hnil in E. cbn in E. exact E.
Qed.

Lemma generateUpdate_fields (rand now : nat -> Q) (k : nat)
    (fs : FakeSocket.t) :
  let m := fst (fst (FakeSocket.generateUpdate rand now k fs)) in
  let fs' := snd (fst (FakeSocket.generateUpdate rand now k fs)) in
  FakeSocket.isRunning fs' = FakeSocket.isRunning fs
  /\ FakeSocket.subscribers fs' = FakeSocket.subscribers fs
  /\ FakeSocket.intervalId fs' = FakeSocket.intervalId fs
  /\ FakeSocket.config fs' = FakeSocket.config fs
  /\ ((exists ob, WebSocketMessage.data m = OrderBookData ob)
      /\ messageTrades [m] = []
      /\ FakeSocket.sequenceId fs' = FakeSocket.sequenceId fs
      \/ (exists t,
            WebSocketMessage.data m = TradeData t
            /\ messageTrades [m] = [t]
            /\ Trade.id t = tradeId (FakeSocket.sequenceId fs))
         /\ FakeSocket.sequenceId fs'
            = (FakeSocket.sequenceId fs + 1)%N
         /\ FakeSocket.currentPrice fs' = FakeSocket.currentPrice fs).
Proof.
  unfold FakeSocket.generateUpdate.
  destruct (Qltb (rand k) (8 # 10)).
  - unfold FakeSocket.generateOrderBookUpdate.
    cbn [FakeSocket.set_currentPrice FakeSocket.config].
    destruct (FakeSocketConfig.spreadRange (FakeSocket.config fs)).
    cbn. repeat split; auto. left. repeat split; eauto.
  - unfold FakeSocket.generateTradeUpdate.
    destruct (FakeSocketConfig.volumeRange (FakeSocket.config fs)).
    cbn. repeat split; auto. right. repeat split; eauto.
Qed.

Lemma timerFires_none (rand now : nat -> Q) (id : nat)
    (s : FakeSocket.t * Timers) :
  pending (snd s) = [] -> FakeSocket.timerFires rand now id s = None.
Proof.
  destruct s as [fs tm]. cbn [snd]. intros H.
  unfold FakeSocket.timerFires. now rewrite H.
Qed.

Lemma timerFires_some (rand now : nat -> Q) (id : nat)
    (s : FakeSocket.t * Timers) (m : WebSocketMessage.t)
    (s' : FakeSocket.t * Timers) :
  timerDiscipline s ->
  FakeSocket.timerFires rand now id s = Some (m, s') ->
  FakeSocket.isRunning (fst s) = true
  /\ FakeSocket.intervalId (fst s) = Some id
  /\ m = fst (fst (FakeSocket.generateUpdate rand now 0 (fst s)))
  /\ timerDiscipline s'
  /\ FakeSocket.isRunning (fst s') = true
  /\ FakeSocket.subscribers (fst s') = FakeSocket.subscribers (fst s)
  /\ FakeSocket.sequenceId (fst s')
     = FakeSocket.sequenceId
         (snd (fst (FakeSocket.generateUpdate rand now 0 (fst s)))).
Proof.
  destruct s as [fs tm]. intros (Hn & Hnd & Hrun).
  cbn [fst snd] in *. unfold FakeSocket.timerFires.
  destruct (existsb (fun t => Nat.eqb (fst t) id) (pending tm)) eqn:E;
    [|discriminate].
  destruct (FakeSocket.isRunning fs) eqn:Er.
  2:{ rewrite Hrun in E. discriminate. }
  destruct Hrun as (id' & delay & Hid & Hp & Hlt). cbn [fst snd] in *.
  rewrite Hp in E. cbn in E. rewrite orb_false_r in E.
  apply Nat.eqb_eq in E. subst id'.
  pose proof (generateUpdate_fields rand now 0 fs)
    as (Hr' & Hs' & _ & _ & _).
  destruct (FakeSocket.generateUpdate rand now 0 fs) as [[m1 fs1] k1].
  cbn [fst snd] in *. intros [= <- <-].
  rewrite Er in Hr'.
  assert (Hnd1 : NoDup (FakeSocket.subscribers fs1)) by now rewrite Hs'.
  destruct (@timerDiscipline_schedule rand k1 fs1 (clearTimeout id tm))
    as (Hd & Hrr & Hss & Hqq); auto.
  { eapply clearTimeout_one; eassumption. }
  split; [reflexivity|]. split; [assumption|]. split; [reflexivity|].
  split; [assumption|]. split; [assumption|].
  split; [exact (eq_trans Hss Hs')|exact Hqq].
Qed.

Lemma socketEvent_discipline (e : SocketEvent)
    (s : FakeSocket.t * Timers) :
  timerDiscipline s -> timerDiscipline (socketEvent e s).
Proof.
  intros H. destruct e; cbn [socketEvent].
  - now apply timerDiscipline_subscribe.
  - now apply timerDiscipline_unsubscribe.
  - now apply timerDiscipline_start.
  - now apply timerDiscipline_stop.
  - destruct s as [fs tm]. destruct H as (Hn & Hnd & Hrun).
    unfold timerDiscipline in *. cbn in *. repeat split; auto.
  - destruct s as [fs tm]. destruct H as (Hn & Hnd & Hrun).
    unfold timerDiscipline in *. cbn in *. repeat split; auto.
  - destruct (FakeSocket.timerFires rand now id s) as [[m s']|] eqn:E;
      [|assumption].
    now destruct (@timerFires_some rand now id s m s' H E)
      as (_ & _ & _ & Hd & _).
Qed.

Lemma socketLife_discipline (events : list SocketEvent) :
  forall s, timerDiscipline s -> timerDiscipline (socketLife events s).
Proof.
  unfold socketLife.
  induction events as [|e events IH]; intros s H; [assumption|].
  cbn [fold_left]. apply IH. now apply socketEvent_discipline.
Qed.

Lemma fakeSocket_discipline : timerDiscipline fakeSocket.
Proof.
  unfold timerDiscipline, fakeSocket. cbn.
  repeat split; [lia|constructor].
Qed.

Lemma socketEvent_sequence (e : SocketEvent) (s : FakeSocket.t * Timers) :
  timerDiscipline s ->
  exists ts,
    messageTrades (socketMessages [e] s) = ts
    /\ map Trade.id ts
       = map tradeId (seqN (FakeSocket.sequenceId (fst s)) (length ts))
    /\ FakeSocket.sequenceId (fst (socketEvent e s))
       = (FakeSocket.sequenceId (fst s) + N.of_nat (length ts))%N.
Proof.
  intros H.
  assert (Hnone : forall v : N, v = (v + N.of_nat 0)%N) by (intros; lia).
  destruct e; cbn [socketMessages socketEvent app].
  - exists []. split; [reflexivity|]. split; [reflexivity|].
    destruct (@timerDiscipline_subscribe rand 0 callback s H)
      as (_ & _ & _ & ->). apply Hnone.
  - exists []. split; [reflexivity|]. split; [reflexivity|].
    destruct (@timerDiscipline_unsubscribe callback s H)
      as (_ & _ & _ & ->). apply Hnone.
  - exists []. split; [reflexivity|]. split; [reflexivity|].
    destruct (@timerDiscipline_start rand 0 s H) as (_ & _ & _ & ->).
    apply Hnone.
  - exists []. split; [reflexivity|]. split; [reflexivity|].
    destruct (@timerDiscipline_stop s H) as (_ & _ & _ & _ & ->).
    apply Hnone.
  - exists []. split; [reflexivity|]. split; [reflexivity|].
    destruct s. cbn. lia.
  - exists []. split; [reflexivity|]. split; [reflexivity|].
    destruct s. cbn. lia.
  - destruct (FakeSocket.timerFires rand now id s) as [[m s']|] eqn:E.
    + destruct (@timerFires_some rand now id s m s' H E)
        as (_ & _ & Hm & _ & _ & _ & Hseq).
      pose proof (generateUpdate_fields rand now 0 (fst s))
        as (_ & _ & _ & _ & Hcase).
      cbv zeta in Hcase. rewrite <- Hm in Hcase. rewrite Hseq.
      change (exists ts,
                 messageTrades [m] = ts
                 /\ map Trade.id ts
                    = map tradeId
                        (seqN (FakeSocket.sequenceId (fst s)) (length ts))
                 /\ FakeSocket.sequenceId
                      (snd (fst (FakeSocket.generateUpdate rand now 0
                                   (fst s))))
                    = (FakeSocket.sequenceId (fst s)
                       + N.of_nat (length ts))%N).
      destruct Hcase as [(_ & -> & ->)|((t & _ & -> & Hid) & -> & _)].
      * exists []. split; [reflexivity|]. split; [reflexivity|].
        apply Hnone.
      * exists [t]. split; [reflexivity|]. cbn [length map].
        rewrite seqN_S. cbn [map seqN]. rewrite Hid.
        split; [reflexivity|lia].
    + exists []. split; [reflexivity|]. split; [reflexivity|].
      apply Hnone.
Qed.

Lemma socketMessages_cons (e : SocketEvent) (events : list SocketEvent)
    (s : FakeSocket.t * Timers) :
  socketMessages (e :: events) s
  = socketMessages [e] s ++ socketMessages events (socketEvent e s).
Proof. cbn [socketMessages]. now rewrite app_nil_r. Qed.

Lemma messageTrades_app (a b : list WebSocketMessage.t) :
  messageTrades (a ++ b) = messageTrades a ++ messageTrades b.
Proof. unfold messageTrades. apply flat_map_app. Qed.

Lemma socketLife_sequence (events : list SocketEvent) :
  forall s,
    timerDiscipline s ->
    let ts := messageTrades (socketMessages events s) in
    map Trade.id ts
    = map tradeId (seqN (FakeSocket.sequenceId (fst s)) (length ts))
    /\ FakeSocket.sequenceId (fst (socketLife events s))
       = (FakeSocket.sequenceId (fst s) + N.of_nat (length ts))%N.
Proof.
  induction events as [|e events IH]; intros s H ts; subst ts.
  - cbn. split; [reflexivity|lia].
  - rewrite socketMessages_cons, messageTrades_app.
    destruct (@socketEvent_sequence e s H) as (ts1 & -> & Hid1 & Hseq1).
    destruct (IH (socketEvent e s) (socketEvent_discipline e H))
      as (Hid2 & Hseq2).
    cbv zeta in Hid2, Hseq2.
    set (ts2 := messageTrades (socketMessages events (socketEvent e s)))
      in *.
    rewrite length_app, seqN_app, !map_app, Hid1, Hid2, Hseq1.
    split; [reflexivity|].
    unfold socketLife in *. cbn [fold_left]. rewrite Hseq2, Hseq1. lia.
Qed.

(** X17. In every life of the feed singleton: while the socket is active
    exactly one timeout is pending, the one whose identifier it keeps;
    while it is not, none is pending and no update can be generated;
    [stop] cancels the timeout; [subscribe] leaves the socket active with
    the callback among the subscribers; the unsubscribe function of the
    last subscriber stops it; a timeout that fires is the one kept and
    leaves the socket active with the next one. *)
Theorem socket_keeps_one_timer :
  forall events : list SocketEvent,
    let s := socketLife events fakeSocket in
    (FakeSocket.isActive (fst s) = true -> oneTimer s)
    /\ (FakeSocket.isActive (fst s) = false ->
        pending (snd s) = []
        /\ forall rand now id, FakeSocket.timerFires rand now id s = None)
    /\ (FakeSocket.isActive (fst (FakeSocket.stop s)) = false
        /\ pending (snd (FakeSocket.stop s)) = [])
    /\ (forall rand callback,
          let s' := FakeSocket.subscribe rand 0 callback s in
          FakeSocket.isActive (fst s') = true
          /\ oneTimer s'
          /\ In callback (FakeSocket.subscribers (fst s')))
    /\ (forall callback,
          FakeSocket.subscribers (fst s) = [callback] ->
          let s' := FakeSocket.unsubscribe callback s in
          FakeSocket.subscribers (fst s') = []
          /\ FakeSocket.isActive (fst s') = false
          /\ pending (snd s') = [])
    /\ (forall rand now id m s',
          FakeSocket.timerFires rand now id s = Some (m, s') ->
          FakeSocket.intervalId (fst s) = Some id
          /\ FakeSocket.isActive (fst s') = true
          /\ oneTimer s')
    /\ NoDup (FakeSocket.subscribers (fst s)).
Proof.
  intros events s.
  assert (H : timerDiscipline s)
    by (apply socketLife_discipline, fakeSocket_discipline).
  pose proof H as (Hn & Hnd & Hrun).
  unfold FakeSocket.isActive.
  split; [intros E; now rewrite E in Hrun|].
  split.
  { intros E. rewrite E in Hrun. split; [assumption|].
    intros rand now id. now apply timerFires_none. }
  split.
  { now destruct (timerDiscipline_stop H) as (_ & ? & ? & _). }
  split.
  { intros rand callback.
    destruct (@timerDiscipline_subscribe rand 0 callback s H)
      as ((_ & _ & Hd) & Hr & Hin & _).
    rewrite Hr in Hd. auto. }
  split.
  { intros callback Hsub.
    destruct (@timerDiscipline_unsubscribe callback s H)
      as ((_ & _ & Hd) & Hs & Hr & _).
    assert (Hnil : FakeSocket.subscribers
                     (fst (FakeSocket.unsubscribe callback s)) = []).
    { rewrite Hs, Hsub. cbn. now rewrite Nat.eqb_refl. }
    specialize (Hr Hnil). rewrite Hr in Hd. auto. }
  split; [|assumption].
  intros rand now id m s' E.
  destruct (@timerFires_some rand now id s m s' H E)
    as (_ & Hid & _ & (_ & _ & Hd) & Hr & _).
  rewrite Hr in Hd. auto.
Qed.

(** X18. The trades the feed singleton broadcasts in a life are numbered
    trade_0, trade_1, ... in the order they are sent, the counter of the
    socket is the number of trades sent, and no two of them share an
    identifier. *)
Theorem feed_trade_ids :
  forall events : list SocketEvent,
    let ts := messageTrades (socketMessages events fakeSocket) in
    map Trade.id ts = map tradeId (seqN 0 (length ts))
    /\ FakeSocket.sequenceId (fst (socketLife events fakeSocket))
       = N.of_nat (length ts)
    /\ NoDup (map Trade.id ts).
Proof.
  intros events ts.
  destruct (@socketLife_sequence events fakeSocket fakeSocket_discipline)
    as (Hid & Hseq).
  fold ts in Hid, Hseq. cbn [fst fakeSocket FakeSocket.new
                               FakeSocket.sequenceId] in Hid, Hseq.
  split; [assumption|]. split; [now rewrite Hseq|].
  rewrite Hid. apply Injective_map_NoDup.
  - intros m n. apply tradeId_inj.
  - apply seqN_NoDup.
Qed.


(** X20. Pausing and resuming, in any life of the feed: [togglePause] flips
    the flag of the store and touches nothing else of it nor the engine;
    pausing stops the socket and leaves no timeout pending, so that no
    update is generated, and the store ignores any message handed to it;
    resuming leaves the socket active with one timeout pending. *)
Theorem pause_and_resume :
  forall (events : list SocketEvent) (rand : nat -> Q) (w : World),
    let a := {| world := w; feed := socketLife events fakeSocket |} in
    let a' := togglePause rand a in
    let paused := AppState.isPaused (appState w) in
    AppState.isPaused (appState (world a')) = negb paused
    /\ matcher (world a') = matcher w
    /\ setPaused paused (appState (world a')) = appState w
    /\ FakeSocket.isActive (fst (feed a')) = paused
    /\ (paused = false ->
        pending (snd (feed a')) = []
        /\ (forall rand' now id,
               FakeSocket.timerFires rand' now id (feed a') = None)
        /\ forall data,
             onMessage data (appState (world a')) = appState (world a'))
    /\ (paused = true -> oneTimer (feed a')).
Proof.
  intros events rand w a a' paused. subst a a' paused.
  assert (H : timerDiscipline (socketLife events fakeSocket))
    by (apply socketLife_discipline, fakeSocket_discipline).
  unfold togglePause, FakeSocket.isActive. cbn [world feed].
  destruct (AppState.isPaused (appState w)) eqn:E; cbn [world feed].
  - destruct (@timerDiscipline_start rand 0 _ H)
      as ((_ & _ & Hd) & Hr & _).
    rewrite Hr in Hd.
    cbn [appState matcher setPaused AppState.isPaused negb].
    split; [reflexivity|]. split; [reflexivity|].
    split; [destruct w as [[] ?]; cbn in *; now subst|].
    split; [assumption|]. split; [discriminate|]. auto.
  - destruct (timerDiscipline_stop H) as (_ & Hr & Hp & _).
    cbn [appState matcher setPaused AppState.isPaused negb].
    split; [reflexivity|]. split; [reflexivity|].
    split; [destruct w as [[] ?]; cbn in *; now subst|].
    split; [assumption|]. split; [|discriminate].
    intros _. split; [assumption|].
    split; [intros; now apply timerFires_none|].
    intros data. reflexivity.
Qed.

Lemma numbered_nth (ts : list Trade.t) (s : N) (i : nat) (t : Trade.t) :
  map Trade.id ts = map tradeId (seqN s (length ts)) ->
  nth_error ts i = Some t ->
  Trade.id t = tradeId (s + N.of_nat i).
Proof.
  intros Hids Hi.
  pose proof (map_nth_error Trade.id i ts Hi) as H.
  rewrite Hids in H. unfold seqN in H.
  rewrite !nth_error_map, nth_error_seq in H.
  destruct (Nat.ltb i (length ts)); [|discriminate].
  cbn in H. now injection H as <-.
Qed.

(** X21. The feed and the engine each number their trades from trade_0 on:
    the i-th trade the feed singleton broadcasts and the i-th trade a new
    engine makes carry the same identifier, and a store that is handed
    both holds two trades under one identifier. *)
Theorem feed_and_engine_share_ids :
  forall (events : list SocketEvent) (calls : list Call) (i : nat)
         (t t' : Trade.t),
    nth_error (messageTrades (socketMessages events fakeSocket)) i
    = Some t ->
    nth_error (runTrades calls newOrderMatcher) i = Some t' ->
    Trade.id t = tradeId (N.of_nat i)
    /\ Trade.id t' = tradeId (N.of_nat i)
    /\ forall s : AppState.t,
         In t (AppState.trades (addTrade t' (addTrade t s)))
         /\ In t' (AppState.trades (addTrade t' (addTrade t s)))
         /\ ~ NoDup (map Trade.id
                       (AppState.trades (addTrade t' (addTrade t s)))).
Proof.
  intros events calls i t t' Hf He.
  destruct (@socketLife_sequence events fakeSocket fakeSocket_discipline)
    as (Hfid & _).
  destruct (run_counter calls newOrderMatcher) as (_ & Heid).
  pose proof (@numbered_nth _ _ _ _ Hfid Hf) as H1.
  pose proof (@numbered_nth _ _ _ _ Heid He) as H2.
  change (FakeSocket.sequenceId (fst fakeSocket)) with 0%N in H1.
  change (sequenceId newOrderMatcher) with 0%N in H2.
  rewrite N.add_0_l in H1, H2.
  split; [assumption|]. split; [assumption|].
  intros s.
  assert (Hl : AppState.trades (addTrade t' (addTrade t s))
               = t' :: t :: firstn 98 (AppState.trades s)).
  { unfold addTrade. cbn [setTrades AppState.trades].
    change (firstn 100 (t' :: firstn 100 (t :: AppState.trades s)))
      with (t' :: firstn 99 (t :: firstn 99 (AppState.trades s))).
    change (firstn 99 (t :: firstn 99 (AppState.trades s)))
      with (t :: firstn 98 (firstn 99 (AppState.trades s))).
    rewrite firstn_firstn. reflexivity. }
  rewrite Hl. split; [right; now left|]. split; [now left|].
  cbn [map]. intros Hnd. apply NoDup_cons_iff in Hnd.
  destruct Hnd as [Hnot _]. apply Hnot. left. congruence.
Qed.

(** * What the order book and the depth chart draw *)

Lemma maxOr0_nonneg (xs : list Q) : 0 <= maxOr0 xs.
Proof.
  induction xs as [|x xs IH]; cbn; [lra|].
  eapply Qle_trans; [exact IH|apply Q.le_max_r].
Qed.









(** ** The further theorems at concrete engines, stores and feeds *)

Lemma testBook_inv : engine_inv testBook.
Proof. apply reachable_engine_inv, testBook_reachable. Qed.



(** A market buy of 3 at the test book leaves the ask at 101 as it was. *)
Lemma addOrder_leaves_others_witness :
  In 1%nat (orders testBook)
  /\ heap (snd (addOrder epoch (marketOrder "m" buy 3) testBook)) 1%nat
     = heap testBook 1%nat.
Proof.
  assert (Hin : In 1%nat (orders testBook)) by (vm_compute; auto).
  split; [exact Hin|].
  destruct testBook_inv as (_ & Hal & _).
  assert (Hnot : ~ In 1%nat
                   (firstn
                      (length (fst (fst (addOrder epoch
                                           (marketOrder "m" buy 3)
                                           testBook))))
                      (opposingOrders (marketOrder "m" buy 3) testBook))).
  { intros H. vm_compute in H. destruct H as [H|[]]. discriminate H. }
  pose proof (@addOrder_leaves_others epoch (marketOrder "m" buy 3)
                testBook Hal) as T.
  cbv zeta in T. exact (proj1 (T 1%nat Hin Hnot)).
Defined.

(** A limit buy at 50 finds no ask of the test book and rests. *)
Lemma limit_without_match_rests_witness :
  Order.type (limitOrder "n" buy 50 1) = limit
  /\ 0 < Order.quantity (limitOrder "n" buy 50 1)
  /\ getOrders (snd (addOrder epoch (limitOrder "n" buy 50 1) testBook))
     = getOrders testBook ++ [limitOrder "n" buy 50 1].
Proof.
  assert (Ht : Order.type (limitOrder "n" buy 50 1) = limit)
    by reflexivity.
  assert (Hq : 0 < Order.quantity (limitOrder "n" buy 50 1))
    by (vm_compute; reflexivity).
  assert (He : Forall (fun o => eligibleV (limitOrder "n" buy 50 1) o
                                = false) (getOrders testBook))
    by (vm_compute; repeat constructor).
  split; [exact Ht|]. split; [exact Hq|].
  destruct testBook_inv as (_ & Hal & _).
  pose proof (@limit_without_match_rests epoch (limitOrder "n" buy 50 1)
                testBook Hal Ht Hq He) as T.
  cbv zeta in T. exact (proj1 (proj2 (proj2 T))).
Defined.


(** One call at the test book: its trades head the log, last made
    first. *)
Lemma getTrades_most_recent_first_witness :
  ~ In CallClear [CallAddOrder epoch (marketOrder "m" buy 7)]
  /\ getTrades (run [CallAddOrder epoch (marketOrder "m" buy 7)] testBook)
     = rev (runTrades [CallAddOrder epoch (marketOrder "m" buy 7)]
              testBook)
       ++ getTrades testBook.
Proof.
  assert (H : ~ In CallClear [CallAddOrder epoch (marketOrder "m" buy 7)]).
  { intros [E|[]]. discriminate E. }
  split; [exact H|].
  exact (proj2 getTrades_most_recent_first _ testBook H).
Defined.

(** The log of the test book after a market buy of 7 holds the trades 0
    and 1. *)
Lemma trade_log_sound_witness :
  reachable (snd (addOrder epoch (marketOrder "m" buy 7) testBook))
  /\ NoDup
       (map Trade.id
          (trades (snd (addOrder epoch (marketOrder "m" buy 7) testBook))))
  /\ map Trade.id
       (trades (snd (addOrder epoch (marketOrder "m" buy 7) testBook)))
     = [tradeId 0; tradeId 1].
Proof.
  assert (H : reachable
                (snd (addOrder epoch (marketOrder "m" buy 7) testBook)))
    by apply (reachable_call (CallAddOrder epoch (marketOrder "m" buy 7))
                testBook_reachable).
  split; [exact H|].
  split; [exact (proj1 (@trade_log_sound _ H))|].
  vm_compute. reflexivity.
Defined.

(** A store whose list is full is handed two more trades: the list still
    holds 100 trades, the two new ones in front, and the two oldest are
    gone. *)
Lemma store_trades_bounded_witness :
  (length (AppState.trades (appState fullWorld)) <= 100)%nat
  /\ (length
        (AppState.trades
           (appState (actAll parseSample moreTrades fullWorld))) <= 100)%nat
  /\ length (AppState.trades (appState fullWorld)) = 100%nat
  /\ length
       (AppState.trades
          (appState (actAll parseSample moreTrades fullWorld))) = 100%nat
  /\ map Trade.id
       (firstn 3
          (AppState.trades
             (appState (actAll parseSample moreTrades fullWorld))))
     = [tradeId 101; tradeId 100; tradeId 99]
  /\ map Trade.id
       (skipn 99
          (AppState.trades
             (appState (actAll parseSample moreTrades fullWorld))))
     = [tradeId 2].
Proof.
  assert (H : (length (AppState.trades (appState fullWorld)) <= 100)%nat)
    by (vm_compute; lia).
  split; [exact H|].
  split;
    [exact (proj2 store_trades_bounded parseSample moreTrades fullWorld H)|].
  vm_compute. repeat split.
Defined.

(** A limit buy of 2 at 100 submitted to the new application reaches the
    engine and resets the form. *)
Lemma submitOrder_effect_witness :
  0 < Order.quantity (orderOfForm parseSample "o" 0 buyForm)
  /\ matcher (submitOrder parseSample "o" 0 epoch buyForm initialWorld)
     = snd (addOrder epoch (orderOfForm parseSample "o" 0 buyForm)
              (matcher initialWorld))
  /\ AppState.currentOrder
       (appState (submitOrder parseSample "o" 0 epoch buyForm initialWorld))
     = initialOrderForm.
Proof.
  assert (Hq : 0 < Order.quantity (orderOfForm parseSample "o" 0 buyForm))
    by (vm_compute; reflexivity).
  assert (Hp : Order.type (orderOfForm parseSample "o" 0 buyForm) = limit ->
               0 < Order.price (orderOfForm parseSample "o" 0 buyForm))
    by (intros _; vm_compute; reflexivity).
  split; [exact Hq|].
  pose proof (submitOrder_effect parseSample "o" 0 epoch buyForm
                initialWorld) as T.
  cbv zeta in T. destruct T as (_ & T).
  destruct (T Hq Hp) as (Hm & _ & _ & Hc & _).
  split; [exact Hm|exact Hc].
Defined.

(** The form and the store agree on a limit buy of 2 at 100. *)
Lemma form_and_store_validation_witness :
  parseSample EmptyString = None
  /\ validateForm parseSample buyForm = true.
Proof.
  assert (H : parseSample EmptyString = None) by reflexivity.
  split; [exact H|].
  pose proof (@form_and_store_validation parseSample "o" 0 buyForm H) as T.
  cbv zeta in T. destruct T as (T & _). apply T.
  split; [vm_compute; reflexivity|].
  intros _. vm_compute. reflexivity.
Defined.




(** After one subscription the feed singleton is active with one
    timeout. *)
Lemma socket_keeps_one_timer_witness :
  FakeSocket.isActive
    (fst (socketLife [EvSubscribe halfDraws 7] fakeSocket)) = true
  /\ oneTimer (socketLife [EvSubscribe halfDraws 7] fakeSocket).
Proof.
  assert (H : FakeSocket.isActive
                (fst (socketLife [EvSubscribe halfDraws 7] fakeSocket))
              = true) by reflexivity.
  split; [exact H|].
  pose proof (socket_keeps_one_timer [EvSubscribe halfDraws 7]) as T.
  cbv zeta in T. destruct T as (T & _). exact (T H).
Defined.

(** Pausing the application whose feed has one subscriber leaves no
    timeout pending. *)
Lemma pause_and_resume_witness :
  AppState.isPaused (appState initialWorld) = false
  /\ pending
       (snd (feed (togglePause halfDraws
                     {| world := initialWorld;
                        feed := socketLife [EvSubscribe halfDraws 7]
                                  fakeSocket |}))) = [].
Proof.
  assert (H : AppState.isPaused (appState initialWorld) = false)
    by reflexivity.
  split; [exact H|].
  pose proof (pause_and_resume [EvSubscribe halfDraws 7] halfDraws
                initialWorld) as T.
  cbv zeta in T. destruct T as (_ & _ & _ & _ & T & _).
  exact (proj1 (T H)).
Defined.


(** The first trade of the feed and the first trade of the engine are
    both trade_0. *)
Lemma feed_and_engine_share_ids_witness :
  match nth_error (messageTrades (socketMessages tradeLife fakeSocket)) 0,
        nth_error (runTrades tradeCalls newOrderMatcher) 0 with
  | Some t, Some t' => Trade.id t = tradeId 0 /\ Trade.id t' = tradeId 0
  | _, _ => False
  end.
Proof.
  destruct (nth_error (messageTrades (socketMessages tradeLife fakeSocket))
              0) as [t|] eqn:E1; [|vm_compute in E1; discriminate E1].
  destruct (nth_error (runTrades tradeCalls newOrderMatcher) 0)
    as [t'|] eqn:E2; [|vm_compute in E2; discriminate E2].
  pose proof (@feed_and_engine_share_ids tradeLife tradeCalls 0 t t' E1 E2)
    as T.
  destruct T as (T1 & T2 & _). split; [exact T1|exact T2].
Defined.

(** * Facts about binary64 values *)

Lemma Prim2SF_zero :
  FloatOps.Prim2SF PrimFloat.zero = SpecFloat.S754_zero false.
Proof. reflexivity. Qed.

Lemma Prim2SF_nan : FloatOps.Prim2SF PrimFloat.nan = SpecFloat.S754_nan.
Proof. reflexivity. Qed.

Lemma dbl_is_nan (x : PrimFloat.float) :
  PrimFloat.is_nan x = true <-> FloatOps.Prim2SF x = SpecFloat.S754_nan.
Proof.
  unfold PrimFloat.is_nan. rewrite FloatAxioms.eqb_spec.
  unfold SpecFloat.SFeqb.
  destruct (FloatOps.Prim2SF x) as [s|s| |s m e]; cbn.
  - split; discriminate.
  - destruct s; split; discriminate.
  - split; reflexivity.
  - assert (E : forall p, PosDef.Pos.compare_cont Eq p p = Eq).
    { intros p. change (Pos.compare p p = Eq). apply Pos.compare_refl. }
    rewrite Z.compare_refl, E. destruct s; cbn; split; discriminate.
Qed.

Lemma dbl_lez_zero : Dbl.lez PrimFloat.zero = true.
Proof. reflexivity. Qed.

(** A quantity that is not [<= 0] is [> 0] or NaN. *)
Lemma dbl_lez_false (q : PrimFloat.float) :
  Dbl.lez q = false ->
  Dbl.gtz q = true \/ PrimFloat.is_nan q = true.
Proof.
  unfold Dbl.lez, Dbl.gtz.
  rewrite FloatAxioms.leb_spec, FloatAxioms.ltb_spec, dbl_is_nan,
    Prim2SF_zero.
  unfold SpecFloat.SFleb, SpecFloat.SFltb.
  destruct (FloatOps.Prim2SF q) as [s|s| |s m e]; cbn;
    try destruct s; cbn; intros H; try discriminate H; auto.
Qed.

Lemma dbl_gtz_lez (q : PrimFloat.float) :
  Dbl.gtz q = true -> Dbl.lez q = false.
Proof.
  unfold Dbl.lez, Dbl.gtz.
  rewrite FloatAxioms.leb_spec, FloatAxioms.ltb_spec, Prim2SF_zero.
  unfold SpecFloat.SFleb, SpecFloat.SFltb.
  destruct (FloatOps.Prim2SF q) as [s|s| |s m e]; cbn;
    try destruct s; cbn; intros H; try discriminate H; auto.
Qed.

Lemma dbl_finite_not_nan (x : PrimFloat.float) :
  Dbl.finite x = true -> PrimFloat.is_nan x = false.
Proof.
  intros H. destruct (PrimFloat.is_nan x) eqn:E; [|reflexivity].
  apply dbl_is_nan in E. unfold Dbl.finite in H. rewrite E in H.
  discriminate.
Qed.

(** [x - x] is +0 for a finite [x]. *)
Lemma dbl_sub_diag (x : PrimFloat.float) :
  Dbl.finite x = true -> PrimFloat.sub x x = PrimFloat.zero.
Proof.
  intros H. apply FloatAxioms.Prim2SF_inj.
  rewrite FloatAxioms.sub_spec, Prim2SF_zero.
  unfold Dbl.finite in H. unfold FloatAxioms.SF64sub, SpecFloat.SFsub.
  destruct (FloatOps.Prim2SF x) as [s|s| |s m e]; try discriminate H.
  - destruct s; reflexivity.
  - rewrite Z.sub_diag. reflexivity.
Qed.


(** ** Comparison and value *)

Lemma digits2_pos_bounds (m : positive) :
  (2 ^ (Z.pos (SpecFloat.digits2_pos m) - 1) <= Z.pos m
   /\ Z.pos m < 2 ^ Z.pos (SpecFloat.digits2_pos m))%Z.
Proof.
  induction m as [m IH|m IH|]; cbn [SpecFloat.digits2_pos].
  - rewrite Pos2Z.inj_succ.
    replace (Z.succ (Z.pos (SpecFloat.digits2_pos m)) - 1)%Z
      with (Z.succ (Z.pos (SpecFloat.digits2_pos m) - 1))%Z by lia.
    rewrite !Z.pow_succ_r by lia. lia.
  - rewrite Pos2Z.inj_succ.
    replace (Z.succ (Z.pos (SpecFloat.digits2_pos m)) - 1)%Z
      with (Z.succ (Z.pos (SpecFloat.digits2_pos m) - 1))%Z by lia.
    rewrite !Z.pow_succ_r by lia. lia.
  - cbn. lia.
Qed.

(** What [valid_binary] says of a finite value: at most 53 digits, an
    exponent of at least -1074, and 53 digits above that exponent. *)
Lemma bounded_canonical (m : positive) (e : Z) :
  SpecFloat.bounded FloatOps.prec FloatOps.emax m e = true ->
  (Z.pos (SpecFloat.digits2_pos m) <= 53
   /\ -1074 <= e
   /\ (-1074 < e -> Z.pos (SpecFloat.digits2_pos m) = 53))%Z.
Proof.
  unfold SpecFloat.bounded, SpecFloat.canonical_mantissa, SpecFloat.fexp,
    SpecFloat.emin.
  change FloatOps.prec with 53%Z. change FloatOps.emax with 1024%Z.
  intros H. apply andb_true_iff in H. destruct H as [H _].
  apply Z.eqb_eq in H. change IntDef.Z.max with Z.max in H.
  generalize dependent (Z.pos (SpecFloat.digits2_pos m)). intros d H. lia.
Qed.

Lemma canonical_lt (m1 m2 : positive) (e1 e2 : Z) :
  SpecFloat.bounded FloatOps.prec FloatOps.emax m1 e1 = true ->
  SpecFloat.bounded FloatOps.prec FloatOps.emax m2 e2 = true ->
  (e1 < e2)%Z ->
  (Z.pos m1 * 2 ^ (e1 + 1074) < Z.pos m2 * 2 ^ (e2 + 1074))%Z.
Proof.
  intros H1 H2 Hlt.
  apply bounded_canonical in H1, H2.
  pose proof (digits2_pos_bounds m1) as [_ Hm1].
  pose proof (digits2_pos_bounds m2) as [Hm2 _].
  revert H1 H2 Hm1 Hm2.
  generalize (Z.pos (SpecFloat.digits2_pos m1)).
  generalize (Z.pos (SpecFloat.digits2_pos m2)).
  intros d2 d1 (Hd1 & He1 & _) (_ & _ & Hd2) Hm1 Hm2.
  assert (E2 : d2 = 53%Z) by (apply Hd2; lia). subst d2.
  assert (Hm1' : (Z.pos m1 < 2 ^ 53)%Z).
  { eapply Z.lt_le_trans; [exact Hm1|].
    apply Z.pow_le_mono_r; lia. }
  clear Hm1 Hd2.
  assert (Hk : (0 < 2 ^ (e1 + 1074))%Z) by (apply Z.pow_pos_nonneg; lia).
  assert (Hj : (2 ^ 1 <= 2 ^ (e2 - e1))%Z)
    by (apply Z.pow_le_mono_r; lia).
  replace (e2 + 1074)%Z with ((e1 + 1074) + (e2 - e1))%Z by lia.
  rewrite (Z.pow_add_r 2 (e1 + 1074) (e2 - e1)) by lia.
  change (2 ^ 1)%Z with 2%Z in Hj.
  change (2 ^ (53 - 1))%Z with 4503599627370496%Z in Hm2.
  change (2 ^ 53)%Z with 9007199254740992%Z in Hm1'.
  set (k := (2 ^ (e1 + 1074))%Z) in *. set (j := (2 ^ (e2 - e1))%Z) in *.
  apply Z.lt_le_trans with (9007199254740992 * k)%Z.
  - apply Z.mul_lt_mono_pos_r; assumption.
  - replace (9007199254740992 * k)%Z
      with (4503599627370496 * (k * 2))%Z by ring.
    apply Z.mul_le_mono_nonneg; try lia.
    apply Z.mul_le_mono_nonneg_l; lia.
Qed.

Lemma dbl_compare_units (a b : PrimFloat.float) :
  Dbl.finite a = true -> Dbl.finite b = true ->
  SpecFloat.SFcompare (FloatOps.Prim2SF a) (FloatOps.Prim2SF b)
  = Some (Z.compare (Dbl.units a) (Dbl.units b)).
Proof.
  unfold Dbl.finite, Dbl.units.
  pose proof (FloatAxioms.Prim2SF_valid a) as Va.
  pose proof (FloatAxioms.Prim2SF_valid b) as Vb.
  destruct (FloatOps.Prim2SF a) as [sa|sa| |sa ma ea]; try discriminate;
    destruct (FloatOps.Prim2SF b) as [sb|sb| |sb mb eb]; try discriminate;
    intros _ _; cbn [SpecFloat.SFcompare SpecFloat.valid_binary] in *.
  - reflexivity.
  - apply bounded_canonical in Vb. destruct Vb as (_ & He & _).
    assert (0 < Z.pos mb * 2 ^ (eb + 1074))%Z
      by (apply Z.mul_pos_pos; [lia|apply Z.pow_pos_nonneg; lia]).
    f_equal. symmetry. destruct sb; cbn [SpecFloat.cond_Zopp].
    + apply Z.compare_gt_iff. lia.
    + apply Z.compare_lt_iff. lia.
  - apply bounded_canonical in Va. destruct Va as (_ & He & _).
    assert (0 < Z.pos ma * 2 ^ (ea + 1074))%Z
      by (apply Z.mul_pos_pos; [lia|apply Z.pow_pos_nonneg; lia]).
    f_equal. symmetry. destruct sa; cbn [SpecFloat.cond_Zopp].
    + apply Z.compare_lt_iff. lia.
    + apply Z.compare_gt_iff. lia.
  - pose proof Va as Ca. pose proof Vb as Cb.
    apply bounded_canonical in Ca, Cb.
    destruct Ca as (_ & Hea & _). destruct Cb as (_ & Heb & _).
    assert (Hpa : (0 < Z.pos ma * 2 ^ (ea + 1074))%Z)
      by (apply Z.mul_pos_pos; [lia|apply Z.pow_pos_nonneg; lia]).
    assert (Hpb : (0 < Z.pos mb * 2 ^ (eb + 1074))%Z)
      by (apply Z.mul_pos_pos; [lia|apply Z.pow_pos_nonneg; lia]).
    assert (Hcmp : match (ea ?= eb)%Z with
                   | Eq => PosDef.Pos.compare_cont Eq ma mb
                   | Lt => Lt
                   | Gt => Gt
                   end
                   = (Z.pos ma * 2 ^ (ea + 1074)
                      ?= Z.pos mb * 2 ^ (eb + 1074))%Z).
    { destruct (Z.compare_spec ea eb) as [E|E|E].
      - subst eb. symmetry.
        change (PosDef.Pos.compare_cont Eq ma mb) with (Z.pos ma ?= Z.pos mb)%Z.
        assert (Hk : (0 < 2 ^ (ea + 1074))%Z)
          by (apply Z.pow_pos_nonneg; lia).
        destruct (Z.compare_spec (Z.pos ma) (Z.pos mb)) as [F|F|F].
        + rewrite F. apply Z.compare_refl.
        + apply Z.compare_lt_iff. nia.
        + apply Z.compare_gt_iff. nia.
      - symmetry. apply Z.compare_lt_iff. now apply canonical_lt.
      - symmetry. apply Z.compare_gt_iff. now apply canonical_lt. }
    f_equal. destruct sa, sb; cbn [SpecFloat.cond_Zopp].
    + rewrite Z.compare_opp.
      rewrite (Z.compare_antisym (Z.pos ma * 2 ^ (ea + 1074))
                 (Z.pos mb * 2 ^ (eb + 1074))), <- Hcmp.
      destruct (ea ?= eb)%Z; reflexivity.
    + symmetry. apply Z.compare_lt_iff. lia.
    + symmetry. apply Z.compare_gt_iff. lia.
    + exact Hcmp.
Qed.

Lemma dbl_finite_zero : Dbl.finite PrimFloat.zero = true.
Proof. reflexivity. Qed.


Lemma dbl_ltb_units (a b : PrimFloat.float) :
  Dbl.finite a = true -> Dbl.finite b = true ->
  PrimFloat.ltb a b = (Dbl.units a <? Dbl.units b)%Z.
Proof.
  intros Ha Hb. rewrite FloatAxioms.ltb_spec. unfold SpecFloat.SFltb.
  rewrite (@dbl_compare_units a b Ha Hb). unfold Z.ltb.
  destruct (Dbl.units a ?= Dbl.units b)%Z; reflexivity.
Qed.

Lemma dbl_leb_units (a b : PrimFloat.float) :
  Dbl.finite a = true -> Dbl.finite b = true ->
  PrimFloat.leb a b = (Dbl.units a <=? Dbl.units b)%Z.
Proof.
  intros Ha Hb. rewrite FloatAxioms.leb_spec. unfold SpecFloat.SFleb.
  rewrite (@dbl_compare_units a b Ha Hb). unfold Z.leb.
  destruct (Dbl.units a ?= Dbl.units b)%Z; reflexivity.
Qed.

Lemma dbl_lez_units (q : PrimFloat.float) :
  Dbl.finite q = true -> Dbl.lez q = (Dbl.units q <=? 0)%Z.
Proof.
  intros H. unfold Dbl.lez. now rewrite (@dbl_leb_units q PrimFloat.zero H dbl_finite_zero).
Qed.

Lemma dbl_gtz_units (q : PrimFloat.float) :
  Dbl.finite q = true -> Dbl.gtz q = (0 <? Dbl.units q)%Z.
Proof.
  intros H. unfold Dbl.gtz. now rewrite (@dbl_ltb_units PrimFloat.zero q dbl_finite_zero H).
Qed.

(** [Math.min] of two numbers that are not NaN is one of them. *)
Lemma dbl_min_cases (a b : PrimFloat.float) :
  PrimFloat.is_nan a = false -> PrimFloat.is_nan b = false ->
  Dbl.mathMin a b = a \/ Dbl.mathMin a b = b.
Proof.
  intros Ha Hb. unfold Dbl.mathMin. rewrite Ha, Hb. cbn [orb].
  destruct (PrimFloat.ltb a b); [now left|].
  destruct (PrimFloat.ltb b a); [now right|].
  destruct (PrimFloat.get_sign a); auto.
Qed.


(** On finite numbers [Math.min] is the minimum of the values. *)
Lemma dbl_min_units (a b : PrimFloat.float) :
  Dbl.finite a = true -> Dbl.finite b = true ->
  Dbl.units (Dbl.mathMin a b) = Z.min (Dbl.units a) (Dbl.units b).
Proof.
  intros Ha Hb. unfold Dbl.mathMin.
  rewrite (@dbl_finite_not_nan a Ha), (@dbl_finite_not_nan b Hb).
  cbn [orb]. rewrite (@dbl_ltb_units a b Ha Hb), (@dbl_ltb_units b a Hb Ha).
  destruct (Z.ltb_spec (Dbl.units a) (Dbl.units b)); [lia|].
  destruct (Z.ltb_spec (Dbl.units b) (Dbl.units a)); [lia|].
  destruct (PrimFloat.get_sign a); lia.
Qed.

(** The amount matched against a finite resting quantity, when it is
    finite itself: the resting quantity, or the finite remaining quantity,
    and never more than the resting quantity. *)
Lemma dbl_min_resting (rem q : PrimFloat.float) :
  Dbl.finite q = true ->
  Dbl.finite (Dbl.mathMin rem q) = true ->
  Dbl.mathMin rem q = q
  \/ (Dbl.mathMin rem q = rem /\ Dbl.finite rem = true
      /\ (Dbl.units rem <= Dbl.units q)%Z).
Proof.
  intros Hq. unfold Dbl.mathMin.
  destruct (PrimFloat.is_nan rem || PrimFloat.is_nan q);
    [discriminate|].
  destruct (PrimFloat.ltb rem q) eqn:E1.
  - intros Hr. right. split; [reflexivity|]. split; [assumption|].
    rewrite (@dbl_ltb_units rem q Hr Hq) in E1. apply Z.ltb_lt in E1. lia.
  - destruct (PrimFloat.ltb q rem) eqn:E2; [now left|].
    destruct (PrimFloat.get_sign rem); [|now left].
    intros Hr. right. split; [reflexivity|]. split; [assumption|].
    rewrite (@dbl_ltb_units q rem Hq Hr) in E2. apply Z.ltb_ge in E2. lia.
Qed.

(** * Rounding of binary64 values *)

Lemma pow2_xI (p : positive) :
  (2 ^ Z.pos p~1 = 2 * (2 ^ Z.pos p * 2 ^ Z.pos p))%Z.
Proof.
  rewrite (Pos2Z.inj_xI p).
  replace (2 * Z.pos p + 1)%Z with (1 + Z.pos p + Z.pos p)%Z by lia.
  rewrite (Z.pow_add_r 2 (1 + Z.pos p) (Z.pos p)) by lia.
  rewrite (Z.pow_add_r 2 1 (Z.pos p)) by lia.
  ring.
Qed.

Lemma pow2_xO (p : positive) :
  (2 ^ Z.pos p~0 = 2 ^ Z.pos p * 2 ^ Z.pos p)%Z.
Proof.
  rewrite (Pos2Z.inj_xO p).
  replace (2 * Z.pos p)%Z with (Z.pos p + Z.pos p)%Z by lia.
  rewrite (Z.pow_add_r 2 (Z.pos p) (Z.pos p)) by lia.
  ring.
Qed.

Lemma shr_1_m (mrs : SpecFloat.shr_record) :
  (0 <= SpecFloat.shr_m mrs)%Z ->
  SpecFloat.shr_m (SpecFloat.shr_1 mrs) = (SpecFloat.shr_m mrs / 2)%Z.
Proof.
  destruct mrs as [m r s]. cbn [SpecFloat.shr_m SpecFloat.shr_1].
  intros Hm. destruct m as [|[p|p|]|p]; cbn [SpecFloat.shr_m]; try lia.
  - reflexivity.
  - rewrite (Pos2Z.inj_xI p).
    apply (Z.div_unique_pos _ _ _ 1); lia.
  - rewrite (Pos2Z.inj_xO p).
    apply (Z.div_unique_pos _ _ _ 0); lia.
  - reflexivity.
Qed.

Lemma iter_shr_1_m (p : positive) :
  forall mrs : SpecFloat.shr_record,
    (0 <= SpecFloat.shr_m mrs)%Z ->
    SpecFloat.shr_m (SpecFloat.iter_pos SpecFloat.shr_1 p mrs)
    = (SpecFloat.shr_m mrs / 2 ^ Z.pos p)%Z.
Proof.
  induction p as [p IH|p IH|]; intros mrs Hm; cbn [SpecFloat.iter_pos].
  - assert (H1 : (0 <= SpecFloat.shr_m (SpecFloat.shr_1 mrs))%Z).
    { rewrite shr_1_m by assumption. apply Z.div_pos; lia. }
    assert (H2 : (0 <= SpecFloat.shr_m
                        (SpecFloat.iter_pos SpecFloat.shr_1 p
                           (SpecFloat.shr_1 mrs)))%Z).
    { rewrite IH by assumption. apply Z.div_pos; [assumption|].
      apply Z.pow_pos_nonneg; lia. }
    rewrite IH, IH, shr_1_m by assumption.
    rewrite pow2_xI.
    rewrite !Z.div_div by (try apply Z.pow_pos_nonneg; lia).
    f_equal; ring.
  - assert (H2 : (0 <= SpecFloat.shr_m
                        (SpecFloat.iter_pos SpecFloat.shr_1 p mrs))%Z).
    { rewrite IH by assumption. apply Z.div_pos; [assumption|].
      apply Z.pow_pos_nonneg; lia. }
    rewrite IH, IH by assumption.
    rewrite pow2_xO.
    rewrite !Z.div_div by (try apply Z.pow_pos_nonneg; lia).
    reflexivity.
  - rewrite shr_1_m by assumption. reflexivity.
Qed.

(** Shifting out zeros only loses nothing. *)
Lemma iter_shr_1_exact (p : positive) :
  forall k : Z,
    (0 <= k)%Z ->
    SpecFloat.iter_pos SpecFloat.shr_1 p
      {| SpecFloat.shr_m := k * 2 ^ Z.pos p;
         SpecFloat.shr_r := false; SpecFloat.shr_s := false |}
    = {| SpecFloat.shr_m := k;
         SpecFloat.shr_r := false; SpecFloat.shr_s := false |}.
Proof.
  assert (H1 : forall k : Z,
             (0 <= k)%Z ->
             SpecFloat.shr_1
               {| SpecFloat.shr_m := k * 2;
                  SpecFloat.shr_r := false; SpecFloat.shr_s := false |}
             = {| SpecFloat.shr_m := k;
                  SpecFloat.shr_r := false; SpecFloat.shr_s := false |}).
  { intros [|q|q] Hk; [reflexivity| |lia].
    replace (Z.pos q * 2)%Z with (Z.pos (q~0)) by lia. reflexivity. }
  induction p as [p IH|p IH|]; intros k Hk; cbn [SpecFloat.iter_pos].
  - assert (Hp : (0 < 2 ^ Z.pos p)%Z) by (apply Z.pow_pos_nonneg; lia).
    replace (k * 2 ^ Z.pos p~1)%Z
      with (((k * 2 ^ Z.pos p) * 2 ^ Z.pos p) * 2)%Z.
    + rewrite H1 by nia. rewrite IH by nia. now apply IH.
    + rewrite pow2_xI. ring.
  - assert (Hp : (0 < 2 ^ Z.pos p)%Z) by (apply Z.pow_pos_nonneg; lia).
    replace (k * 2 ^ Z.pos p~0)%Z
      with ((k * 2 ^ Z.pos p) * 2 ^ Z.pos p)%Z.
    + rewrite IH by nia. now apply IH.
    + rewrite pow2_xO. ring.
  - change (2 ^ 1)%Z with 2%Z. now apply H1.
Qed.

Lemma pos_iter_xO (d m : positive) :
  Z.pos (Pos.iter xO m d) = (Z.pos m * 2 ^ Z.pos d)%Z.
Proof.
  revert m. induction d as [d IH|d IH|]; intros m; cbn [Pos.iter].
  - rewrite pow2_xI, (Pos2Z.inj_xO (Pos.iter xO (Pos.iter xO m d) d)).
    rewrite IH, IH. ring.
  - rewrite pow2_xO, IH, IH. ring.
  - rewrite (Pos2Z.inj_xO m). change (2 ^ 1)%Z with 2%Z. ring.
Qed.

(** The number of binary digits, as bounds. *)
Lemma digits2_pos_unique (m : positive) (d : Z) :
  (2 ^ (d - 1) <= Z.pos m < 2 ^ d)%Z ->
  Z.pos (SpecFloat.digits2_pos m) = d.
Proof.
  intros [Hlo Hhi].
  pose proof (digits2_pos_bounds m) as [Blo Bhi].
  assert (Hd : (0 < d)%Z).
  { destruct (Z.lt_ge_cases 0 d) as [H|H]; [assumption|].
    exfalso. destruct (Z.eq_dec d 0) as [->|Hn].
    - cbn in Hhi. lia.
    - rewrite Z.pow_neg_r in Hhi by lia. lia. }
  set (k := Z.pos (SpecFloat.digits2_pos m)) in *.
  assert (Hk : (0 < k)%Z) by (subst k; lia).
  destruct (Z.lt_trichotomy k d) as [H|[H|H]]; [|assumption|].
  - exfalso.
    assert (2 ^ k <= 2 ^ (d - 1))%Z by (apply Z.pow_le_mono_r; lia). lia.
  - exfalso.
    assert (2 ^ d <= 2 ^ (k - 1))%Z by (apply Z.pow_le_mono_r; lia). lia.
Qed.

Lemma fexp_eq (x : Z) :
  SpecFloat.fexp FloatOps.prec FloatOps.emax x = Z.max (x - 53) (-1074).
Proof. reflexivity. Qed.

Lemma Zdigits2_pos (p : positive) :
  SpecFloat.Zdigits2 (Z.pos p) = Z.pos (SpecFloat.digits2_pos p).
Proof. reflexivity. Qed.

Lemma shr_fexp_noshift (m e : Z) (l : SpecFloat.location) :
  (SpecFloat.fexp FloatOps.prec FloatOps.emax (SpecFloat.Zdigits2 m + e)
   <= e)%Z ->
  SpecFloat.shr_fexp FloatOps.prec FloatOps.emax m e l
  = (SpecFloat.shr_record_of_loc m l, e).
Proof.
  intros H. unfold SpecFloat.shr_fexp, SpecFloat.shr.
  change (IntDef.Z.sub ?a ?b) with (a - b)%Z.
  change (IntDef.Z.add ?a ?b) with (a + b)%Z.
  destruct (SpecFloat.fexp FloatOps.prec FloatOps.emax
              (SpecFloat.Zdigits2 m + e) - e)%Z eqn:E;
    try reflexivity.
  lia.
Qed.

Lemma shr_fexp_shift (m e : Z) (l : SpecFloat.location) (q : positive) :
  (SpecFloat.fexp FloatOps.prec FloatOps.emax (SpecFloat.Zdigits2 m + e)
   - e = Z.pos q)%Z ->
  SpecFloat.shr_fexp FloatOps.prec FloatOps.emax m e l
  = (SpecFloat.iter_pos SpecFloat.shr_1 q
       (SpecFloat.shr_record_of_loc m l),
     (e + Z.pos q)%Z).
Proof.
  intros H. unfold SpecFloat.shr_fexp, SpecFloat.shr.
  change (IntDef.Z.sub ?a ?b) with (a - b)%Z.
  change (IntDef.Z.add ?a ?b) with (a + b)%Z.
  rewrite H. reflexivity.
Qed.

Lemma round_nearest_even_bounds (m : Z) (l : SpecFloat.location) :
  (m <= SpecFloat.round_nearest_even m l <= m + 1)%Z.
Proof.
  unfold SpecFloat.round_nearest_even.
  change (IntDef.Z.add ?a ?b) with (a + b)%Z.
  destruct l as [|[| |]]; try lia.
  destruct (IntDef.Z.even m); lia.
Qed.

(** The digits of a positive number, by its bounds. *)
Lemma Zdigits2_le (m d : Z) :
  (0 <= m < 2 ^ d)%Z -> (0 <= d)%Z -> (SpecFloat.Zdigits2 m <= d)%Z.
Proof.
  intros [H0 H1] Hd. destruct m as [|p|p]; [cbn; lia| |lia].
  rewrite Zdigits2_pos.
  pose proof (digits2_pos_bounds p) as [Blo _].
  set (k := Z.pos (SpecFloat.digits2_pos p)) in *.
  destruct (Z.le_gt_cases k d) as [H|H]; [assumption|exfalso].
  assert (2 ^ d <= 2 ^ (k - 1))%Z by (apply Z.pow_le_mono_r; lia). lia.
Qed.

Lemma digits2_pos_shift (p mz : positive) (k : Z) :
  (0 <= k)%Z ->
  Z.pos mz = (Z.pos p * 2 ^ k)%Z ->
  Z.pos (SpecFloat.digits2_pos mz)
  = (Z.pos (SpecFloat.digits2_pos p) + k)%Z.
Proof.
  intros Hk E. apply digits2_pos_unique. rewrite E.
  pose proof (digits2_pos_bounds p) as [Blo Bhi].
  set (d := Z.pos (SpecFloat.digits2_pos p)) in *.
  assert (Hd : (0 < d)%Z) by (subst d; lia).
  assert (Hp : (0 < 2 ^ k)%Z) by (apply Z.pow_pos_nonneg; lia).
  replace (d + k - 1)%Z with ((d - 1) + k)%Z by lia.
  rewrite (Z.pow_add_r 2 (d - 1) k) by lia.
  rewrite (Z.pow_add_r 2 d k) by lia.
  split.
  - apply Z.mul_le_mono_nonneg_r; lia.
  - apply Z.mul_lt_mono_pos_r; lia.
Qed.

(** Rounding a value that needs no shift to the right. *)
Lemma binary_round_aux_noshift (mz : positive) (ez : Z) :
  (SpecFloat.fexp FloatOps.prec FloatOps.emax
     (Z.pos (SpecFloat.digits2_pos mz) + ez) <= ez)%Z ->
  SpecFloat.binary_round_aux FloatOps.prec FloatOps.emax false
    (Z.pos mz) ez SpecFloat.loc_Exact
  = if (ez <=? 971)%Z then SpecFloat.S754_finite false mz ez
    else SpecFloat.S754_infinity false.
Proof.
  intros H. unfold SpecFloat.binary_round_aux.
  rewrite shr_fexp_noshift by (rewrite Zdigits2_pos; exact H).
  cbn [SpecFloat.shr_record_of_loc SpecFloat.shr_m
       SpecFloat.loc_of_shr_record SpecFloat.round_nearest_even].
  rewrite shr_fexp_noshift by (rewrite Zdigits2_pos; exact H).
  cbn [SpecFloat.shr_record_of_loc SpecFloat.shr_m].
  reflexivity.
Qed.

Lemma shl_align_left (p : positive) (e c : Z) :
  (c < e)%Z ->
  exists mz : positive,
    SpecFloat.shl_align p e c = (mz, c)
    /\ Z.pos mz = (Z.pos p * 2 ^ (e - c))%Z.
Proof.
  intros H. unfold SpecFloat.shl_align.
  change (IntDef.Z.sub c e) with (c - e)%Z.
  destruct (c - e)%Z as [|d|d] eqn:E; try lia.
  exists (Pos.iter xO p d). split; [reflexivity|].
  rewrite pos_iter_xO. f_equal. f_equal. lia.
Qed.

Lemma shl_align_stay (p : positive) (e c : Z) :
  (e <= c)%Z -> SpecFloat.shl_align p e c = (p, e).
Proof.
  intros H. unfold SpecFloat.shl_align.
  change (IntDef.Z.sub c e) with (c - e)%Z.
  destruct (c - e)%Z as [|d|d] eqn:E; try reflexivity. lia.
Qed.

(** A value that is a double is rounded to itself: [p * 2^e] is kept
    when the digits below the exponent the format gives it are zeros. *)
Lemma binary_round_exact (p : positive) (e : Z) :
  let c := SpecFloat.fexp FloatOps.prec FloatOps.emax
             (Z.pos (SpecFloat.digits2_pos p) + e) in
  (-1074 <= e)%Z ->
  (c <= 971)%Z ->
  (e < c -> exists k : Z, Z.pos p = k * 2 ^ (c - e))%Z ->
  exists (m' : positive) (e' : Z),
    SpecFloat.binary_round FloatOps.prec FloatOps.emax false p e
    = SpecFloat.S754_finite false m' e'
    /\ (-1074 <= e')%Z
    /\ (Z.pos m' * 2 ^ (e' + 1074) = Z.pos p * 2 ^ (e + 1074))%Z.
Proof.
  intros c He Hc Hrep.
  assert (Hc0 : (-1074 <= c)%Z) by (subst c; rewrite fexp_eq; lia).
  unfold SpecFloat.binary_round.
  change (IntDef.Z.add ?a ?b) with (a + b)%Z.
  assert (Ec : SpecFloat.fexp FloatOps.prec FloatOps.emax
                 (Z.pos (SpecFloat.digits2_pos p) + e) = c) by reflexivity.
  clearbody c. rewrite Ec.
  destruct (Z.lt_ge_cases c e) as [Hlt|Hge].
  - destruct (@shl_align_left p e c Hlt) as (mz & -> & Hmz).
    pose proof (@digits2_pos_shift p mz (e - c) ltac:(lia) Hmz) as Hd.
    rewrite binary_round_aux_noshift.
    + leb_true. exists mz, c.
      split; [reflexivity|]. split; [assumption|].
      rewrite Hmz, <- Z.mul_assoc. f_equal.
      rewrite <- (Z.pow_add_r 2 (e - c) (c + 1074)) by lia.
      f_equal. lia.
    + rewrite Hd.
      replace (Z.pos (SpecFloat.digits2_pos p) + (e - c) + c)%Z
        with (Z.pos (SpecFloat.digits2_pos p) + e)%Z by lia.
      rewrite Ec. lia.
  - rewrite (@shl_align_stay p e c Hge).
    destruct (Z.eq_dec c e) as [Heq|Hne].
    + rewrite binary_round_aux_noshift by (rewrite Ec; lia).
      leb_true. exists p, e. split; [reflexivity|]. split; [lia|].
      reflexivity.
    + assert (Hlt : (e < c)%Z) by lia.
      destruct (Hrep Hlt) as [k Hk].
      assert (Hpow : (0 < 2 ^ (c - e))%Z) by (apply Z.pow_pos_nonneg; lia).
      assert (Hkpos : (0 < k)%Z) by nia.
      destruct (c - e)%Z as [|q|q] eqn:Eq; try lia.
      unfold SpecFloat.binary_round_aux.
      rewrite (@shr_fexp_shift (Z.pos p) e SpecFloat.loc_Exact q)
        by (rewrite Zdigits2_pos, Ec; exact Eq).
      cbn [SpecFloat.shr_record_of_loc]. rewrite Hk.
      rewrite (iter_shr_1_exact q) by lia.
      cbn [SpecFloat.shr_m SpecFloat.loc_of_shr_record
           SpecFloat.round_nearest_even].
      replace (e + Z.pos q)%Z with c by lia.
      destruct k as [|kp|kp]; try lia.
      assert (Hdk : (Z.pos (SpecFloat.digits2_pos p)
                     = Z.pos (SpecFloat.digits2_pos kp) + Z.pos q)%Z).
      { apply digits2_pos_shift; [lia|exact Hk]. }
      rewrite shr_fexp_noshift.
      * cbn [SpecFloat.shr_record_of_loc SpecFloat.shr_m].
        leb_true. exists kp, c.
        split; [reflexivity|]. split; [assumption|].
        rewrite <- Z.mul_assoc. f_equal.
        rewrite <- (Z.pow_add_r 2 (Z.pos q) (e + 1074)) by lia.
        f_equal. lia.
      * rewrite Zdigits2_pos.
        replace (Z.pos (SpecFloat.digits2_pos kp) + c)%Z
          with (Z.pos (SpecFloat.digits2_pos p) + e)%Z by lia.
        rewrite Ec. lia.
Qed.

(** ** Subtraction of doubles *)

(** The operands of a subtraction brought to one exponent. *)
Lemma shl_align_units (m : positive) (e ez : Z) :
  (-1074 <= ez <= e)%Z ->
  (Z.pos (fst (SpecFloat.shl_align m e ez)) * 2 ^ (ez + 1074)
   = Z.pos m * 2 ^ (e + 1074))%Z.
Proof.
  intros [H0 H1]. destruct (Z.eq_dec ez e) as [->|Hne].
  - rewrite shl_align_stay by lia. reflexivity.
  - destruct (@shl_align_left m e ez ltac:(lia)) as (mz & -> & Hmz).
    cbn [fst]. rewrite Hmz, <- Z.mul_assoc. f_equal.
    rewrite <- (Z.pow_add_r 2 (e - ez) (ez + 1074)) by lia.
    f_equal. lia.
Qed.

Lemma finite_units_nonneg (s : bool) (m : positive) (e : Z) :
  (-1074 <= e)%Z ->
  (0 <= SpecFloat.cond_Zopp s (Z.pos m * 2 ^ (e + 1074)))%Z ->
  s = false.
Proof.
  intros He H. destruct s; [|reflexivity].
  cbn [SpecFloat.cond_Zopp] in H.
  change (IntDef.Z.opp ?x) with (- x)%Z in H.
  assert (0 < Z.pos m * 2 ^ (e + 1074))%Z
    by (apply Z.mul_pos_pos; [lia|apply Z.pow_pos_nonneg; lia]).
  lia.
Qed.

(** The digits of [p] when [p * 2^(e + 1074)] is below [2^n]. *)
Lemma digits_below (p : positive) (e n : Z) :
  (-1074 <= e)%Z ->
  (Z.pos p * 2 ^ (e + 1074) < 2 ^ n)%Z ->
  (Z.pos (SpecFloat.digits2_pos p) + e + 1074 <= n)%Z.
Proof.
  intros He H.
  pose proof (digits2_pos_bounds p) as [Blo _].
  set (d := Z.pos (SpecFloat.digits2_pos p)) in *.
  assert (Hd : (0 < d)%Z) by (subst d; lia).
  destruct (Z.le_gt_cases (d + e + 1074) n) as [Hle|Hgt]; [assumption|].
  exfalso.
  assert (Hk : (0 < 2 ^ (e + 1074))%Z) by (apply Z.pow_pos_nonneg; lia).
  assert (H1 : (2 ^ (d - 1) * 2 ^ (e + 1074)
                <= Z.pos p * 2 ^ (e + 1074))%Z)
    by (apply Z.mul_le_mono_nonneg_r; lia).
  rewrite <- (Z.pow_add_r 2 (d - 1) (e + 1074)) in H1 by lia.
  assert (H2 : (2 ^ n <= 2 ^ (d - 1 + (e + 1074)))%Z)
    by (apply Z.pow_le_mono_r; lia).
  lia.
Qed.

(** Between values on one binary grid subtraction is exact: for finite
    [b <= a], both whole multiples of [2^g] units and [a] below
    [2^(53+g)] units, [a - b] is the double of the exact difference. *)
Lemma dbl_sub_exact (g : Z) (a b : PrimFloat.float) :
  (0 <= g <= 2045)%Z ->
  Dbl.finite a = true -> Dbl.finite b = true ->
  (0 <= Dbl.units b <= Dbl.units a)%Z ->
  (Dbl.units a < 2 ^ (53 + g))%Z ->
  (2 ^ g | Dbl.units a)%Z -> (2 ^ g | Dbl.units b)%Z ->
  Dbl.finite (PrimFloat.sub a b) = true
  /\ Dbl.units (PrimFloat.sub a b) = (Dbl.units a - Dbl.units b)%Z.
Proof.
  intros Hg Fa Fb Hab Hlt Da Db.
  unfold Dbl.finite, Dbl.units in *.
  rewrite FloatAxioms.sub_spec.
  pose proof (FloatAxioms.Prim2SF_valid a) as Va.
  pose proof (FloatAxioms.Prim2SF_valid b) as Vb.
  unfold FloatAxioms.SF64sub.
  destruct (FloatOps.Prim2SF a) as [sa|sa| |sa ma ea]; try discriminate;
    destruct (FloatOps.Prim2SF b) as [sb|sb| |sb mb eb]; try discriminate;
    cbn [SpecFloat.valid_binary] in Va, Vb.
  - cbn [SpecFloat.SFsub]. destruct sa, sb; cbn; split; reflexivity.
  - exfalso. apply bounded_canonical in Vb. destruct Vb as (_ & He & _).
    assert (Hs : sb = false)
      by (apply (@finite_units_nonneg sb mb eb He); lia).
    subst sb. cbn [SpecFloat.cond_Zopp] in Hab.
    assert (0 < Z.pos mb * 2 ^ (eb + 1074))%Z
      by (apply Z.mul_pos_pos; [lia|apply Z.pow_pos_nonneg; lia]).
    lia.
  - cbn [SpecFloat.SFsub]. split; [reflexivity|]. lia.
  - pose proof Va as Ca. pose proof Vb as Cb.
    apply bounded_canonical in Ca, Cb.
    destruct Ca as (_ & Hea & _). destruct Cb as (_ & Heb & _).
    assert (Hsb : sb = false)
      by (apply (@finite_units_nonneg sb mb eb Heb); lia).
    assert (Hsa : sa = false)
      by (apply (@finite_units_nonneg sa ma ea Hea); lia).
    subst sa sb. cbn [SpecFloat.cond_Zopp] in *.
    cbn [SpecFloat.SFsub SpecFloat.cond_Zopp].
    change (IntDef.Z.min ea eb) with (Z.min ea eb).
    set (ez := Z.min ea eb).
    assert (Hez : (-1074 <= ez)%Z) by (subst ez; lia).
    pose proof (@shl_align_units ma ea ez ltac:(subst ez; lia)) as Ua.
    pose proof (@shl_align_units mb eb ez ltac:(subst ez; lia)) as Ub.
    set (ma' := fst (SpecFloat.shl_align ma ea ez)) in *.
    set (mb' := fst (SpecFloat.shl_align mb eb ez)) in *.
    change (IntDef.Z.sub (Z.pos ma') (Z.pos mb'))
      with (Z.pos ma' - Z.pos mb')%Z.
    assert (Hk : (0 < 2 ^ (ez + 1074))%Z) by (apply Z.pow_pos_nonneg; lia).
    assert (HU : ((Z.pos ma' - Z.pos mb') * 2 ^ (ez + 1074)
                  = Z.pos ma * 2 ^ (ea + 1074)
                    - Z.pos mb * 2 ^ (eb + 1074))%Z)
      by (rewrite Z.mul_sub_distr_r; lia).
    destruct (Z.pos ma' - Z.pos mb')%Z as [|p|p] eqn:Em;
      cbn [SpecFloat.binary_normalize].
    + split; [reflexivity|]. lia.
    + set (U := (Z.pos ma * 2 ^ (ea + 1074)
                 - Z.pos mb * 2 ^ (eb + 1074))%Z) in *.
      assert (HUlt : (Z.pos p * 2 ^ (ez + 1074) < 2 ^ (53 + g))%Z) by lia.
      pose proof (@digits_below p ez (53 + g) Hez HUlt) as Hdig.
      assert (Hdiv : (2 ^ g | Z.pos p * 2 ^ (ez + 1074))%Z).
      { rewrite HU. subst U. now apply Z.divide_sub_r. }
      destruct (@binary_round_exact p ez Hez) as (m' & e' & -> & He' & Hv).
      * rewrite fexp_eq. lia.
      * rewrite fexp_eq. intros Hc.
        set (c := Z.max (Z.pos (SpecFloat.digits2_pos p) + ez - 53)
                    (-1074)) in *.
        destruct Hdiv as [j Hj].
        exists (j * 2 ^ (g - (c + 1074)))%Z.
        assert (Hgc : (0 <= g - (c + 1074))%Z) by (subst c; lia).
        apply (Z.mul_reg_r _ _ (2 ^ (ez + 1074))); [lia|].
        rewrite Hj, <- !Z.mul_assoc. f_equal.
        rewrite <- (Z.pow_add_r 2 (c - ez) (ez + 1074)) by lia.
        rewrite <- (Z.pow_add_r 2 (g - (c + 1074)) (c - ez + (ez + 1074)))
          by lia.
        f_equal. lia.
      * split; [reflexivity|]. cbn [SpecFloat.cond_Zopp]. lia.
    + exfalso. lia.
Qed.

Lemma bounded_exponent (m : positive) (e : Z) :
  SpecFloat.bounded FloatOps.prec FloatOps.emax m e = true ->
  (e <= 971)%Z.
Proof.
  unfold SpecFloat.bounded. intros H.
  apply andb_true_iff in H. destruct H as [_ H].
  change (IntDef.Z.leb e (IntDef.Z.sub FloatOps.emax FloatOps.prec))
    with (e <=? 971)%Z in H.
  now apply Z.leb_le in H.
Qed.

(** No finite double is above [(2^53 - 1) * 2^971]. *)
Lemma bounded_units (m : positive) (e : Z) :
  SpecFloat.bounded FloatOps.prec FloatOps.emax m e = true ->
  (Z.pos m * 2 ^ (e + 1074) <= (2 ^ 53 - 1) * 2 ^ 2045)%Z.
Proof.
  intros H. pose proof (bounded_exponent _ _ H) as He.
  apply bounded_canonical in H. destruct H as (Hd & He0 & _).
  pose proof (digits2_pos_bounds m) as [_ Hm].
  assert (Hm' : (Z.pos m < 2 ^ 53)%Z).
  { eapply Z.lt_le_trans; [exact Hm|]. apply Z.pow_le_mono_r; lia. }
  assert (Hp : (0 < 2 ^ (e + 1074) <= 2 ^ 2045)%Z).
  { split; [apply Z.pow_pos_nonneg; lia|apply Z.pow_le_mono_r; lia]. }
  apply Z.mul_le_mono_nonneg; lia.
Qed.

(** Rounding a positive value below the largest double gives a positive
    finite double. *)
Lemma binary_round_finite (p : positive) (e : Z) :
  (-1074 <= e)%Z ->
  (Z.pos p * 2 ^ (e + 1074) < (2 ^ 53 - 1) * 2 ^ 2045)%Z ->
  exists (m' : positive) (e' : Z),
    SpecFloat.binary_round FloatOps.prec FloatOps.emax false p e
    = SpecFloat.S754_finite false m' e'
    /\ (-1074 <= e')%Z.
Proof.
  intros He HU.
  assert (HU' : (Z.pos p * 2 ^ (e + 1074) < 2 ^ (53 + 2045))%Z).
  { eapply Z.lt_trans; [exact HU|].
    rewrite (Z.pow_add_r 2 53 2045) by lia.
    apply Z.mul_lt_mono_pos_r; [apply Z.pow_pos_nonneg; lia|lia]. }
  pose proof (@digits_below p e (53 + 2045) He HU') as Hdig.
  pose proof (digits2_pos_bounds p) as [Blo Bhi].
  unfold SpecFloat.binary_round.
  change (IntDef.Z.add ?a ?b) with (a + b)%Z.
  set (d := Z.pos (SpecFloat.digits2_pos p)) in *.
  assert (Hd : (0 < d)%Z) by (subst d; lia).
  assert (Ec : SpecFloat.fexp FloatOps.prec FloatOps.emax (d + e)
               = Z.max (d + e - 53) (-1074)) by apply fexp_eq.
  set (c := Z.max (d + e - 53) (-1074)) in *.
  assert (Hc : (-1074 <= c <= 971)%Z) by (subst c; lia).
  rewrite Ec.
  destruct (Z.lt_ge_cases c e) as [Hlt|Hge].
  - destruct (@shl_align_left p e c Hlt) as (mz & -> & Hmz).
    pose proof (@digits2_pos_shift p mz (e - c) ltac:(lia) Hmz) as Hdz.
    fold d in Hdz.
    rewrite binary_round_aux_noshift.
    + leb_true. exists mz, c. split; [reflexivity|lia].
    + rewrite Hdz. replace (d + (e - c) + c)%Z with (d + e)%Z by lia.
      rewrite Ec. lia.
  - rewrite (@shl_align_stay p e c Hge).
    destruct (Z.eq_dec c e) as [Heq|Hne].
    + rewrite binary_round_aux_noshift by (fold d; rewrite Ec; lia).
      leb_true. exists p, e. split; [reflexivity|lia].
    + assert (Hq : (c - e = d - 53)%Z) by (subst c; lia).
      destruct (c - e)%Z as [|q|q] eqn:Eq; try lia.
      unfold SpecFloat.binary_round_aux.
      rewrite (@shr_fexp_shift (Z.pos p) e SpecFloat.loc_Exact q)
        by (rewrite Zdigits2_pos; fold d; rewrite Ec; exact Eq).
      cbn [SpecFloat.shr_record_of_loc].
      set (mrs := SpecFloat.iter_pos SpecFloat.shr_1 q
                    {| SpecFloat.shr_m := Z.pos p;
                       SpecFloat.shr_r := false;
                       SpecFloat.shr_s := false |}).
      assert (Hm1 : SpecFloat.shr_m mrs = (Z.pos p / 2 ^ Z.pos q)%Z).
      { subst mrs. rewrite iter_shr_1_m by (cbn; lia). reflexivity. }
      assert (Hpq : (0 < 2 ^ Z.pos q)%Z) by (apply Z.pow_pos_nonneg; lia).
      assert (Hrange : (2 ^ 52 <= SpecFloat.shr_m mrs < 2 ^ 53)%Z).
      { rewrite Hm1. split.
        - apply Z.div_le_lower_bound; [lia|].
          rewrite <- (Z.pow_add_r 2 (Z.pos q) 52) by lia.
          replace (Z.pos q + 52)%Z with (d - 1)%Z by lia. exact Blo.
        - apply Z.div_lt_upper_bound; [lia|].
          rewrite <- (Z.pow_add_r 2 (Z.pos q) 53) by lia.
          replace (Z.pos q + 53)%Z with d by lia. exact Bhi. }
      pose proof (round_nearest_even_bounds (SpecFloat.shr_m mrs)
                    (SpecFloat.loc_of_shr_record mrs)) as Hround.
      set (m2 := SpecFloat.round_nearest_even (SpecFloat.shr_m mrs)
                   (SpecFloat.loc_of_shr_record mrs)) in *.
      replace (e + Z.pos q)%Z with c by lia.
      change (2 ^ 52)%Z with 4503599627370496%Z in Hrange.
      change (2 ^ 53)%Z with 9007199254740992%Z in Hrange.
      destruct (Z.eq_dec m2 9007199254740992) as [Hcarry|Hno].
      * assert (Hc' : (c <= 970)%Z).
        { destruct (Z.le_gt_cases c 970) as [H|H]; [assumption|exfalso].
          assert (Ec971 : c = 971%Z) by lia.
          assert (Hm1' : SpecFloat.shr_m mrs = 9007199254740991%Z) by lia.
          rewrite Hm1 in Hm1'.
          assert (Hp : (9007199254740991 * 2 ^ Z.pos q <= Z.pos p)%Z).
          { rewrite <- Hm1', Z.mul_comm. apply Z.mul_div_le. lia. }
          assert (Hk : (0 < 2 ^ (e + 1074))%Z)
            by (apply Z.pow_pos_nonneg; lia).
          assert (Hp' : (9007199254740991 * 2 ^ Z.pos q * 2 ^ (e + 1074)
                         <= Z.pos p * 2 ^ (e + 1074))%Z)
            by (apply Z.mul_le_mono_nonneg_r; lia).
          rewrite <- Z.mul_assoc in Hp'.
          rewrite <- (Z.pow_add_r 2 (Z.pos q) (e + 1074)) in Hp' by lia.
          replace (Z.pos q + (e + 1074))%Z with 2045%Z in Hp' by lia.
          change (2 ^ 53 - 1)%Z with 9007199254740991%Z in HU. lia. }
        rewrite Hcarry.
        rewrite (@shr_fexp_shift 9007199254740992 c SpecFloat.loc_Exact 1).
        -- cbn [SpecFloat.shr_record_of_loc SpecFloat.iter_pos
                SpecFloat.shr_1 SpecFloat.shr_m].
           leb_true. eexists _, (c + 1)%Z. split; [reflexivity|lia].
        -- change (SpecFloat.Zdigits2 9007199254740992) with 54%Z.
           rewrite fexp_eq. lia.
      * assert (Hm2 : (4503599627370496 <= m2 < 9007199254740992)%Z)
          by lia.
        rewrite shr_fexp_noshift.
        -- cbn [SpecFloat.shr_record_of_loc SpecFloat.shr_m].
           destruct m2 as [|pm|pm]; try lia.
           leb_true. exists pm, c. split; [reflexivity|lia].
        -- pose proof (@Zdigits2_le m2 53 ltac:(
                         change (2 ^ 53)%Z with 9007199254740992%Z; lia)
                         ltac:(lia)) as Hd2.
           rewrite fexp_eq. lia.
Qed.

(** Taking a smaller from a larger finite value, both at or above zero,
    gives a finite value at or above zero: neither NaN nor an infinity. *)
Lemma dbl_sub_finite (a b : PrimFloat.float) :
  Dbl.finite a = true -> Dbl.finite b = true ->
  (0 <= Dbl.units b <= Dbl.units a)%Z ->
  Dbl.finite (PrimFloat.sub a b) = true
  /\ (0 <= Dbl.units (PrimFloat.sub a b))%Z.
Proof.
  intros Fa Fb Hab.
  unfold Dbl.finite, Dbl.units in *.
  rewrite FloatAxioms.sub_spec.
  pose proof (FloatAxioms.Prim2SF_valid a) as Va.
  pose proof (FloatAxioms.Prim2SF_valid b) as Vb.
  unfold FloatAxioms.SF64sub.
  destruct (FloatOps.Prim2SF a) as [sa|sa| |sa ma ea]; try discriminate;
    destruct (FloatOps.Prim2SF b) as [sb|sb| |sb mb eb]; try discriminate;
    cbn [SpecFloat.valid_binary] in Va, Vb.
  - cbn [SpecFloat.SFsub]. destruct sa, sb; cbn; split; (reflexivity || lia).
  - exfalso. apply bounded_canonical in Vb. destruct Vb as (_ & He & _).
    assert (Hs : sb = false)
      by (apply (@finite_units_nonneg sb mb eb He); lia).
    subst sb. cbn [SpecFloat.cond_Zopp] in Hab.
    assert (0 < Z.pos mb * 2 ^ (eb + 1074))%Z
      by (apply Z.mul_pos_pos; [lia|apply Z.pow_pos_nonneg; lia]).
    lia.
  - cbn [SpecFloat.SFsub]. split; [reflexivity|]. lia.
  - pose proof (bounded_units _ _ Va) as Ba.
    pose proof Va as Ca. pose proof Vb as Cb.
    apply bounded_canonical in Ca, Cb.
    destruct Ca as (_ & Hea & _). destruct Cb as (_ & Heb & _).
    assert (Hsb : sb = false)
      by (apply (@finite_units_nonneg sb mb eb Heb); lia).
    assert (Hsa : sa = false)
      by (apply (@finite_units_nonneg sa ma ea Hea); lia).
    subst sa sb. cbn [SpecFloat.cond_Zopp] in *.
    cbn [SpecFloat.SFsub SpecFloat.cond_Zopp].
    change (IntDef.Z.min ea eb) with (Z.min ea eb).
    set (ez := Z.min ea eb).
    assert (Hez : (-1074 <= ez)%Z) by (subst ez; lia).
    pose proof (@shl_align_units ma ea ez ltac:(subst ez; lia)) as Ua.
    pose proof (@shl_align_units mb eb ez ltac:(subst ez; lia)) as Ub.
    set (ma' := fst (SpecFloat.shl_align ma ea ez)) in *.
    set (mb' := fst (SpecFloat.shl_align mb eb ez)) in *.
    change (IntDef.Z.sub (Z.pos ma') (Z.pos mb'))
      with (Z.pos ma' - Z.pos mb')%Z.
    assert (Hk : (0 < 2 ^ (ez + 1074))%Z) by (apply Z.pow_pos_nonneg; lia).
    assert (Hb : (0 < Z.pos mb * 2 ^ (eb + 1074))%Z)
      by (apply Z.mul_pos_pos; [lia|apply Z.pow_pos_nonneg; lia]).
    assert (HU : ((Z.pos ma' - Z.pos mb') * 2 ^ (ez + 1074)
                  = Z.pos ma * 2 ^ (ea + 1074)
                    - Z.pos mb * 2 ^ (eb + 1074))%Z)
      by (rewrite Z.mul_sub_distr_r; lia).
    destruct (Z.pos ma' - Z.pos mb')%Z as [|p|p] eqn:Em;
      cbn [SpecFloat.binary_normalize].
    + split; [reflexivity|]. lia.
    + destruct (@binary_round_finite p ez Hez) as (m' & e' & -> & He').
      * lia.
      * split; [reflexivity|]. cbn [SpecFloat.cond_Zopp].
        apply Z.mul_nonneg_nonneg; [lia|]. apply Z.pow_nonneg. lia.
    + exfalso. lia.
Qed.

(** * The engine on doubles: the loop *)

Lemma dbl_store_same (h : Dbl.Heap) (r : ref) (o : Dbl.Order.t) :
  Dbl.store h r o r = o.
Proof. unfold Dbl.store. now rewrite Nat.eqb_refl. Qed.

Lemma dbl_store_other (h : Dbl.Heap) (r r' : ref) (o : Dbl.Order.t) :
  r' <> r -> Dbl.store h r o r' = h r'.
Proof.
  intros H. unfold Dbl.store. apply Nat.eqb_neq in H. now rewrite H.
Qed.

Lemma dbl_matchStep_spec (now : nat -> PrimFloat.float)
    (order : Dbl.Order.t) (r : ref) (rem : PrimFloat.float)
    (acc : list Dbl.Trade.t) (st : Dbl.OrderMatcher) :
  exists st',
    Dbl.matchStep now order r rem acc st
    = (PrimFloat.sub rem
         (Dbl.mathMin rem (Dbl.Order.quantity (Dbl.heap st r))),
       acc ++ [Dbl.mkTrade order (Dbl.heap st r) (Dbl.sequenceId st)
                 (Dbl.mathMin rem (Dbl.Order.quantity (Dbl.heap st r)))
                 (now (length acc))],
       st')
    /\ Dbl.heap st'
       = Dbl.store (Dbl.heap st) r
           (Dbl.Order.with_quantity (Dbl.heap st r)
              (PrimFloat.sub (Dbl.Order.quantity (Dbl.heap st r))
                 (Dbl.mathMin rem (Dbl.Order.quantity (Dbl.heap st r)))))
    /\ Dbl.fresh st' = Dbl.fresh st
    /\ Dbl.trades st' = Dbl.trades st
    /\ Dbl.sequenceId st' = (Dbl.sequenceId st + 1)%N
    /\ Dbl.orders st'
       = if Dbl.lez (PrimFloat.sub (Dbl.Order.quantity (Dbl.heap st r))
                       (Dbl.mathMin rem
                          (Dbl.Order.quantity (Dbl.heap st r))))
         then Dbl.removeById (Dbl.heap st') (Dbl.Order.id (Dbl.heap st r))
                (Dbl.orders st)
         else Dbl.orders st.
Proof.
  unfold Dbl.matchStep.
  cbn [Dbl.set_sequenceId Dbl.set_heap Dbl.heap Dbl.sequenceId Dbl.orders].
  rewrite dbl_store_same.
  cbn [Dbl.Order.with_quantity Dbl.Order.quantity Dbl.Order.id].
  destruct (Dbl.lez _) eqn:E; eexists; split; try reflexivity;
    cbn; repeat split; reflexivity.
Qed.

Lemma dbl_removeById_incl (h : Dbl.Heap) (i : string) (l : list ref) :
  incl (Dbl.removeById h i l) l.
Proof. intros x Hx. unfold Dbl.removeById in Hx. now apply filter_In in Hx. Qed.

(** What a step leaves of the book: nothing new, and the order it has
    traded against only with a quantity that is not [<= 0]. *)
Lemma dbl_matchStep_orders (now : nat -> PrimFloat.float)
    (order : Dbl.Order.t) (r : ref) (rem : PrimFloat.float)
    (acc : list Dbl.Trade.t) (st : Dbl.OrderMatcher) :
  let st' := snd (Dbl.matchStep now order r rem acc st) in
  incl (Dbl.orders st') (Dbl.orders st)
  /\ (Dbl.lez (Dbl.Order.quantity (Dbl.heap st' r)) = true ->
      ~ In r (Dbl.orders st'))
  /\ (forall r', r' <> r -> Dbl.heap st' r' = Dbl.heap st r')
  /\ Dbl.fresh st' = Dbl.fresh st.
Proof.
  destruct (dbl_matchStep_spec now order r rem acc st)
    as (st' & Hstep & Hheap & Hfresh & _ & _ & Hord).
  rewrite Hstep. cbn [snd].
  split; [|split; [|split]].
  - rewrite Hord. destruct (Dbl.lez _); [|apply incl_refl].
    apply dbl_removeById_incl.
  - intros E Hin.
    rewrite Hheap, dbl_store_same in E.
    cbn [Dbl.Order.with_quantity Dbl.Order.quantity] in E.
    rewrite Hord, E in Hin.
    unfold Dbl.removeById in Hin. apply filter_In in Hin.
    destruct Hin as [_ Hid]. rewrite Hheap, dbl_store_same in Hid.
    cbn [Dbl.Order.with_quantity Dbl.Order.id] in Hid.
    now rewrite String.eqb_refl in Hid.
  - intros r' Hne. rewrite Hheap. now apply dbl_store_other.
  - assumption.
Qed.

Lemma dbl_matchLoop_cons (now : nat -> PrimFloat.float)
    (order : Dbl.Order.t) (r : ref) (rest : list ref)
    (rem : PrimFloat.float) (acc : list Dbl.Trade.t)
    (st : Dbl.OrderMatcher) :
  Dbl.matchLoop now order (r :: rest) rem acc st
  = if Dbl.lez rem then (rem, acc, st)
    else Dbl.matchLoop now order rest
           (fst (fst (Dbl.matchStep now order r rem acc st)))
           (snd (fst (Dbl.matchStep now order r rem acc st)))
           (snd (Dbl.matchStep now order r rem acc st)).
Proof.
  cbn [Dbl.matchLoop]. destruct (Dbl.lez rem); [reflexivity|].
  now destruct (Dbl.matchStep now order r rem acc st) as [[? ?] ?].
Qed.

Lemma dbl_matchLoop_shape (now : nat -> PrimFloat.float)
    (order : Dbl.Order.t) (opp : list ref) :
  forall (rem : PrimFloat.float) (acc : list Dbl.Trade.t)
         (st : Dbl.OrderMatcher),
  exists rem' created st',
    Dbl.matchLoop now order opp rem acc st = (rem', acc ++ created, st')
    /\ (length created <= length opp)%nat
    /\ Dbl.fresh st' = Dbl.fresh st
    /\ Dbl.trades st' = Dbl.trades st
    /\ incl (Dbl.orders st') (Dbl.orders st).
Proof.
  induction opp as [|r rest IH]; intros rem acc st.
  - exists rem, [], st. cbn. rewrite app_nil_r.
    repeat split; auto using incl_refl.
  - rewrite dbl_matchLoop_cons. destruct (Dbl.lez rem).
    + exists rem, [], st. rewrite app_nil_r. cbn.
      repeat split; auto using incl_refl. lia.
    + destruct (dbl_matchStep_spec now order r rem acc st)
        as (st1 & Hstep & _ & Hfresh & Htr & _ & _).
      pose proof (dbl_matchStep_orders now order r rem acc st)
        as (Hincl & _).
      rewrite Hstep in *. cbn [fst snd] in *.
      destruct (IH (PrimFloat.sub rem
                      (Dbl.mathMin rem
                         (Dbl.Order.quantity (Dbl.heap st r))))
                  (acc ++ [Dbl.mkTrade order (Dbl.heap st r)
                             (Dbl.sequenceId st)
                             (Dbl.mathMin rem
                                (Dbl.Order.quantity (Dbl.heap st r)))
                             (now (length acc))]) st1)
        as (rem' & created & st' & Hloop & Hlen & Hf & Ht & Hi).
      eexists rem', (_ :: created), st'.
      rewrite Hloop, <- app_assoc. cbn [app length].
      split; [reflexivity|]. split; [lia|]. split; [congruence|].
      split; [congruence|].
      intros x Hx. apply Hincl. now apply Hi.
Qed.

(** The loop keeps the book free of quantities that are [<= 0]. *)
Lemma dbl_matchLoop_resting (now : nat -> PrimFloat.float)
    (order : Dbl.Order.t) (opp : list ref) :
  forall (rem : PrimFloat.float) (acc : list Dbl.Trade.t)
         (st : Dbl.OrderMatcher),
    Dbl.resting_not_nonpositive st ->
    Dbl.resting_not_nonpositive
      (snd (Dbl.matchLoop now order opp rem acc st)).
Proof.
  induction opp as [|r rest IH]; intros rem acc st H; [exact H|].
  rewrite dbl_matchLoop_cons. destruct (Dbl.lez rem); [exact H|].
  apply IH.
  pose proof (dbl_matchStep_orders now order r rem acc st)
    as (Hincl & Hrem & Hheap & _).
  cbv zeta in *.
  set (st1 := snd (Dbl.matchStep now order r rem acc st)) in *.
  unfold Dbl.resting_not_nonpositive in *. rewrite Forall_forall in *.
  intros x Hx. destruct (Nat.eq_dec x r) as [->|Hne].
  - destruct (Dbl.lez (Dbl.Order.quantity (Dbl.heap st1 r))) eqn:E;
      [|reflexivity].
    now elim (Hrem eq_refl).
  - rewrite (Hheap x Hne). apply H. now apply Hincl.
Qed.

Lemma dbl_addOrder_eq (now : nat -> PrimFloat.float) (order : Dbl.Order.t)
    (st : Dbl.OrderMatcher) (rem' : PrimFloat.float)
    (created : list Dbl.Trade.t) (st1 : Dbl.OrderMatcher) :
  Dbl.matchLoop now order (Dbl.opposingOrders order st)
    (Dbl.Order.quantity order) [] st
  = (rem', created, st1) ->
  Dbl.addOrder now order st
  = if Dbl.rests order rem'
    then ((created, Some (Dbl.fresh st1)),
          {| Dbl.heap := Dbl.store (Dbl.heap st1) (Dbl.fresh st1)
                           (Dbl.Order.with_quantity order rem');
             Dbl.fresh := S (Dbl.fresh st1);
             Dbl.orders := Dbl.orders st1 ++ [Dbl.fresh st1];
             Dbl.trades := Dbl.trades st1 ++ created;
             Dbl.sequenceId := Dbl.sequenceId st1 |})
    else ((created, None),
          Dbl.set_trades st1 (Dbl.trades st1 ++ created)).
Proof.
  unfold Dbl.addOrder, Dbl.opposingOrders, Dbl.rests, Dbl.matchMarketOrder,
    Dbl.matchLimitOrder.
  destruct (Dbl.Order.type order); intros ->.
  - destruct (Dbl.gtz rem'); reflexivity.
  - destruct (Dbl.gtz rem') eqn:E; [|reflexivity].
    cbn [Dbl.alloc Dbl.heap Dbl.set_orders Dbl.orders].
    rewrite dbl_store_same.
    cbn [Dbl.Order.quantity Dbl.Order.with_quantity]. rewrite E.
    reflexivity.
Qed.

(** * The engine on doubles: resting quantities *)

Lemma dbl_addOrder_inv (now : nat -> PrimFloat.float)
    (order : Dbl.Order.t) (st : Dbl.OrderMatcher) :
  Dbl.allocated st -> Dbl.resting_not_nonpositive st ->
  Dbl.allocated (snd (Dbl.addOrder now order st))
  /\ Dbl.resting_not_nonpositive (snd (Dbl.addOrder now order st))
  /\ (forall r,
        snd (fst (Dbl.addOrder now order st)) = Some r ->
        In r (Dbl.orders (snd (Dbl.addOrder now order st)))
        /\ Dbl.gtz (Dbl.Order.quantity
                      (Dbl.heap (snd (Dbl.addOrder now order st)) r))
           = true).
Proof.
  intros Hal Hnn.
  destruct (dbl_matchLoop_shape now order (Dbl.opposingOrders order st)
              (Dbl.Order.quantity order) [] st)
    as (rem' & created & st1 & Hloop & _ & Hf & _ & Hincl).
  pose proof (@dbl_matchLoop_resting now order
                (Dbl.opposingOrders order st) (Dbl.Order.quantity order)
                [] st Hnn) as Hnn1.
  rewrite Hloop in Hnn1. cbn [snd app] in Hnn1. cbn [app] in Hloop.
  rewrite (dbl_addOrder_eq _ _ _ Hloop).
  assert (Hal1 : Forall (fun r => (r < Dbl.fresh st1)%nat)
                   (Dbl.orders st1)).
  { unfold Dbl.allocated in Hal. rewrite Forall_forall in *.
    intros x Hx. rewrite Hf. apply Hal. now apply Hincl. }
  unfold Dbl.allocated, Dbl.resting_not_nonpositive in *.
  destruct (Dbl.rests order rem') eqn:Hr;
    cbn [fst snd Dbl.heap Dbl.fresh Dbl.orders Dbl.set_trades].
  - assert (Hg : Dbl.gtz rem' = true).
    { unfold Dbl.rests in Hr. now destruct (Dbl.Order.type order). }
    split; [|split].
    + apply Forall_app. split.
      * eapply Forall_impl; [|exact Hal1]. cbn. intros; lia.
      * constructor; [lia|constructor].
    + apply Forall_app. split.
      * rewrite Forall_forall in *. intros x Hx.
        rewrite dbl_store_other by (specialize (Hal1 x Hx); lia).
        now apply Hnn1.
      * constructor; [|constructor]. rewrite dbl_store_same.
        cbn [Dbl.Order.with_quantity Dbl.Order.quantity].
        now apply dbl_gtz_lez.
    + intros r [= <-]. split.
      * apply in_or_app. right. now left.
      * rewrite dbl_store_same. exact Hg.
  - split; [assumption|]. split; [assumption|]. discriminate.
Qed.

Lemma dbl_call_inv (c : Dbl.Call) (st : Dbl.OrderMatcher) :
  Dbl.allocated st /\ Dbl.resting_not_nonpositive st ->
  Dbl.allocated (Dbl.call c st)
  /\ Dbl.resting_not_nonpositive (Dbl.call c st).
Proof.
  intros [Hal Hnn]. destruct c as [now order|orderId|]; cbn [Dbl.call].
  - destruct (dbl_addOrder_inv now order Hal Hnn) as (H1 & H2 & _).
    now split.
  - unfold Dbl.removeOrder, Dbl.allocated, Dbl.resting_not_nonpositive in *.
    cbn [snd Dbl.set_orders Dbl.orders Dbl.heap Dbl.fresh].
    rewrite Forall_forall in Hal, Hnn.
    split; apply Forall_forall; intros x Hx; [apply Hal|apply Hnn];
      now apply dbl_removeById_incl in Hx.
  - split; constructor.
Qed.

Lemma dbl_reachable_inv (st : Dbl.OrderMatcher) :
  Dbl.reachable st ->
  Dbl.allocated st /\ Dbl.resting_not_nonpositive st.
Proof.
  induction 1 as [|c st _ IH].
  - split; constructor.
  - now apply dbl_call_inv.
Qed.

(** * The engine on doubles: finite quantities and quantities on a grid *)

Lemma dbl_sort_insert_In (A : Type) (c : A -> A -> PrimFloat.float)
    (x y : A) (l : list A) :
  In y (Dbl.sort_insert c x l) -> y = x \/ In y l.
Proof.
  induction l as [|z l IH]; cbn [Dbl.sort_insert].
  - intros [<-|[]]. now left.
  - destruct (Dbl.gtz (c x z)).
    + intros [<-|H]; [right; now left|].
      destruct (IH H) as [->|H']; [now left|right; now right].
    + intros [<-|H]; [now left|now right].
Qed.

Lemma dbl_sort_In (A : Type) (c : A -> A -> PrimFloat.float) (y : A)
    (l : list A) :
  In y (Dbl.sort c l) -> In y l.
Proof.
  induction l as [|x l IH]; cbn [Dbl.sort]; [trivial|].
  intros H. apply dbl_sort_insert_In in H.
  destruct H as [->|H]; [now left|right; now apply IH].
Qed.

Lemma dbl_opposingOrders_incl (order : Dbl.Order.t)
    (st : Dbl.OrderMatcher) :
  incl (Dbl.opposingOrders order st) (Dbl.orders st).
Proof.
  intros x. unfold Dbl.opposingOrders, Dbl.marketOpposingOrders,
    Dbl.limitOpposingOrders.
  destruct (Dbl.Order.type order); intros H; apply dbl_sort_In in H;
    now apply filter_In in H.
Qed.

Lemma dbl_lez_gtz (x : PrimFloat.float) :
  Dbl.lez x = true -> Dbl.gtz x = false.
Proof.
  unfold Dbl.lez, Dbl.gtz.
  rewrite FloatAxioms.leb_spec, FloatAxioms.ltb_spec.
  unfold SpecFloat.SFleb, SpecFloat.SFltb. rewrite Prim2SF_zero.
  destruct (FloatOps.Prim2SF x) as [s|s| |s m e]; cbn;
    try destruct s; intros H; try reflexivity; discriminate.
Qed.

(** A finite quantity that is not [<= 0] is above zero. *)
Lemma dbl_finite_positive (x : PrimFloat.float) :
  Dbl.finite x = true -> Dbl.lez x = false ->
  Dbl.gtz x = true /\ (0 < Dbl.units x)%Z.
Proof.
  intros F L. rewrite (@dbl_lez_units x F) in L.
  rewrite (@dbl_gtz_units x F). apply Z.leb_gt in L.
  split; [now apply Z.ltb_lt|assumption].
Qed.

Section GoodValues.
Variable P : PrimFloat.float -> Prop.
Hypothesis P_amount : forall x, P x -> Dbl.amount x.
Hypothesis P_sub :
  forall a b,
    P a -> P b -> (Dbl.units b <= Dbl.units a)%Z -> P (PrimFloat.sub a b).

Lemma dbl_min_good (rem q : PrimFloat.float) :
  P rem -> P q ->
  P (Dbl.mathMin rem q)
  /\ (Dbl.units (Dbl.mathMin rem q) <= Dbl.units rem)%Z
  /\ (Dbl.units (Dbl.mathMin rem q) <= Dbl.units q)%Z.
Proof.
  intros Hr Hq.
  destruct (@P_amount rem Hr) as [Fr _].
  destruct (@P_amount q Hq) as [Fq _].
  rewrite (@dbl_min_units rem q Fr Fq).
  split; [|lia].
  destruct (@dbl_min_cases rem q (@dbl_finite_not_nan rem Fr)
              (@dbl_finite_not_nan q Fq)) as [-> | ->]; assumption.
Qed.

Lemma dbl_matchStep_good (now : nat -> PrimFloat.float)
    (order : Dbl.Order.t) (r : ref) (rem : PrimFloat.float)
    (acc : list Dbl.Trade.t) (st : Dbl.OrderMatcher) :
  Dbl.heapOf P st -> (r < Dbl.fresh st)%nat -> P rem ->
  P (fst (fst (Dbl.matchStep now order r rem acc st)))
  /\ Dbl.heapOf P (snd (Dbl.matchStep now order r rem acc st)).
Proof.
  intros Hh Hr Hrem.
  destruct (dbl_matchStep_spec now order r rem acc st)
    as (st1 & Hstep & Hheap & Hfresh & _).
  rewrite Hstep. cbn [fst snd].
  destruct (@dbl_min_good rem _ Hrem (Hh r Hr)) as (Ht & Htr & Htq).
  split; [now apply P_sub|].
  intros x Hx. rewrite Hheap. rewrite Hfresh in Hx.
  destruct (Nat.eq_dec x r) as [->|Hne].
  - rewrite dbl_store_same.
    cbn [Dbl.Order.with_quantity Dbl.Order.quantity].
    apply P_sub; [now apply Hh|assumption|assumption].
  - rewrite dbl_store_other by assumption. now apply Hh.
Qed.

Lemma dbl_matchLoop_good (now : nat -> PrimFloat.float)
    (order : Dbl.Order.t) (opp : list ref) :
  forall (rem : PrimFloat.float) (acc : list Dbl.Trade.t)
         (st : Dbl.OrderMatcher),
    Dbl.heapOf P st ->
    Forall (fun r => (r < Dbl.fresh st)%nat) opp ->
    P rem ->
    P (fst (fst (Dbl.matchLoop now order opp rem acc st)))
    /\ Dbl.heapOf P (snd (Dbl.matchLoop now order opp rem acc st)).
Proof.
  induction opp as [|r rest IH]; intros rem acc st Hh Hopp Hrem.
  - cbn. now split.
  - rewrite dbl_matchLoop_cons. destruct (Dbl.lez rem); [now split|].
    apply Forall_cons_iff in Hopp. destruct Hopp as [Hr Hrest].
    destruct (@dbl_matchStep_good now order r rem acc st Hh Hr Hrem)
      as [Hrem1 Hh1].
    pose proof (dbl_matchStep_orders now order r rem acc st)
      as (_ & _ & _ & Hf).
    cbv zeta in Hf.
    apply IH; [assumption| |assumption].
    rewrite Hf. exact Hrest.
Qed.

(** [addOrder] with a quantity that is [P], or one that is [<= 0]. *)
Lemma dbl_addOrder_good (now : nat -> PrimFloat.float)
    (order : Dbl.Order.t) (st : Dbl.OrderMatcher) :
  Dbl.allocated st -> Dbl.heapOf P st ->
  P (Dbl.Order.quantity order) \/ Dbl.lez (Dbl.Order.quantity order) = true ->
  Dbl.heapOf P (snd (Dbl.addOrder now order st)).
Proof.
  intros Hal Hh Hq.
  destruct (dbl_matchLoop_shape now order (Dbl.opposingOrders order st)
              (Dbl.Order.quantity order) [] st)
    as (rem' & created & st1 & Hloop & _ & Hf & _ & _).
  cbn [app] in Hloop.
  assert (Hopp : Forall (fun r => (r < Dbl.fresh st)%nat)
                   (Dbl.opposingOrders order st)).
  { unfold Dbl.allocated in Hal. rewrite Forall_forall in *.
    intros x Hx. apply Hal. now apply dbl_opposingOrders_incl in Hx. }
  rewrite (dbl_addOrder_eq _ _ _ Hloop).
  destruct Hq as [Hq|Hq].
  - pose proof (@dbl_matchLoop_good now order _ _ [] st Hh Hopp Hq)
      as [Hrem1 Hh1].
    rewrite Hloop in Hrem1, Hh1. cbn [fst snd] in Hrem1, Hh1.
    destruct (Dbl.rests order rem'); cbn [snd]; [|exact Hh1].
    intros x Hx. cbn [Dbl.heap Dbl.fresh] in *.
    destruct (Nat.eq_dec x (Dbl.fresh st1)) as [->|Hne].
    + rewrite dbl_store_same. exact Hrem1.
    + rewrite dbl_store_other by assumption. apply Hh1. lia.
  - assert (E : Dbl.matchLoop now order (Dbl.opposingOrders order st)
                  (Dbl.Order.quantity order) [] st
                = (Dbl.Order.quantity order, [], st)).
    { destruct (Dbl.opposingOrders order st) as [|x l]; [reflexivity|].
      rewrite dbl_matchLoop_cons, Hq. reflexivity. }
    rewrite Hloop in E. injection E as -> -> ->.
    assert (Hr : Dbl.rests order (Dbl.Order.quantity order) = false).
    { unfold Dbl.rests. destruct (Dbl.Order.type order); [reflexivity|].
      now apply dbl_lez_gtz. }
    rewrite Hr. cbn [snd]. exact Hh.
Qed.

Lemma dbl_call_good (c : Dbl.Call) (st : Dbl.OrderMatcher) :
  Dbl.allocated st -> Dbl.heapOf P st ->
  match c with
  | Dbl.CallAddOrder _ order =>
      P (Dbl.Order.quantity order)
      \/ Dbl.lez (Dbl.Order.quantity order) = true
  | _ => True
  end ->
  Dbl.heapOf P (Dbl.call c st).
Proof.
  intros Hal Hh Hc. destruct c as [now order|orderId|]; cbn [Dbl.call].
  - now apply dbl_addOrder_good.
  - exact Hh.
  - exact Hh.
Qed.

End GoodValues.

Lemma dbl_amount_sub (a b : PrimFloat.float) :
  Dbl.amount a -> Dbl.amount b -> (Dbl.units b <= Dbl.units a)%Z ->
  Dbl.amount (PrimFloat.sub a b).
Proof.
  intros [Fa Ha] [Fb Hb] Hab. unfold Dbl.amount.
  apply dbl_sub_finite; [assumption|assumption|lia].
Qed.

Lemma dbl_onGrid_amount (g : Z) (x : PrimFloat.float) :
  Dbl.onGrid g x -> Dbl.amount x.
Proof. intros (F & [H0 _] & _). now split. Qed.

Lemma dbl_onGrid_sub (g : Z) (a b : PrimFloat.float) :
  (0 <= g <= 2045)%Z ->
  Dbl.onGrid g a -> Dbl.onGrid g b -> (Dbl.units b <= Dbl.units a)%Z ->
  Dbl.onGrid g (PrimFloat.sub a b).
Proof.
  intros Hg (Fa & [Ha0 Ha1] & Da) (Fb & [Hb0 Hb1] & Db) Hab.
  destruct (@dbl_sub_exact g a b Hg Fa Fb ltac:(lia) Ha1 Da Db)
    as [F E].
  unfold Dbl.onGrid. rewrite E.
  split; [assumption|]. split; [lia|]. now apply Z.divide_sub_r.
Qed.

Lemma dbl_call_allocated (c : Dbl.Call) (st : Dbl.OrderMatcher) :
  Dbl.allocated st -> Dbl.allocated (Dbl.call c st).
Proof.
  intros Hal. unfold Dbl.allocated in *.
  destruct c as [now order|orderId|]; cbn [Dbl.call].
  - destruct (dbl_matchLoop_shape now order (Dbl.opposingOrders order st)
                (Dbl.Order.quantity order) [] st)
      as (rem' & created & st1 & Hloop & _ & Hf & _ & Hincl).
    cbn [app] in Hloop. rewrite (dbl_addOrder_eq _ _ _ Hloop).
    assert (Hal1 : Forall (fun r => (r < Dbl.fresh st1)%nat)
                     (Dbl.orders st1)).
    { rewrite Forall_forall in *. intros x Hx. rewrite Hf.
      apply Hal. now apply Hincl. }
    destruct (Dbl.rests order rem');
      cbn [snd Dbl.orders Dbl.fresh Dbl.set_trades]; [|exact Hal1].
    apply Forall_app. split.
    + eapply Forall_impl; [|exact Hal1]. cbn. intros; lia.
    + constructor; [lia|constructor].
  - unfold Dbl.removeOrder.
    cbn [snd Dbl.set_orders Dbl.orders Dbl.fresh].
    rewrite Forall_forall in *. intros x Hx. apply Hal.
    now apply dbl_removeById_incl in Hx.
  - constructor.
Qed.

Lemma dbl_finiteCall_good (c : Dbl.Call) :
  Dbl.finiteCall c ->
  match c with
  | Dbl.CallAddOrder _ order =>
      Dbl.amount (Dbl.Order.quantity order)
      \/ Dbl.lez (Dbl.Order.quantity order) = true
  | _ => True
  end.
Proof.
  destruct c as [now order|orderId|]; cbn; trivial.
  intros F. destruct (Dbl.lez (Dbl.Order.quantity order)) eqn:L;
    [now right|left].
  destruct (@dbl_finite_positive _ F L) as [_ H]. split; [assumption|lia].
Qed.

(** An engine that is only handed finite quantities holds only finite
    quantities, and the ones that rest are above zero. *)
Lemma dbl_run_finite (calls : list Dbl.Call) :
  forall st : Dbl.OrderMatcher,
    Forall Dbl.finiteCall calls ->
    Dbl.allocated st -> Dbl.heapOf Dbl.amount st ->
    Dbl.resting_not_nonpositive st ->
    Dbl.allocated (Dbl.run calls st)
    /\ Dbl.heapOf Dbl.amount (Dbl.run calls st)
    /\ Dbl.resting_not_nonpositive (Dbl.run calls st).
Proof.
  induction calls as [|c calls IH]; intros st Hc Hal Hh Hnn;
    [cbn; auto|].
  apply Forall_cons_iff in Hc. destruct Hc as [Hc Hcs].
  cbn [Dbl.run]. apply IH; [assumption| | |].
  - now apply dbl_call_allocated.
  - apply (@dbl_call_good Dbl.amount (fun x H => H) dbl_amount_sub);
      [assumption|assumption|now apply dbl_finiteCall_good].
  - now apply dbl_call_inv.
Qed.

(** On a grid every subtraction the loop makes is exact. *)
Lemma dbl_matchLoop_grid (g : Z) (r : ref)
    (now : nat -> PrimFloat.float) (order : Dbl.Order.t)
    (opp : list ref) :
  (0 <= g <= 2045)%Z ->
  forall (rem : PrimFloat.float) (acc : list Dbl.Trade.t)
         (st : Dbl.OrderMatcher),
    Dbl.heapOf (Dbl.onGrid g) st ->
    Forall (fun x => (x < Dbl.fresh st)%nat) opp ->
    Dbl.onGrid g rem ->
    Dbl.loopExact r now order opp rem acc st.
Proof.
  intros Hg.
  induction opp as [|x rest IH]; intros rem acc st Hh Hopp Hrem;
    cbn [Dbl.loopExact]; [trivial|].
  destruct (Dbl.lez rem); [trivial|].
  apply Forall_cons_iff in Hopp. destruct Hopp as [Hx Hrest].
  split.
  - intros ->.
    destruct (@dbl_min_good (Dbl.onGrid g) (@dbl_onGrid_amount g)
                rem (Dbl.Order.quantity (Dbl.heap st r)) Hrem (Hh r Hx))
      as (Ht & _ & Htq).
    pose proof (Hh r Hx) as (Fq & [Hq0 Hq1] & Dq).
    destruct Ht as (Ft & [Ht0 Ht1] & Dt).
    destruct (@dbl_sub_exact g _ _ Hg Fq Ft ltac:(lia) Hq1 Dq Dt)
      as [F E].
    unfold Dbl.exactSub. auto.
  - pose proof (@dbl_matchStep_good (Dbl.onGrid g) (@dbl_onGrid_amount g)
                  (fun a b => @dbl_onGrid_sub g a b Hg) now order x rem acc st Hh Hx Hrem)
      as [Hrem1 Hh1].
    pose proof (dbl_matchStep_orders now order x rem acc st)
      as (_ & _ & _ & Hf).
    cbv zeta in Hf.
    destruct (Dbl.matchStep now order x rem acc st) as [[rem1 acc1] st1].
    cbn [fst snd] in *. apply IH; [assumption| |assumption].
    rewrite Hf. exact Hrest.
Qed.

Lemma dbl_run_grid (g : Z) (r : ref) (calls : list Dbl.Call) :
  (0 <= g <= 2045)%Z ->
  forall st : Dbl.OrderMatcher,
    Forall (Dbl.gridCall g) calls ->
    Dbl.allocated st -> Dbl.heapOf (Dbl.onGrid g) st ->
    Dbl.runExact r calls st.
Proof.
  intros Hg.
  induction calls as [|c calls IH]; intros st Hc Hal Hh;
    cbn [Dbl.runExact]; [trivial|].
  apply Forall_cons_iff in Hc. destruct Hc as [Hc Hcs].
  split.
  - destruct c as [now order|orderId|]; cbn [Dbl.callExact]; trivial.
    apply (@dbl_matchLoop_grid g); [assumption|assumption| |exact Hc].
    unfold Dbl.allocated in Hal. rewrite Forall_forall in *.
    intros x Hx. apply Hal. now apply dbl_opposingOrders_incl in Hx.
  - apply IH; [assumption|now apply dbl_call_allocated|].
    apply (@dbl_call_good (Dbl.onGrid g) (@dbl_onGrid_amount g)
             (fun a b => @dbl_onGrid_sub g a b Hg)); [assumption|assumption|].
    destruct c as [now order|orderId|]; cbn; trivial. left. exact Hc.
Qed.

Lemma dbl_run_grid_heap (g : Z) (calls : list Dbl.Call) :
  (0 <= g <= 2045)%Z ->
  forall st : Dbl.OrderMatcher,
    Forall (Dbl.gridCall g) calls ->
    Dbl.allocated st -> Dbl.heapOf (Dbl.onGrid g) st ->
    Dbl.allocated (Dbl.run calls st)
    /\ Dbl.heapOf (Dbl.onGrid g) (Dbl.run calls st).
Proof.
  intros Hg.
  induction calls as [|c calls IH]; intros st Hc Hal Hh; [cbn; auto|].
  apply Forall_cons_iff in Hc. destruct Hc as [Hc Hcs].
  cbn [Dbl.run]. apply IH; [assumption|now apply dbl_call_allocated|].
  apply (@dbl_call_good (Dbl.onGrid g) (@dbl_onGrid_amount g)
           (fun a b => @dbl_onGrid_sub g a b Hg)); [assumption|assumption|].
  destruct c as [now order|orderId|]; cbn; trivial. left. exact Hc.
Qed.

(** C4, amended.  Resting quantities, on doubles.  An order that a match
    leaves with a quantity of zero or less is removed from the book in
    that same step; a remainder rests only with a quantity above zero;
    [addOrder], [removeOrder] and [clear] each keep the book free of
    quantities that are [<= 0]; so in every state the engine reaches no
    resting order has a quantity that is [<= 0]: a resting quantity is
    above zero or is NaN.  In an engine that has only been handed finite
    quantities every resting quantity is finite and above zero. *)
Theorem C4_resting_never_nonpositive :
  (forall now order r rem acc st,
      let st' := snd (Dbl.matchStep now order r rem acc st) in
      Dbl.lez (Dbl.Order.quantity (Dbl.heap st' r)) = true ->
      ~ In r (Dbl.orders st'))
  /\ (forall now order st r,
         Dbl.reachable st ->
         snd (fst (Dbl.addOrder now order st)) = Some r ->
         In r (Dbl.orders (snd (Dbl.addOrder now order st)))
         /\ Dbl.gtz (Dbl.Order.quantity
                       (Dbl.heap (snd (Dbl.addOrder now order st)) r))
            = true)
  /\ (forall now order st,
         snd (fst (Dbl.addOrder now order st)) = None ->
         incl (Dbl.orders (snd (Dbl.addOrder now order st)))
           (Dbl.orders st))
  /\ (forall c st,
         Dbl.allocated st /\ Dbl.resting_not_nonpositive st ->
         Dbl.allocated (Dbl.call c st)
         /\ Dbl.resting_not_nonpositive (Dbl.call c st))
  /\ (forall st,
         Dbl.reachable st ->
         forall r,
           In r (Dbl.orders st) ->
           Dbl.lez (Dbl.Order.quantity (Dbl.heap st r)) = false
           /\ (Dbl.gtz (Dbl.Order.quantity (Dbl.heap st r)) = true
               \/ PrimFloat.is_nan (Dbl.Order.quantity (Dbl.heap st r))
                  = true))
  /\ (forall calls,
         Forall Dbl.finiteCall calls ->
         forall r,
           In r (Dbl.orders (Dbl.run calls Dbl.newOrderMatcher)) ->
           Dbl.finite
             (Dbl.Order.quantity
                (Dbl.heap (Dbl.run calls Dbl.newOrderMatcher) r)) = true
           /\ Dbl.gtz
                (Dbl.Order.quantity
                   (Dbl.heap (Dbl.run calls Dbl.newOrderMatcher) r))
              = true).
Proof.
  split; [|split; [|split; [|split; [|split]]]].
  - intros now order r rem acc st st'. subst st'.
    pose proof (dbl_matchStep_orders now order r rem acc st) as H.
    cbv zeta in H. destruct H as (_ & H & _). exact H.
  - intros now order st r Hreach.
    destruct (@dbl_reachable_inv st Hreach) as [Hal Hnn].
    destruct (dbl_addOrder_inv now order Hal Hnn) as (_ & _ & H).
    exact (H r).
  - intros now order st Hnone.
    destruct (dbl_matchLoop_shape now order (Dbl.opposingOrders order st)
                (Dbl.Order.quantity order) [] st)
      as (rem' & created & st1 & Hloop & _ & _ & _ & Hincl).
    cbn [app] in Hloop. rewrite (dbl_addOrder_eq _ _ _ Hloop) in Hnone |- *.
    destruct (Dbl.rests order rem'); [discriminate|]. exact Hincl.
  - apply dbl_call_inv.
  - intros st Hreach r Hr.
    destruct (@dbl_reachable_inv st Hreach) as [_ Hnn].
    unfold Dbl.resting_not_nonpositive in Hnn.
    rewrite Forall_forall in Hnn. specialize (Hnn r Hr).
    split; [assumption|]. now apply dbl_lez_false.
  - intros calls Hcalls r Hr.
    destruct (@dbl_run_finite calls Dbl.newOrderMatcher Hcalls)
      as (Hal & Hh & Hnn).
    + constructor.
    + intros x Hx. cbn in Hx. lia.
    + constructor.
    + unfold Dbl.allocated, Dbl.resting_not_nonpositive in *.
      rewrite Forall_forall in *.
      destruct (Hh r (Hal r Hr)) as [F _].
      split; [assumption|].
      now destruct (@dbl_finite_positive _ F (Hnn r Hr)).
Qed.

(** C4, as stated, fails: a sell of quantity Infinity rests, above zero
    as it must be; a buy of quantity Infinity is matched against it, and
    the sell is left resting with the quantity Infinity - Infinity, which
    is NaN and not above zero. *)
Lemma C4_counterexample :
  Dbl.reachable Dbl.restingInfinity
  /\ Forall (fun r => Dbl.gtz (Dbl.Order.quantity
                                 (Dbl.heap Dbl.restingInfinity r)) = true)
       (Dbl.orders Dbl.restingInfinity)
  /\ exists r,
       In r (Dbl.orders
               (snd (Dbl.addOrder Dbl.epoch Dbl.infiniteBuy
                       Dbl.restingInfinity)))
       /\ Dbl.gtz (Dbl.Order.quantity
                     (Dbl.heap
                        (snd (Dbl.addOrder Dbl.epoch Dbl.infiniteBuy
                                Dbl.restingInfinity)) r)) = false
       /\ PrimFloat.is_nan
            (Dbl.Order.quantity
               (Dbl.heap
                  (snd (Dbl.addOrder Dbl.epoch Dbl.infiniteBuy
                          Dbl.restingInfinity)) r)) = true.
Proof.
  split; [unfold Dbl.restingInfinity; repeat constructor|].
  split; [vm_compute; repeat constructor|].
  exists 0%nat. vm_compute. repeat split. now left.
Qed.

(** * The engine on doubles: quantities *)

Lemma dbl_tradedAgainst_cons (r x : ref) (t : Dbl.Trade.t)
    (fills : list (ref * Dbl.Trade.t)) :
  Dbl.tradedAgainst r ((x, t) :: fills)
  = ((if Nat.eqb x r then Dbl.units (Dbl.Trade.quantity t) else 0)
     + Dbl.tradedAgainst r fills)%Z.
Proof.
  unfold Dbl.tradedAgainst. cbn [filter fst snd].
  destruct (Nat.eqb x r); reflexivity.
Qed.

Lemma dbl_tradedAgainst_app (r : ref) (a b : list (ref * Dbl.Trade.t)) :
  Dbl.tradedAgainst r (a ++ b)
  = (Dbl.tradedAgainst r a + Dbl.tradedAgainst r b)%Z.
Proof.
  induction a as [|[x t] a IH]; [reflexivity|].
  rewrite <- app_comm_cons, !dbl_tradedAgainst_cons, IH. lia.
Qed.

(** A loop whose subtractions from the quantity of [r] are exact takes
    from it the total of the trades made against it, and leaves it finite
    and not below zero. *)
Lemma dbl_matchLoop_exact (r : ref) (now : nat -> PrimFloat.float)
    (order : Dbl.Order.t) (opp : list ref) :
  forall (rem : PrimFloat.float) (acc : list Dbl.Trade.t)
         (st : Dbl.OrderMatcher),
    Dbl.loopExact r now order opp rem acc st ->
    Dbl.finite (Dbl.Order.quantity (Dbl.heap st r)) = true ->
    (0 <= Dbl.units (Dbl.Order.quantity (Dbl.heap st r)))%Z ->
    exists rem' created st',
      Dbl.matchLoop now order opp rem acc st = (rem', acc ++ created, st')
      /\ Dbl.fresh st' = Dbl.fresh st
      /\ Dbl.finite (Dbl.Order.quantity (Dbl.heap st' r)) = true
      /\ (0 <= Dbl.units (Dbl.Order.quantity (Dbl.heap st' r)))%Z
      /\ Dbl.units (Dbl.Order.quantity (Dbl.heap st' r))
         = (Dbl.units (Dbl.Order.quantity (Dbl.heap st r))
            - Dbl.tradedAgainst r (combine opp created))%Z.
Proof.
  induction opp as [|x rest IH]; intros rem acc st Hex Hfin Hpos.
  - exists rem, [], st. cbn [Dbl.matchLoop combine]. rewrite app_nil_r.
    unfold Dbl.tradedAgainst. cbn.
    split; [reflexivity|]. split; [reflexivity|]. split; [assumption|].
    split; [assumption|]. lia.
  - rewrite dbl_matchLoop_cons. cbn [Dbl.loopExact] in Hex.
    destruct (Dbl.lez rem).
    + exists rem, [], st. rewrite app_nil_r.
      unfold Dbl.tradedAgainst. cbn.
      split; [reflexivity|]. split; [reflexivity|]. split; [assumption|].
      split; [assumption|]. lia.
    + destruct Hex as [Hsub Hex].
      destruct (dbl_matchStep_spec now order x rem acc st)
        as (st1 & Hstep & Hheap & Hfresh & _ & _ & _).
      rewrite Hstep in Hex |- *. cbn [fst snd].
      set (t := Dbl.mathMin rem (Dbl.Order.quantity (Dbl.heap st x))) in *.
      set (tr := Dbl.mkTrade order (Dbl.heap st x) (Dbl.sequenceId st) t
                   (now (length acc))) in *.
      assert (Hq1 :
        Dbl.finite (Dbl.Order.quantity (Dbl.heap st1 r)) = true
        /\ (0 <= Dbl.units (Dbl.Order.quantity (Dbl.heap st1 r)))%Z
        /\ Dbl.units (Dbl.Order.quantity (Dbl.heap st1 r))
           = (Dbl.units (Dbl.Order.quantity (Dbl.heap st r))
              - (if Nat.eqb x r then Dbl.units (Dbl.Trade.quantity tr)
                 else 0))%Z).
      { destruct (Nat.eqb x r) eqn:Exr.
        - apply Nat.eqb_eq in Exr. subst x.
          destruct (Hsub eq_refl) as (Hfq & Hft & Hfs & Hu).
          fold t in Hft, Hfs, Hu.
          rewrite Hheap, dbl_store_same.
          cbn [Dbl.Order.with_quantity Dbl.Order.quantity].
          fold t. subst tr. cbn [Dbl.mkTrade Dbl.Trade.quantity].
          split; [assumption|]. split; [|assumption].
          rewrite Hu.
          destruct (@dbl_min_resting rem
                      (Dbl.Order.quantity (Dbl.heap st r)) Hfq Hft)
            as [E|(E & _ & Hle)]; fold t in E; rewrite E; lia.
        - apply Nat.eqb_neq in Exr.
          rewrite Hheap, dbl_store_other by congruence.
          split; [assumption|]. split; [assumption|]. lia. }
      destruct Hq1 as (Hfin1 & Hpos1 & Hu1).
      destruct (IH _ _ _ Hex Hfin1 Hpos1)
        as (rem' & created & st' & Hloop & Hf & Hfin' & Hpos' & Hu').
      exists rem', (tr :: created), st'.
      rewrite Hloop, <- app_assoc. cbn [app combine].
      rewrite dbl_tradedAgainst_cons.
      split; [reflexivity|]. split; [congruence|]. split; [assumption|].
      split; [assumption|]. lia.
Qed.

Lemma dbl_call_exact (r : ref) (c : Dbl.Call) (st : Dbl.OrderMatcher) :
  (r < Dbl.fresh st)%nat ->
  Dbl.callExact r c st ->
  Dbl.finite (Dbl.Order.quantity (Dbl.heap st r)) = true ->
  (0 <= Dbl.units (Dbl.Order.quantity (Dbl.heap st r)))%Z ->
  (r < Dbl.fresh (Dbl.call c st))%nat
  /\ Dbl.finite (Dbl.Order.quantity (Dbl.heap (Dbl.call c st) r)) = true
  /\ (0 <= Dbl.units (Dbl.Order.quantity (Dbl.heap (Dbl.call c st) r)))%Z
  /\ Dbl.units (Dbl.Order.quantity (Dbl.heap (Dbl.call c st) r))
     = (Dbl.units (Dbl.Order.quantity (Dbl.heap st r))
        - Dbl.tradedAgainst r (Dbl.callFills c st))%Z.
Proof.
  intros Hr Hex Hfin Hpos.
  destruct c as [now order|orderId|];
    cbn [Dbl.call Dbl.callFills Dbl.callExact] in *.
  - destruct (@dbl_matchLoop_exact r now order
                (Dbl.opposingOrders order st) (Dbl.Order.quantity order)
                [] st Hex Hfin Hpos)
      as (rem' & created & st1 & Hloop & Hf & Hfin1 & Hpos1 & Hu1).
    cbn [app] in Hloop.
    rewrite (dbl_addOrder_eq _ _ _ Hloop).
    destruct (Dbl.rests order rem');
      cbn [fst snd Dbl.heap Dbl.fresh Dbl.set_trades].
    + rewrite dbl_store_other by lia.
      split; [lia|]. split; [assumption|]. split; assumption.
    + split; [lia|]. split; [assumption|]. split; assumption.
  - unfold Dbl.removeOrder, Dbl.tradedAgainst.
    cbn [snd Dbl.set_orders Dbl.heap Dbl.fresh filter map fold_right].
    split; [assumption|]. split; [assumption|]. split; [assumption|]. lia.
  - unfold Dbl.clear, Dbl.tradedAgainst.
    cbn [Dbl.set_orders Dbl.set_trades Dbl.heap Dbl.fresh filter map
         fold_right].
    split; [assumption|]. split; [assumption|]. split; [assumption|]. lia.
Qed.

Lemma dbl_run_exact (r : ref) (calls : list Dbl.Call) :
  forall st : Dbl.OrderMatcher,
    (r < Dbl.fresh st)%nat ->
    Dbl.runExact r calls st ->
    Dbl.finite (Dbl.Order.quantity (Dbl.heap st r)) = true ->
    (0 <= Dbl.units (Dbl.Order.quantity (Dbl.heap st r)))%Z ->
    (0 <= Dbl.units (Dbl.Order.quantity (Dbl.heap (Dbl.run calls st) r)))%Z
    /\ Dbl.units (Dbl.Order.quantity (Dbl.heap (Dbl.run calls st) r))
       = (Dbl.units (Dbl.Order.quantity (Dbl.heap st r))
          - Dbl.tradedAgainst r (Dbl.runFills calls st))%Z.
Proof.
  induction calls as [|c calls IH]; intros st Hr Hex Hfin Hpos.
  - cbn [Dbl.run Dbl.runFills]. unfold Dbl.tradedAgainst. cbn.
    split; [assumption|]. lia.
  - cbn [Dbl.run Dbl.runFills Dbl.runExact] in *.
    destruct Hex as [Hc Hex].
    destruct (@dbl_call_exact r c st Hr Hc Hfin Hpos)
      as (Hr1 & Hfin1 & Hpos1 & Hu1).
    destruct (IH _ Hr1 Hex Hfin1 Hpos1) as (Hpos' & Hu').
    rewrite dbl_tradedAgainst_app. split; [assumption|]. lia.
Qed.

(** C3, amended.  Quantities, on doubles.  In every match the matched
    quantity is Math.min of the incoming remaining quantity and the
    resting quantity, the trade carries it, and each of the two
    quantities becomes the double [-] of itself and the matched quantity,
    nothing else changing; the side that the minimum is taken from, when
    finite, becomes exactly zero, and a resting order so filled leaves
    the book; finite quantities at or above zero stay so.  Over calls in
    which no subtraction from the quantity of a resting order rounds,
    that order's quantity goes down by exactly the total of the trades
    made against it, which therefore never exceeds its original
    quantity.  No subtraction rounds in an engine that has only been
    handed quantities on one grid: whole multiples of a power of two,
    below [2^53] of them. *)
Theorem C3_quantity_bookkeeping :
  (forall now order r rem acc st,
      let q := Dbl.Order.quantity (Dbl.heap st r) in
      let t := Dbl.mathMin rem q in
      let step := Dbl.matchStep now order r rem acc st in
      (exists tr,
          snd (fst step) = acc ++ [tr] /\ Dbl.Trade.quantity tr = t)
      /\ fst (fst step) = PrimFloat.sub rem t
      /\ Dbl.Order.quantity (Dbl.heap (snd step) r) = PrimFloat.sub q t
      /\ (forall r', r' <> r -> Dbl.heap (snd step) r' = Dbl.heap st r')
      /\ (PrimFloat.is_nan rem = false -> PrimFloat.is_nan q = false ->
          t = rem \/ t = q)
      /\ (Dbl.finite rem = true -> Dbl.finite q = true ->
          Dbl.units t = Z.min (Dbl.units rem) (Dbl.units q))
      /\ (Dbl.finite rem = true -> t = rem ->
          fst (fst step) = PrimFloat.zero)
      /\ (Dbl.finite q = true -> t = q ->
          Dbl.Order.quantity (Dbl.heap (snd step) r) = PrimFloat.zero
          /\ ~ In r (Dbl.orders (snd step)))
      /\ (Dbl.amount rem -> Dbl.amount q ->
          Dbl.amount (fst (fst step))
          /\ Dbl.amount (Dbl.Order.quantity (Dbl.heap (snd step) r))))
  /\ (forall r calls st,
         (r < Dbl.fresh st)%nat ->
         Dbl.finite (Dbl.Order.quantity (Dbl.heap st r)) = true ->
         (0 <= Dbl.units (Dbl.Order.quantity (Dbl.heap st r)))%Z ->
         Dbl.runExact r calls st ->
         Dbl.units (Dbl.Order.quantity (Dbl.heap (Dbl.run calls st) r))
         = (Dbl.units (Dbl.Order.quantity (Dbl.heap st r))
            - Dbl.tradedAgainst r (Dbl.runFills calls st))%Z
         /\ (Dbl.tradedAgainst r (Dbl.runFills calls st)
             <= Dbl.units (Dbl.Order.quantity (Dbl.heap st r)))%Z)
  /\ (forall g calls0 calls r,
         (0 <= g <= 2045)%Z ->
         Forall (Dbl.gridCall g) calls0 ->
         Forall (Dbl.gridCall g) calls ->
         let st := Dbl.run calls0 Dbl.newOrderMatcher in
         In r (Dbl.orders st) ->
         Dbl.units (Dbl.Order.quantity (Dbl.heap (Dbl.run calls st) r))
         = (Dbl.units (Dbl.Order.quantity (Dbl.heap st r))
            - Dbl.tradedAgainst r (Dbl.runFills calls st))%Z
         /\ (Dbl.tradedAgainst r (Dbl.runFills calls st)
             <= Dbl.units (Dbl.Order.quantity (Dbl.heap st r)))%Z).
Proof.
  split; [|split].
  - intros now order r rem acc st q t step.
    destruct (dbl_matchStep_spec now order r rem acc st)
      as (st1 & Hstep & Hheap & _ & _ & _ & Hord).
    fold q in Hstep, Hheap, Hord. fold t in Hstep, Hheap, Hord.
    subst step. rewrite Hstep. cbn [fst snd].
    assert (Hq1 : Dbl.Order.quantity (Dbl.heap st1 r) = PrimFloat.sub q t).
    { rewrite Hheap, dbl_store_same. reflexivity. }
    split; [eexists; split; reflexivity|].
    split; [reflexivity|].
    split; [exact Hq1|].
    split; [intros r' Hr'; rewrite Hheap; now apply dbl_store_other|].
    split; [apply dbl_min_cases|].
    split; [apply dbl_min_units|].
    split; [|split].
    + intros Hf ->. now apply dbl_sub_diag.
    + intros Hf Ht. rewrite Hq1, Ht, (@dbl_sub_diag q Hf).
      split; [reflexivity|].
      pose proof (dbl_matchStep_orders now order r rem acc st) as H.
      cbv zeta in H. rewrite Hstep in H. cbn [snd] in H.
      destruct H as (_ & H & _). apply H.
      rewrite Hq1, Ht, (@dbl_sub_diag q Hf).
      exact dbl_lez_zero.
    + intros Hrem Hq.
      destruct (@dbl_min_good Dbl.amount (fun x H => H) rem q Hrem Hq)
        as (Ht & Htr & Htq).
      fold t in Ht, Htr, Htq. rewrite Hq1.
      split; now apply dbl_amount_sub.
  - intros r calls st Hr Hfin Hpos Hex.
    destruct (@dbl_run_exact r calls st Hr Hex Hfin Hpos) as [H1 H2].
    split; [assumption|]. lia.
  - intros g calls0 calls r Hg Hc0 Hc st Hr.
    destruct (@dbl_run_grid_heap g calls0 Hg Dbl.newOrderMatcher Hc0)
      as [Hal Hh].
    + constructor.
    + intros x Hx. cbn in Hx. lia.
    + fold st in Hal, Hh.
      assert (Hlt : (r < Dbl.fresh st)%nat).
      { unfold Dbl.allocated in Hal. rewrite Forall_forall in Hal.
        now apply Hal. }
      destruct (Hh r Hlt) as (F & [H0 _] & _).
      pose proof (@dbl_run_grid g r calls Hg st Hc Hal Hh) as Hex.
      destruct (@dbl_run_exact r calls st Hlt Hex F H0) as [H1 H2].
      split; [assumption|]. lia.
Qed.

(** C3, as stated, fails: against a resting sell of 1, a buy of 2^-60
    trades 2^-60 and leaves the quantity 1 as it was; a buy of 1 then
    trades 1: the trades against the order total more than its original
    quantity. *)
Lemma C3_counterexample :
  Dbl.orders Dbl.restingOne = [0%nat]
  /\ Dbl.Order.quantity (Dbl.heap Dbl.restingOne 0%nat) = PrimFloat.one
  /\ map (fun p => (fst p, Dbl.Trade.quantity (snd p)))
       (Dbl.runFills Dbl.absorbedCalls Dbl.restingOne)
     = [(0%nat, Dbl.tiny); (0%nat, PrimFloat.one)]
  /\ Dbl.Order.quantity
       (Dbl.heap (Dbl.run (firstn 1 Dbl.absorbedCalls) Dbl.restingOne)
          0%nat)
     = PrimFloat.one
  /\ (Dbl.units (Dbl.Order.quantity (Dbl.heap Dbl.restingOne 0%nat))
      < Dbl.tradedAgainst 0%nat
          (Dbl.runFills Dbl.absorbedCalls Dbl.restingOne))%Z.
Proof. vm_compute. repeat split. Qed.

(** C3 at a resting sell of 4: buys of 1, 2 and 3 trade 1, 2 and 1 against
    it, whole numbers, which subtract without rounding. *)
Lemma C3_witness :
  (Dbl.tradedAgainst 0%nat (Dbl.runFills Dbl.wholeCalls Dbl.restingFour)
   <= Dbl.units (Dbl.Order.quantity (Dbl.heap Dbl.restingFour 0%nat)))%Z
  /\ map (fun p => (fst p, Dbl.Trade.quantity (snd p)))
       (Dbl.runFills Dbl.wholeCalls Dbl.restingFour)
     = [(0%nat, PrimFloat.one); (0%nat, PrimFloat.two);
        (0%nat, PrimFloat.one)].
Proof.
  split; [|vm_compute; reflexivity].
  assert (Hgrid : forall x,
             Dbl.finite x = true ->
             (0 <= Dbl.units x)%Z ->
             (Dbl.units x < 2 ^ (53 + 1074))%Z ->
             Dbl.units x
             = (Dbl.units x / 2 ^ 1074 * 2 ^ 1074)%Z ->
             Dbl.onGrid 1074 x).
  { intros x F H0 H1 E. split; [assumption|]. split; [now split|].
    now exists (Dbl.units x / 2 ^ 1074)%Z. }
  apply (proj2 (proj2 C3_quantity_bookkeeping) 1074%Z Dbl.wholeOpening
           Dbl.wholeCalls 0%nat).
  - lia.
  - repeat constructor; apply Hgrid; vm_compute;
      first [reflexivity | discriminate].
  - repeat constructor; apply Hgrid; vm_compute;
      first [reflexivity | discriminate].
  - vm_compute. now left.
Defined.

(** C4 after the same calls, all of finite quantities: what rests is the
    remainder of the last buy, with a quantity above zero. *)
Lemma C4_witness :
  Dbl.gtz
    (Dbl.Order.quantity
       (Dbl.heap
          (Dbl.run (Dbl.wholeOpening ++ Dbl.wholeCalls) Dbl.newOrderMatcher)
          1%nat)) = true
  /\ Dbl.orders
       (Dbl.run (Dbl.wholeOpening ++ Dbl.wholeCalls) Dbl.newOrderMatcher)
     = [1%nat].
Proof.
  split; [|vm_compute; reflexivity].
  apply (proj2 (proj2 (proj2 (proj2 (proj2 C4_resting_never_nonpositive))))
           (Dbl.wholeOpening ++ Dbl.wholeCalls)).
  - repeat constructor.
  - vm_compute. now left.
Defined.
